(** * steepandfast: the auto-fit geometry of the "STEEP & FAST" mark

    A shallow embedding of the auto-fit helpers of the responsive sketch
    ([offsetRect], [plaqueCorners], [aabbFromPoints]), of the part of
    [draw] that turns the bounding box into a scale and two offsets, and
    of the drawing routines.

    JavaScript numbers are read in three ways.  The exact model takes
    them as exact reals extended with [Infinity], [-Infinity] and [NaN]:
    every finite operation is the exact real one and the single zero
    behaves as [+0].  It settles what the formulas are, and what rounding
    cannot change: signs, orders, minima and maxima, [NaN], what is drawn
    and in which order.  [Rounded] rounds every finite result to a nearby
    number of the format, or to an infinity, and bounds what rounding can
    change.  [Binary64] computes on the doubles themselves and settles
    what the code returns on a given input. *)

From Stdlib Require Import ZArith QArith String Ascii Permutation.
From Stdlib Require Floats.PrimFloat Floats.FloatOps Floats.SpecFloat.
From Stdlib Require Import Reals Lra List.
Import ListNotations.

Open Scope R_scope.

Set Warnings "-inexact-float".

(** ** JavaScript numbers *)

Inductive num : Type :=
| Fin (r : R)
| PInf
| NInf
| NaN.

Module Num.

(** The sign of a real: [Lt] negative, [Eq] zero, [Gt] positive. *)
Definition sgn (x : R) : comparison :=
  if Rlt_dec x 0 then Lt else if Rlt_dec 0 x then Gt else Eq.

(** The infinity carrying a given sign; the sign of zero gives [NaN]
    (as in [0 * Infinity] and [0 / 0]). *)
Definition inf_of_sign (c : comparison) : num :=
  match c with
  | Gt => PInf
  | Lt => NInf
  | Eq => NaN
  end.

Definition add (a b : num) : num :=
  match a, b with
  | NaN, _ | _, NaN => NaN
  | Fin x, Fin y => Fin (x + y)
  | PInf, NInf | NInf, PInf => NaN
  | PInf, _ | _, PInf => PInf
  | NInf, _ | _, NInf => NInf
  end.

Definition sub (a b : num) : num :=
  match a, b with
  | NaN, _ | _, NaN => NaN
  | Fin x, Fin y => Fin (x - y)
  | PInf, PInf | NInf, NInf => NaN
  | PInf, _ | _, NInf => PInf
  | NInf, _ | _, PInf => NInf
  end.

Definition mul (a b : num) : num :=
  match a, b with
  | NaN, _ | _, NaN => NaN
  | Fin x, Fin y => Fin (x * y)
  | Fin x, PInf | PInf, Fin x => inf_of_sign (sgn x)
  | Fin x, NInf | NInf, Fin x => inf_of_sign (sgn (- x))
  | PInf, PInf | NInf, NInf => PInf
  | PInf, NInf | NInf, PInf => NInf
  end.

Definition div (a b : num) : num :=
  match a, b with
  | NaN, _ | _, NaN => NaN
  | Fin x, Fin y =>
      match sgn y with
      | Eq => inf_of_sign (sgn x)
      | _ => Fin (x / y)
      end
  | Fin _, PInf | Fin _, NInf => Fin 0
  | PInf, Fin y => if Rlt_dec y 0 then NInf else PInf
  | NInf, Fin y => if Rlt_dec y 0 then PInf else NInf
  | PInf, _ | NInf, _ => NaN
  end.

(** [Math.min] and [Math.max]: [NaN] is contagious. *)
Definition Math_min (a b : num) : num :=
  match a, b with
  | NaN, _ | _, NaN => NaN
  | NInf, _ | _, NInf => NInf
  | PInf, c | c, PInf => c
  | Fin x, Fin y => Fin (Rmin x y)
  end.

Definition Math_max (a b : num) : num :=
  match a, b with
  | NaN, _ | _, NaN => NaN
  | PInf, _ | _, PInf => PInf
  | NInf, c | c, NInf => c
  | Fin x, Fin y => Fin (Rmax x y)
  end.

Definition Math_cos (a : num) : num :=
  match a with
  | Fin x => Fin (cos x)
  | _ => NaN
  end.

Definition Math_sin (a : num) : num :=
  match a with
  | Fin x => Fin (sin x)
  | _ => NaN
  end.

End Num.

Declare Scope num_scope.
Delimit Scope num_scope with num.
Bind Scope num_scope with num.
Infix "+" := Num.add : num_scope.
Infix "-" := Num.sub : num_scope.
Infix "*" := Num.mul : num_scope.
Infix "/" := Num.div : num_scope.

(** ** Data model *)

Record Rect : Type := mkRect { rx : num; ry : num; rw : num; rh : num }.

Record Point : Type := mkPoint { px : num; py : num }.

Record AABB : Type := mkAABB {
  minX : num; minY : num; maxX : num; maxY : num; bw : num; bh : num
}.

Record Pad : Type := mkPad {
  pad_left : num; pad_right : num; pad_top : num; pad_bottom : num
}.

(** ** Auto-fit helpers *)

Definition offsetRect (r : Rect) (dx dy : num) : Rect :=
  mkRect (rx r + dx)%num (ry r + dy)%num (rw r) (rh r).

Definition plaqueCorners (box : Rect) (ang skewK : num) : list Point :=
  let skew := (rh box * skewK)%num in
  let pts :=
    [ mkPoint (rx box + skew)%num (ry box);
      mkPoint (rx box + rw box + skew)%num (ry box);
      mkPoint (rx box + rw box - skew)%num (ry box + rh box)%num;
      mkPoint (rx box - skew)%num (ry box + rh box)%num ] in
  let cx := (rx box + rw box / Fin 2)%num in
  let cy := (ry box + rh box / Fin 2)%num in
  let c := Num.Math_cos ang in
  let s := Num.Math_sin ang in
  map (fun p =>
         let dx := (px p - cx)%num in
         let dy := (py p - cy)%num in
         mkPoint (cx + dx * c - dy * s)%num (cy + dx * s + dy * c)%num)
      pts.

(** The loop of [aabbFromPoints]: the four running bounds after the points
    of [points] have been visited in order. *)
Fixpoint aabbLoop (points : list Point) (mnX mnY mxX mxY : num)
  : num * num * num * num :=
  match points with
  | [] => (mnX, mnY, mxX, mxY)
  | p :: rest =>
      aabbLoop rest
        (Num.Math_min mnX (px p)) (Num.Math_min mnY (py p))
        (Num.Math_max mxX (px p)) (Num.Math_max mxY (py p))
  end.

Definition aabbFromPoints (points : list Point) : AABB :=
  let '(mnX, mnY, mxX, mxY) := aabbLoop points PInf PInf NInf NInf in
  mkAABB mnX mnY mxX mxY (mxX - mnX)%num (mxY - mnY)%num.

(** ** The auto-fit part of [draw] *)

(** What [draw] fixes as literals before the fit: the plaque rectangles,
    the shared angle and skew factor, the shadow offset and the motif
    pads. *)
Record Layout : Type := mkLayout {
  plaques : list Rect;
  slant : num;
  skewK : num;
  shadowOff : Point;
  motifPad : Pad
}.

Record Fit : Type := mkFit { scale : num; offsetX : num; offsetY : num }.

(** The array [pts]: the corners of every plaque, then the corners of
    every plaque moved by the shadow offset. *)
Definition fitPoints (L : Layout) : list Point :=
  flat_map (fun b => plaqueCorners b (slant L) (skewK L)) (plaques L)
  ++ flat_map
       (fun b =>
          plaqueCorners (offsetRect b (px (shadowOff L)) (py (shadowOff L)))
                        (slant L) (skewK L))
       (plaques L).

(** The four in-place updates of [bb] followed by the recomputation of
    [bb.w] and [bb.h]. *)
Definition inflate (bb : AABB) (pad : Pad) : AABB :=
  let mnX := (minX bb - pad_left pad)%num in
  let mxX := (maxX bb + pad_right pad)%num in
  let mnY := (minY bb - pad_top pad)%num in
  let mxY := (maxY bb + pad_bottom pad)%num in
  mkAABB mnX mnY mxX mxY (mxX - mnX)%num (mxY - mnY)%num.

Definition inflatedBBox (L : Layout) : AABB :=
  inflate (aabbFromPoints (fitPoints L)) (motifPad L).

Definition padPx : num := Fin 18.

(** The scale [s] and the offsets [ox], [oy] for a viewport
    [width] x [height]. *)
Definition fitTransform (bb : AABB) (width height : num) : Fit :=
  let s :=
    Num.Math_min ((width - Fin 2 * padPx) / bw bb)%num
                 ((height - Fin 2 * padPx) / bh bb)%num in
  let ox := ((width - bw bb * s) / Fin 2 - minX bb * s)%num in
  let oy := ((height - bh bb * s) / Fin 2 - minY bb * s)%num in
  mkFit s ox oy.

Definition autoFit (L : Layout) (width height : num) : Fit :=
  fitTransform (inflatedBBox L) width height.

(** The literals of [draw]. *)
Definition steep : Rect := mkRect (Fin 120) (Fin 120) (Fin 900) (Fin 220).
Definition fast : Rect := mkRect (Fin 260) (Fin 330) (Fin 920) (Fin 220).

Definition drawLayout : Layout :=
  mkLayout [steep; fast] (Fin (- (14 / 100))) (Fin (45 / 100))
           (mkPoint (Fin 16) (Fin 16))
           (mkPad (Fin 220) (Fin 120) (Fin 170) (Fin 140)).

(** The transform that [draw] hands to [translate] and [scale]. *)
Definition draw (width height : num) : Fit :=
  autoFit drawLayout width height.

(** ** Finite values *)

Definition pointR (p : R * R) : Point := mkPoint (Fin (fst p)) (Fin (snd p)).

Definition rectR (x y w h : R) : Rect := mkRect (Fin x) (Fin y) (Fin w) (Fin h).

Definition rectR4 (b : R * R * R * R) : Rect :=
  let '(x, y, w, h) := b in rectR x y w h.

(** The box with finite bounds whose [w] and [h] are the differences of
    its bounds, as [aabbFromPoints] and [draw] compute them. *)
Definition aabbR (x0 y0 x1 y1 : R) : AABB :=
  mkAABB (Fin x0) (Fin y0) (Fin x1) (Fin y1) (Fin (x1 - x0)) (Fin (y1 - y0)).

Definition fitR (s ox oy : R) : Fit := mkFit (Fin s) (Fin ox) (Fin oy).

(** The scale as a real formula of the box sizes and the viewport. *)
Definition scaleR (w h W H : R) : R := Rmin ((W - 2 * 18) / w) ((H - 2 * 18) / h).

(** The single-plaque scenario: one plaque, no rotation, no shadow offset,
    no motif pads. *)
Definition scenarioPlaque : Rect := rectR 0 0 900 220.

Definition scenarioLayout : Layout :=
  mkLayout [scenarioPlaque] (Fin 0) (Fin (45 / 100))
           (mkPoint (Fin 0) (Fin 0))
           (mkPad (Fin 0) (Fin 0) (Fin 0) (Fin 0)).

(** ** The parallelogram of the specification *)

Module Spec.

(** Rotation of [(x, y)] about [(cx, cy)] by [ang]. *)
Definition rotateAbout (cx cy ang : R) (p : R * R) : R * R :=
  let dx := fst p - cx in
  let dy := snd p - cy in
  (cx + dx * cos ang - dy * sin ang, cy + dx * sin ang + dy * cos ang).

(** The rectangle with its top edge shifted by [+skew] and its bottom
    edge by [-skew]: top-left, top-right, bottom-right, bottom-left. *)
Definition skewed (x y w h skew : R) : list (R * R) :=
  [ (x + skew, y); (x + w + skew, y);
    (x + w - skew, y + h); (x - skew, y + h) ].

Definition corners (x y w h ang k : R) : list (R * R) :=
  map (rotateAbout (x + w / 2) (y + h / 2) ang) (skewed x y w h (h * k)).

End Spec.

(** ** Finite layouts *)

(** The corners of the plaque [b = (x, y, w, h)] moved by [(dx, dy)], as
    pairs of reals. *)
Definition cornersR (ang k dx dy : R) (b : R * R * R * R) : list (R * R) :=
  let '(x, y, w, h) := b in Spec.corners (x + dx) (y + dy) w h ang k.

(** The layout with the finite plaques [rs], angle [ang], skew factor [k],
    shadow offset [(sx, sy)] and pads [l], [r], [t], [b]. *)
Definition layoutR (rs : list (R * R * R * R)) (ang k sx sy l r t b : R) : Layout :=
  mkLayout (map rectR4 rs) (Fin ang) (Fin k) (mkPoint (Fin sx) (Fin sy))
           (mkPad (Fin l) (Fin r) (Fin t) (Fin b)).

(** ** The drawing collaborator

    The canvas of p5.js is not part of the repository.  It is modelled as
    a current transformation matrix, a drawing style, the stack of
    [push] and [pop], the vertices of the shape being built and the list
    of what has been drawn, in drawing order and in the coordinates of
    the canvas.  A call with a non-finite coordinate or angle is ignored,
    as an HTML canvas does. *)

Inductive P5Const : Type := MITER | SQUARE | LEFT | CENTER | CLOSE.

Record Color : Type := RGBA { red : Z; green : Z; blue : Z; alpha : Z }.

(** [color(g)] and [color(r, g, b)]. *)
Definition gray (g : Z) : Color := RGBA g g g 255.
Definition rgb (r g b : Z) : Color := RGBA r g b 255.

Record Style : Type := mkStyle {
  fillColor : option Color;
  strokeColor : option Color;
  weight : num;
  join : P5Const;
  cap : P5Const;
  hAlign : P5Const;
  vAlign : P5Const;
  fontSize : num
}.

(** The affine map [(x, y) |-> (a x + c y + e, b x + d y + f)]. *)
Record Matrix : Type := mkMatrix {
  ma : R; mb : R; mc : R; md : R; me : R; mf : R
}.

Definition mapply (M : Matrix) (p : R * R) : R * R :=
  (ma M * fst p + mc M * snd p + me M, mb M * fst p + md M * snd p + mf M).

(** [mmul M N] applies [N] first, then [M]. *)
Definition mmul (M N : Matrix) : Matrix :=
  mkMatrix (ma M * ma N + mc M * mb N) (mb M * ma N + md M * mb N)
           (ma M * mc N + mc M * md N) (mb M * mc N + md M * md N)
           (ma M * me N + mc M * mf N + me M)
           (mb M * me N + md M * mf N + mf M).

Definition midentity : Matrix := mkMatrix 1 0 0 1 0 0.

Inductive Prim : Type :=
| Background (c : Color)
| Shape (st : Style) (pts : list (R * R))
| Line (st : Style) (p q : R * R)
| Text (st : Style) (m : Matrix) (s : string) (pos : R * R).

Record Canvas : Type := mkCanvas {
  ctm : Matrix;
  style : Style;
  saved : list (Matrix * Style);
  verts : list (R * R);
  out : list Prim
}.

Definition cmd : Type := Canvas -> Canvas.

Definition skip : cmd := fun cv => cv.

Definition seq (a b : cmd) : cmd := fun cv => b (a cv).

Declare Scope cmd_scope.
Delimit Scope cmd_scope with cmd.
Bind Scope cmd_scope with cmd.
Notation "a ;; b" := (seq a b) (at level 61, right associativity) : cmd_scope.

(** [for (const x of l) body(x)]. *)
Fixpoint foreach {A : Type} (l : list A) (body : A -> cmd) : cmd :=
  match l with
  | [] => skip
  | x :: rest => (body x ;; foreach rest body)%cmd
  end.

(** Unary minus. *)
Definition negate (a : num) : num :=
  match a with
  | Fin x => Fin (- x)
  | PInf => NInf
  | NInf => PInf
  | NaN => NaN
  end.

Module P5.

Definition transform (N : Matrix) : cmd := fun cv =>
  mkCanvas (mmul (ctm cv) N) (style cv) (saved cv) (verts cv) (out cv).

Definition setStyle (f : Style -> Style) : cmd := fun cv =>
  mkCanvas (ctm cv) (f (style cv)) (saved cv) (verts cv) (out cv).

Definition emit (p : Canvas -> Prim) : cmd := fun cv =>
  mkCanvas (ctm cv) (style cv) (saved cv) (verts cv) (out cv ++ [p cv]).

Definition push : cmd := fun cv =>
  mkCanvas (ctm cv) (style cv) ((ctm cv, style cv) :: saved cv) (verts cv) (out cv).

Definition pop : cmd := fun cv =>
  match saved cv with
  | [] => cv
  | (m, st) :: rest => mkCanvas m st rest (verts cv) (out cv)
  end.

Definition translate (x y : num) : cmd :=
  match x, y with
  | Fin a, Fin b => transform (mkMatrix 1 0 0 1 a b)
  | _, _ => skip
  end.

Definition rotate (ang : num) : cmd :=
  match ang with
  | Fin a => transform (mkMatrix (cos a) (sin a) (- sin a) (cos a) 0 0)
  | _ => skip
  end.

Definition scale (s : num) : cmd :=
  match s with
  | Fin a => transform (mkMatrix a 0 0 a 0 0)
  | _ => skip
  end.

Definition shearX (ang : num) : cmd :=
  match ang with
  | Fin a => transform (mkMatrix 1 0 (tan a) 1 0 0)
  | _ => skip
  end.

Definition fill (c : Color) : cmd :=
  setStyle (fun s => mkStyle (Some c) (strokeColor s) (weight s) (join s) (cap s)
                             (hAlign s) (vAlign s) (fontSize s)).

Definition noFill : cmd :=
  setStyle (fun s => mkStyle None (strokeColor s) (weight s) (join s) (cap s)
                             (hAlign s) (vAlign s) (fontSize s)).

Definition stroke (c : Color) : cmd :=
  setStyle (fun s => mkStyle (fillColor s) (Some c) (weight s) (join s) (cap s)
                             (hAlign s) (vAlign s) (fontSize s)).

Definition noStroke : cmd :=
  setStyle (fun s => mkStyle (fillColor s) None (weight s) (join s) (cap s)
                             (hAlign s) (vAlign s) (fontSize s)).

Definition strokeWeight (w : num) : cmd :=
  setStyle (fun s => mkStyle (fillColor s) (strokeColor s) w (join s) (cap s)
                             (hAlign s) (vAlign s) (fontSize s)).

Definition strokeJoin (j : P5Const) : cmd :=
  setStyle (fun s => mkStyle (fillColor s) (strokeColor s) (weight s) j (cap s)
                             (hAlign s) (vAlign s) (fontSize s)).

Definition strokeCap (c : P5Const) : cmd :=
  setStyle (fun s => mkStyle (fillColor s) (strokeColor s) (weight s) (join s) c
                             (hAlign s) (vAlign s) (fontSize s)).

Definition textAlign (h v : P5Const) : cmd :=
  setStyle (fun s => mkStyle (fillColor s) (strokeColor s) (weight s) (join s) (cap s)
                             h v (fontSize s)).

Definition textSize (z : num) : cmd :=
  setStyle (fun s => mkStyle (fillColor s) (strokeColor s) (weight s) (join s) (cap s)
                             (hAlign s) (vAlign s) z).

Definition background (c : Color) : cmd := emit (fun _ => Background c).

Definition beginShape : cmd := fun cv =>
  mkCanvas (ctm cv) (style cv) (saved cv) [] (out cv).

Definition vertex (x y : num) : cmd :=
  match x, y with
  | Fin a, Fin b => fun cv =>
      mkCanvas (ctm cv) (style cv) (saved cv) (verts cv ++ [(a, b)]) (out cv)
  | _, _ => skip
  end.

(** [endShape(CLOSE)]: the collected vertices, through the current
    matrix, as one closed shape. *)
Definition endShape (mode : P5Const) : cmd :=
  emit (fun cv => Shape (style cv) (map (mapply (ctm cv)) (verts cv))).

Definition line (x1 y1 x2 y2 : num) : cmd :=
  match x1, y1, x2, y2 with
  | Fin a, Fin b, Fin c, Fin d =>
      emit (fun cv => Line (style cv) (mapply (ctm cv) (a, b)) (mapply (ctm cv) (c, d)))
  | _, _, _, _ => skip
  end.

Definition text (s : string) (x y : num) : cmd :=
  match x, y with
  | Fin a, Fin b => emit (fun cv => Text (style cv) (ctm cv) s (a, b))
  | _, _ => skip
  end.

(** [lerp(start, stop, amt)]. *)
Definition lerp (start stop amt : num) : num := (amt * (stop - start) + start)%num.

End P5.

(** ** The drawing routines of the sketch *)

Module Sketch.

Record Theme : Type := mkTheme {
  ink : Color; white : Color; cool : Color; warm : Color; warm2 : Color;
  shadow : Color; stripeCool : Color; stripeWarm : Color
}.

Record Stripe : Type := mkStripe { st_c : Color; st_y : num; st_h : num }.

Record PlaqueOpt : Type := mkPlaqueOpt {
  po_borderColor : Color;
  po_borderWeight : num;
  po_shadowOff : Point;
  po_stripes : option (list Stripe);
  po_skewK : num
}.

Record WordOpt : Type := mkWordOpt {
  wo_size : num; wo_tracking : num; wo_underline : bool; wo_textShearX : num
}.

Record BadgeOpt : Type := mkBadgeOpt {
  bo_shadowOff : Point; bo_borderWeight : num; bo_skewK : num
}.

Record SpeedLine : Type := mkSpeedLine {
  ln_y : num; ln_w : num; ln_sw : num; ln_c : Color
}.

Section Routines.

(** [textWidth]: the width of a string in the current font and size. *)
Variable textWidth : Style -> string -> num.

Definition rotateAroundCenter (w h ang : num) : cmd :=
  (P5.translate (w / Fin 2) (h / Fin 2) ;;
   P5.rotate ang ;;
   P5.translate (negate w / Fin 2) (negate h / Fin 2))%cmd.

Definition drawParallelogram (x y w h skew : num) : cmd :=
  (P5.beginShape ;;
   P5.vertex (x + skew) y ;;
   P5.vertex (x + w + skew) y ;;
   P5.vertex (x + w - skew) (y + h) ;;
   P5.vertex (x - skew) (y + h) ;;
   P5.endShape CLOSE)%cmd.

Definition drawParallelogramOutline (x y w h skew : num) : cmd :=
  (P5.beginShape ;;
   P5.vertex (x + skew) y ;;
   P5.vertex (x + w + skew) y ;;
   P5.vertex (x + w - skew) (y + h) ;;
   P5.vertex (x - skew) (y + h) ;;
   P5.endShape CLOSE)%cmd.

(** The first loop of [drawTrackedText]: the width of the string with
    [tracking] between its characters. *)
Fixpoint trackedTotal (tw : string -> num) (str : string) (tracking total : num)
  : num :=
  match str with
  | EmptyString => total
  | String ch rest =>
      let total := (total + tw (String ch EmptyString))%num in
      let total :=
        match rest with
        | EmptyString => total
        | String _ _ => (total + tracking)%num
        end in
      trackedTotal tw rest tracking total
  end.

(** The second loop of [drawTrackedText]. *)
Fixpoint trackedGlyphs (str : string) (x cy tracking : num) : cmd :=
  match str with
  | EmptyString => skip
  | String c rest =>
      let ch := String c EmptyString in
      (P5.shearX (Fin (- (1 / 10))) ;;
       P5.text ch x cy ;;
       fun cv =>
         trackedGlyphs rest (x + (textWidth (style cv) ch + tracking))%num
                       cy tracking cv)%cmd
  end.

Definition drawTrackedText (str : string) (cx cy tracking : num) : cmd :=
  (P5.textAlign LEFT CENTER ;;
   fun cv =>
     let total := trackedTotal (textWidth (style cv)) str tracking (Fin 0) in
     let x := (cx - total / Fin 2)%num in
     trackedGlyphs str x cy tracking cv)%cmd.

Definition drawPlaque (box : Rect) (ang : num) (theme : Theme) (opt : PlaqueOpt)
  : cmd :=
  let skew := (rh box * po_skewK opt)%num in
  ((* Shadow *)
   P5.push ;;
   P5.translate (rx box + px (po_shadowOff opt)) (ry box + py (po_shadowOff opt)) ;;
   rotateAroundCenter (rw box) (rh box) ang ;;
   P5.noStroke ;;
   P5.fill (shadow theme) ;;
   drawParallelogram (Fin 0) (Fin 0) (rw box) (rh box) skew ;;
   P5.pop ;;
   (* Main *)
   P5.push ;;
   P5.translate (rx box) (ry box) ;;
   rotateAroundCenter (rw box) (rh box) ang ;;
   P5.noStroke ;;
   P5.fill (ink theme) ;;
   drawParallelogram (Fin 0) (Fin 0) (rw box) (rh box) skew ;;
   (* Stripes *)
   match po_stripes opt with
   | Some stripes =>
       foreach stripes (fun st =>
         let sy := (rh box * st_y st)%num in
         let sh := (rh box * st_h st)%num in
         P5.fill (st_c st) ;;
         drawParallelogram (Fin 0) (sy - sh / Fin 2) (rw box) sh skew)
   | None => skip
   end ;;
   (* Border accent *)
   P5.noFill ;;
   P5.stroke (po_borderColor opt) ;;
   P5.strokeWeight (po_borderWeight opt) ;;
   P5.strokeJoin MITER ;;
   P5.strokeCap SQUARE ;;
   drawParallelogramOutline (Fin 0) (Fin 0) (rw box) (rh box) skew ;;
   P5.pop)%cmd.

Definition drawWordInPlaque (word : string) (box : Rect) (ang : num)
    (theme : Theme) (opt : WordOpt) : cmd :=
  let cx := (rw box * Fin (52 / 100))%num in
  let cy := (rh box * Fin (58 / 100))%num in
  (P5.push ;;
   P5.translate (rx box) (ry box) ;;
   rotateAroundCenter (rw box) (rh box) ang ;;
   P5.shearX (wo_textShearX opt) ;;
   P5.textSize (wo_size opt) ;;
   (* Shadow *)
   P5.noStroke ;;
   P5.fill (RGBA 0 0 0 90) ;;
   drawTrackedText word (cx + Fin 6) (cy + Fin 6) (wo_tracking opt) ;;
   (* Main *)
   P5.fill (white theme) ;;
   drawTrackedText word cx cy (wo_tracking opt) ;;
   (* Underline *)
   (if wo_underline opt then
      let uw := (rw box * Fin (30 / 100))%num in
      let uy := (cy + wo_size opt * Fin (44 / 100))%num in
      P5.stroke (white theme) ;;
      P5.strokeWeight (Fin 10) ;;
      P5.strokeCap SQUARE ;;
      P5.line (cx - uw / Fin 2) uy (cx + uw / Fin 2) uy
    else skip) ;;
   P5.pop)%cmd.

Definition drawAmpBadgeBetween (steepBox fastBox : Rect) (ang : num)
    (theme : Theme) (opt : BadgeOpt) : cmd :=
  let midX :=
    P5.lerp (rx steepBox + rw steepBox * Fin (26 / 100))%num
            (rx fastBox + rw fastBox * Fin (36 / 100))%num (Fin (5 / 10)) in
  let midY :=
    P5.lerp (ry steepBox + rh steepBox * Fin (29 / 100))%num
            (ry fastBox + rh fastBox * Fin (16 / 100))%num (Fin (5 / 10)) in
  let w := Fin 170 in
  let h := Fin 140 in
  let skew := (h * bo_skewK opt)%num in
  ((* Shadow *)
   P5.push ;;
   P5.translate (midX + px (bo_shadowOff opt) * Fin (7 / 10))
                (midY + py (bo_shadowOff opt) * Fin (7 / 10)) ;;
   rotateAroundCenter w h ang ;;
   P5.noStroke ;;
   P5.fill (shadow theme) ;;
   drawParallelogram (Fin 0) (Fin 0) w h skew ;;
   P5.pop ;;
   (* Badge *)
   P5.push ;;
   P5.translate midX midY ;;
   rotateAroundCenter w h ang ;;
   (* Plate *)
   P5.noStroke ;;
   P5.fill (ink theme) ;;
   drawParallelogram (Fin 0) (Fin 0) w h skew ;;
   (* Outline *)
   P5.noFill ;;
   P5.stroke (white theme) ;;
   P5.strokeWeight (bo_borderWeight opt) ;;
   P5.strokeJoin MITER ;;
   P5.strokeCap SQUARE ;;
   drawParallelogramOutline (Fin 0) (Fin 0) w h skew ;;
   (* Ampersand *)
   P5.noStroke ;;
   P5.fill (white theme) ;;
   P5.textAlign CENTER CENTER ;;
   P5.textSize (Fin 108) ;;
   P5.shearX (Fin (- (5 / 10))) ;;
   P5.text "&" (w * Fin (52 / 100)) (h * Fin (56 / 100)) ;;
   (* Angular notch *)
   P5.fill (white theme) ;;
   P5.noStroke ;;
   P5.beginShape ;;
   P5.vertex (w * Fin (62 / 100)) (h * Fin (16 / 100)) ;;
   P5.vertex (w * Fin (78 / 100)) (h * Fin (25 / 100)) ;;
   P5.vertex (w * Fin (64 / 100)) (h * Fin (40 / 100)) ;;
   P5.endShape CLOSE ;;
   P5.pop)%cmd.

Definition drawMountainHint (steepBox : Rect) (ang : num) (theme : Theme) : cmd :=
  let mx := (rx steepBox + rw steepBox * Fin (28 / 100))%num in
  let my := (ry steepBox - Fin 55)%num in
  let mw := Fin 260 in
  let mh := Fin 170 in
  (P5.push ;;
   P5.translate mx my ;;
   P5.rotate ang ;;
   P5.noStroke ;;
   P5.fill (cool theme) ;;
   P5.beginShape ;;
   P5.vertex (Fin 0) mh ;;
   P5.vertex (mw * Fin (52 / 100)) (Fin 0) ;;
   P5.vertex mw mh ;;
   P5.endShape CLOSE ;;
   P5.fill (gray 255) ;;
   P5.beginShape ;;
   P5.vertex (mw * Fin (18 / 100)) mh ;;
   P5.vertex (mw * Fin (52 / 100)) (mh * Fin (25 / 100)) ;;
   P5.vertex (mw * Fin (84 / 100)) mh ;;
   P5.endShape CLOSE ;;
   P5.fill (white theme) ;;
   P5.beginShape ;;
   P5.vertex (mw * Fin (44 / 100)) (mh * Fin (33 / 100)) ;;
   P5.vertex (mw * Fin (52 / 100)) (Fin 0) ;;
   P5.vertex (mw * Fin (60 / 100)) (mh * Fin (33 / 100)) ;;
   P5.vertex (mw * Fin (52 / 100)) (mh * Fin (22 / 100)) ;;
   P5.endShape CLOSE ;;
   P5.pop)%cmd.

Definition drawSpeedLines (fastBox : Rect) (ang : num) (theme : Theme) : cmd :=
  let baseX := (rx fastBox - Fin 220)%num in
  let baseY := (ry fastBox + rh fastBox * Fin (58 / 100))%num in
  let lines :=
    [ mkSpeedLine (Fin (-70)) (Fin 650) (Fin 16) (warm theme);
      mkSpeedLine (Fin (-20)) (Fin 780) (Fin 14) (warm2 theme);
      mkSpeedLine (Fin 30) (Fin 700) (Fin 14) (warm theme) ] in
  (P5.push ;;
   P5.translate baseX baseY ;;
   P5.rotate ang ;;
   foreach lines (fun ln =>
     P5.stroke (ln_c ln) ;;
     P5.strokeWeight (ln_sw ln) ;;
     P5.strokeCap SQUARE ;;
     P5.line (Fin 0) (ln_y ln) (ln_w ln) (ln_y ln) ;;
     (* Minimal break *)
     P5.stroke (gray 255) ;;
     P5.strokeWeight (ln_sw ln + Fin 6) ;;
     P5.line (ln_w ln * Fin (46 / 100)) (ln_y ln) (ln_w ln * Fin (64 / 100)) (ln_y ln)) ;;
   P5.pop)%cmd.

Definition theme : Theme :=
  mkTheme (rgb 12 16 20) (gray 255) (rgb 0 175 170) (rgb 255 85 40)
          (rgb 255 180 0) (RGBA 0 0 0 35) (RGBA 0 175 170 45)
          (RGBA 255 130 80 35).

Definition borderW : num := Fin 10.

(** What [draw] draws after [scale(s)] and before the closing [pop()]. *)
Definition drawBody : cmd :=
  let L := drawLayout in
  ((* Motifs behind *)
   drawMountainHint steep (slant L) theme ;;
   drawSpeedLines fast (slant L) theme ;;
   (* Plaques *)
   drawPlaque steep (slant L) theme
     (mkPlaqueOpt (cool theme) borderW (shadowOff L)
        (Some [mkStripe (stripeCool theme) (Fin (52 / 100)) (Fin (18 / 100))])
        (skewK L)) ;;
   drawPlaque fast (slant L) theme
     (mkPlaqueOpt (warm theme) borderW (shadowOff L)
        (Some [mkStripe (stripeWarm theme) (Fin (55 / 100)) (Fin (18 / 100))])
        (skewK L)) ;;
   (* Ampersand badge *)
   drawAmpBadgeBetween steep fast (slant L) theme
     (mkBadgeOpt (shadowOff L) (borderW * Fin (85 / 100))%num (skewK L)) ;;
   (* Text *)
   drawWordInPlaque "STEEP" steep (slant L) theme
     (mkWordOpt (Fin 170) (Fin 8) true (Fin (- (25 / 100)))) ;;
   drawWordInPlaque "FAST" fast (slant L) theme
     (mkWordOpt (Fin 170) (Fin 10) false (Fin (- (20 / 100)))))%cmd.

(** [draw] for a viewport [width] x [height]: the background, the fit
    computed by the auto-fit part, and the drawing under it. *)
Definition draw (width height : num) : cmd :=
  let t := autoFit drawLayout width height in
  (P5.background (gray 255) ;;
   P5.push ;;
   P5.translate (offsetX t) (offsetY t) ;;
   P5.scale (scale t) ;;
   drawBody ;;
   P5.pop)%cmd.

End Routines.

End Sketch.

(** ** Drawing under a transformation *)

(** What has been drawn, seen through [M]. *)
Definition prim_map (M : Matrix) (p : Prim) : Prim :=
  match p with
  | Background c => Background c
  | Shape st pts => Shape st (map (mapply M) pts)
  | Line st p q => Line st (mapply M p) (mapply M q)
  | Text st m s pos => Text st (mmul M m) s pos
  end.

(** The canvas [cv] placed under [M], on top of the stack [sv] and after
    the drawing [o]. *)
Definition embed (M : Matrix) (sv : list (Matrix * Style)) (o : list Prim)
    (cv : Canvas) : Canvas :=
  mkCanvas (mmul M (ctm cv)) (style cv) sv (verts cv)
           (o ++ map (prim_map M) (out cv)).

(** The canvas [cv] with the identity matrix, an empty stack and nothing
    drawn. *)
Definition local (cv : Canvas) : Canvas :=
  mkCanvas midentity (style cv) [] (verts cv) [].

(** [r] neither pushes nor pops, and draws relative to the current
    matrix. *)
Definition Natural (r : cmd) : Prop :=
  forall M sv o cv, r (embed M sv o cv) = embed M sv o (r cv).

(** [r] gives back the matrix, the style and the stack it was given, and
    draws relative to the current matrix. *)
Definition Balanced (r : cmd) : Prop :=
  forall cv,
    r cv = mkCanvas (ctm cv) (style cv) (saved cv) (verts (r (local cv)))
                    (out cv ++ map (prim_map (ctm cv)) (out (r (local cv)))).

(** [r] is the rest of a [push] block: calls that neither push nor pop,
    the closing [pop], and balanced calls after it. *)
Definition Block (r : cmd) : Prop :=
  exists f rest : cmd,
    (forall cv, r cv = rest (P5.pop (f cv))) /\ Natural f /\ Balanced rest.

(** The points of a shape or a line; a background and a text have none. *)
Definition prim_points (p : Prim) : list (R * R) :=
  match p with
  | Shape _ pts => pts
  | Line _ p q => [p; q]
  | Background _ | Text _ _ _ _ => []
  end.

(** [translate(ox, oy); scale(s)] as a matrix. *)
Definition fitMatrix (s ox oy : R) : Matrix := mkMatrix s 0 0 s ox oy.

(** The horizontal shear by [k]. *)
Definition shearMatrix (k : R) : Matrix := mkMatrix 1 0 k 1 0 0.

(** ** Where the drawing lands *)

(** Every point of every shape and line of [ps] satisfies [P]. *)
Definition prims_within (P : R * R -> Prop) (ps : list Prim) : Prop :=
  Forall (fun p => Forall P (prim_points p)) ps.

(** Inside the margins of a viewport [W] x [H]. *)
Definition insideMargins (W H : R) (q : R * R) : Prop :=
  18 <= fst q <= W - 18 /\ 18 <= snd q <= H - 18.

(** A design-space rectangle that holds the whole composition. *)
Definition designBox (q : R * R) : Prop :=
  0 <= fst q <= 1300 /\ 0 <= snd q <= 700.

(** The canvas at the start of a frame: identity matrix, empty stack,
    nothing drawn. *)
Definition blank (st : Style) : Canvas := mkCanvas midentity st [] [] [].

(** ** Tracked text *)

(** A drawn primitive is a text. *)
Definition is_text (p : Prim) : Prop :=
  match p with
  | Text _ _ _ _ => True
  | _ => False
  end.

(** The string of a text and the height of its anchor. *)
Definition text_glyph (p : Prim) : option (string * R) :=
  match p with
  | Text _ _ s pos => Some (s, snd pos)
  | _ => None
  end.

(** The characters of a string, [str[0]], [str[1]], ... *)
Fixpoint chars (str : string) : list string :=
  match str with
  | EmptyString => []
  | String c rest => String c EmptyString :: chars rest
  end.

(** ** Rounded arithmetic *)

(** The exact model above answers what the formulas of the sketch compute
    before rounding.  JavaScript evaluates them in binary64: every finite
    result is rounded to a nearby double, or to an infinity when it is too
    large.  [Rounded] reads the same source with a rounding after every
    arithmetic operation; [Math.min] and [Math.max] do not round. *)

Module Rounded.

(** The order of the extended reals; [NaN] is not ordered. *)
Definition le (a b : num) : Prop :=
  match a, b with
  | NaN, _ | _, NaN => False
  | NInf, _ | _, PInf => True
  | Fin x, Fin y => x <= y
  | _, _ => False
  end.

(** A rounding to nearest: [rnd x] is the number that stands for the real
    result [x].  A finite [rnd x] is off by at most [roundoff * |x|], or by
    at most [underflow] when it is subnormal; rounding keeps the order,
    gives the infinities only where the result leaves the range, leaves
    the numbers of the format unchanged, and has the integers up to [2^53]
    among them.  For binary64, [roundoff = 2^-53] and
    [underflow = 2^-1075]. *)
Record Rounding : Type := mkRounding {
  rnd : R -> num;
  roundoff : R;
  underflow : R;
  roundoff_range : 0 <= roundoff <= 1 / 16;
  underflow_range : 0 <= underflow;
  rnd_accurate :
    forall x r, rnd x = Fin r -> Rabs (r - x) <= roundoff * Rabs x + underflow;
  rnd_monotone : forall x y, x <= y -> le (rnd x) (rnd y);
  rnd_idempotent : forall x r, rnd x = Fin r -> rnd r = Fin r;
  rnd_integer :
    forall n : Z, (Z.abs n <= 2 ^ 53)%Z -> rnd (IZR n) = Fin (IZR n)
}.

(** The rounding that changes nothing: exact arithmetic. *)
Definition exact : Rounding.
Proof.
  refine (mkRounding Fin 0 0 _ _ _ _ _ _).
  - lra.
  - lra.
  - intros x r H. injection H as <-.
    replace (x - x) with 0 by ring. rewrite Rabs_R0. lra.
  - intros x y H. exact H.
  - intros x r H. injection H as <-. reflexivity.
  - reflexivity.
Defined.

Section Arithmetic.

Variable F : Rounding.

(** [Math.cos] and [Math.sin] belong to the host: on a finite angle they
    return the doubles [cosH ang] and [sinH ang]. *)
Variables cosH sinH : R -> R.

(** The numbers of the format. *)
Definition representable (x : R) : Prop := rnd F x = Fin x.

Definition round (v : num) : num :=
  match v with
  | Fin r => rnd F r
  | _ => v
  end.

Definition add (a b : num) : num := round (Num.add a b).
Definition sub (a b : num) : num := round (Num.sub a b).
Definition mul (a b : num) : num := round (Num.mul a b).
Definition div (a b : num) : num := round (Num.div a b).

Definition Math_cos (a : num) : num :=
  match a with
  | Fin x => Fin (cosH x)
  | _ => NaN
  end.

Definition Math_sin (a : num) : num :=
  match a with
  | Fin x => Fin (sinH x)
  | _ => NaN
  end.

Definition offsetRect (r : Rect) (dx dy : num) : Rect :=
  mkRect (add (rx r) dx) (add (ry r) dy) (rw r) (rh r).

Definition plaqueCorners (box : Rect) (ang skewK : num) : list Point :=
  let skew := mul (rh box) skewK in
  let pts :=
    [ mkPoint (add (rx box) skew) (ry box);
      mkPoint (add (add (rx box) (rw box)) skew) (ry box);
      mkPoint (sub (add (rx box) (rw box)) skew) (add (ry box) (rh box));
      mkPoint (sub (rx box) skew) (add (ry box) (rh box)) ] in
  let cx := add (rx box) (div (rw box) (Fin 2)) in
  let cy := add (ry box) (div (rh box) (Fin 2)) in
  let c := Math_cos ang in
  let s := Math_sin ang in
  map (fun p =>
         let dx := sub (px p) cx in
         let dy := sub (py p) cy in
         mkPoint (sub (add cx (mul dx c)) (mul dy s))
                 (add (add cy (mul dx s)) (mul dy c)))
      pts.

Definition aabbFromPoints (points : list Point) : AABB :=
  let '(mnX, mnY, mxX, mxY) := aabbLoop points PInf PInf NInf NInf in
  mkAABB mnX mnY mxX mxY (sub mxX mnX) (sub mxY mnY).

Definition fitPoints (L : Layout) : list Point :=
  flat_map (fun b => plaqueCorners b (slant L) (skewK L)) (plaques L)
  ++ flat_map
       (fun b =>
          plaqueCorners (offsetRect b (px (shadowOff L)) (py (shadowOff L)))
                        (slant L) (skewK L))
       (plaques L).

Definition inflate (bb : AABB) (pad : Pad) : AABB :=
  let mnX := sub (minX bb) (pad_left pad) in
  let mxX := add (maxX bb) (pad_right pad) in
  let mnY := sub (minY bb) (pad_top pad) in
  let mxY := add (maxY bb) (pad_bottom pad) in
  mkAABB mnX mnY mxX mxY (sub mxX mnX) (sub mxY mnY).

Definition inflatedBBox (L : Layout) : AABB :=
  inflate (aabbFromPoints (fitPoints L)) (motifPad L).

Definition fitTransform (bb : AABB) (width height : num) : Fit :=
  let s :=
    Num.Math_min (div (sub width (mul (Fin 2) padPx)) (bw bb))
                 (div (sub height (mul (Fin 2) padPx)) (bh bb)) in
  let ox := sub (div (sub width (mul (bw bb) s)) (Fin 2)) (mul (minX bb) s) in
  let oy := sub (div (sub height (mul (bh bb) s)) (Fin 2)) (mul (minY bb) s) in
  mkFit s ox oy.

Definition autoFit (L : Layout) (width height : num) : Fit :=
  fitTransform (inflatedBBox L) width height.

End Arithmetic.

End Rounded.

(** ** Binary64 *)

(** The same source once more, on the doubles themselves: the primitive
    floats are IEEE 754 binary64 with rounding to nearest even, as
    JavaScript numbers are.  This reading computes, and settles what the
    code returns on a given input. *)

Module Binary64.

Import PrimFloat.
Local Open Scope float_scope.

Record Rect : Type := mkRect { rx : float; ry : float; rw : float; rh : float }.

Record Point : Type := mkPoint { px : float; py : float }.

Record AABB : Type := mkAABB {
  minX : float; minY : float; maxX : float; maxY : float; bw : float; bh : float
}.

Record Pad : Type := mkPad {
  pad_left : float; pad_right : float; pad_top : float; pad_bottom : float
}.

Record Layout : Type := mkLayout {
  plaques : list Rect;
  slant : float;
  skewK : float;
  shadowOff : Point;
  motifPad : Pad
}.

Record Fit : Type := mkFit { scale : float; offsetX : float; offsetY : float }.

(** [Math.min] and [Math.max]: [NaN] is contagious and [-0] is below
    [+0]. *)
Definition Math_min (a b : float) : float :=
  if is_nan a || is_nan b then nan
  else if a <? b then a
  else if b <? a then b
  else if get_sign a then a else b.

Definition Math_max (a b : float) : float :=
  if is_nan a || is_nan b then nan
  else if a <? b then b
  else if b <? a then a
  else if get_sign a then b else a.

Definition offsetRect (r : Rect) (dx dy : float) : Rect :=
  mkRect (rx r + dx) (ry r + dy) (rw r) (rh r).

Section Host.

(** [Math.cos] and [Math.sin] belong to the host. *)
Variables Math_cos Math_sin : float -> float.

Definition plaqueCorners (box : Rect) (ang skewK : float) : list Point :=
  let skew := rh box * skewK in
  let pts :=
    [ mkPoint (rx box + skew) (ry box);
      mkPoint (rx box + rw box + skew) (ry box);
      mkPoint (rx box + rw box - skew) (ry box + rh box);
      mkPoint (rx box - skew) (ry box + rh box) ] in
  let cx := rx box + rw box / 2 in
  let cy := ry box + rh box / 2 in
  let c := Math_cos ang in
  let s := Math_sin ang in
  map (fun p =>
         let dx := px p - cx in
         let dy := py p - cy in
         mkPoint (cx + dx * c - dy * s) (cy + dx * s + dy * c))
      pts.

Fixpoint aabbLoop (points : list Point) (mnX mnY mxX mxY : float)
  : float * float * float * float :=
  match points with
  | [] => (mnX, mnY, mxX, mxY)
  | p :: rest =>
      aabbLoop rest
        (Math_min mnX (px p)) (Math_min mnY (py p))
        (Math_max mxX (px p)) (Math_max mxY (py p))
  end.

Definition aabbFromPoints (points : list Point) : AABB :=
  let '(mnX, mnY, mxX, mxY) :=
    aabbLoop points infinity infinity neg_infinity neg_infinity in
  mkAABB mnX mnY mxX mxY (mxX - mnX) (mxY - mnY).

Definition fitPoints (L : Layout) : list Point :=
  flat_map (fun b => plaqueCorners b (slant L) (skewK L)) (plaques L)
  ++ flat_map
       (fun b =>
          plaqueCorners (offsetRect b (px (shadowOff L)) (py (shadowOff L)))
                        (slant L) (skewK L))
       (plaques L).

Definition inflate (bb : AABB) (pad : Pad) : AABB :=
  let mnX := minX bb - pad_left pad in
  let mxX := maxX bb + pad_right pad in
  let mnY := minY bb - pad_top pad in
  let mxY := maxY bb + pad_bottom pad in
  mkAABB mnX mnY mxX mxY (mxX - mnX) (mxY - mnY).

Definition inflatedBBox (L : Layout) : AABB :=
  inflate (aabbFromPoints (fitPoints L)) (motifPad L).

Definition padPx : float := 18.

Definition fitTransform (bb : AABB) (width height : float) : Fit :=
  let s :=
    Math_min ((width - 2 * padPx) / bw bb) ((height - 2 * padPx) / bh bb) in
  let ox := (width - bw bb * s) / 2 - minX bb * s in
  let oy := (height - bh bb * s) / 2 - minY bb * s in
  mkFit s ox oy.

Definition autoFit (L : Layout) (width height : float) : Fit :=
  fitTransform (inflatedBBox L) width height.

End Host.

(** A host is right at zero when [Math.cos(0)] is [1] and [Math.sin(0)]
    is [0], as ECMAScript requires. *)
Definition rightAtZero (Math_cos Math_sin : float -> float) : Prop :=
  Math_cos 0 = 1 /\ Math_sin 0 = 0.

(** The rational number a finite double stands for ([0] for the
    infinities and [NaN]). *)
Definition toQ (f : float) : Q :=
  match FloatOps.Prim2SF f with
  | SpecFloat.S754_finite s m e =>
      let v := (inject_Z (Zpos m) * Qpower 2 e)%Q in
      if s then Qopp v else v
  | _ => 0%Q
  end.

(** Where [translate(ox, oy); scale(s)] sends an abscissa and an
    ordinate, in exact arithmetic on the doubles of the fit. *)
Definition imageX (t : Fit) (x : float) : Q :=
  (toQ x * toQ (scale t) + toQ (offsetX t))%Q.

Definition imageY (t : Fit) (y : float) : Q :=
  (toQ y * toQ (scale t) + toQ (offsetY t))%Q.

(** The exact average of the abscissas and of the ordinates of the
    points. *)
Definition centroid (ps : list Point) : Q * Q :=
  let n := inject_Z (Z.of_nat (length ps)) in
  ((fold_left Qplus (map (fun p => toQ (px p)) ps) 0 / n)%Q,
   (fold_left Qplus (map (fun p => toQ (py p)) ps) 0 / n)%Q).

(** The exact centre of a rectangle. *)
Definition centre (r : Rect) : Q * Q :=
  ((toQ (rx r) + toQ (rw r) / 2)%Q, (toQ (ry r) + toQ (rh r) / 2)%Q).

(** One plaque without rotation, shadow offset or motif pads. *)
Definition onePlaque (x y w h k : float) : Layout :=
  mkLayout [mkRect x y w h] 0 k (mkPoint 0 0) (mkPad 0 0 0 0).

End Binary64.

(** ** Ideal corners and closeness *)

(** The corners of a plaque in exact arithmetic, with [c] and [s] for the
    cosine and the sine of the angle. *)
Definition idealCorners (c s x y w h k : R) : list (R * R) :=
  let cx := x + w / 2 in
  let cy := y + h / 2 in
  map (fun p =>
         (cx + (fst p - cx) * c - (snd p - cy) * s,
          cy + (fst p - cx) * s + (snd p - cy) * c))
      (Spec.skewed x y w h (h * k)).

(** Two points are within [e] of each other on both axes. *)
Definition near (e : R) (p q : R * R) : Prop :=
  Rabs (fst p - fst q) <= e /\ Rabs (snd p - snd q) <= e.

(** The exact average of four points. *)
Definition average4 (p1 p2 p3 p4 : R * R) : R * R :=
  ((fst p1 + fst p2 + fst p3 + fst p4) / 4,
   (snd p1 + snd p2 + snd p3 + snd p4) / 4).

(** ** Arithmetic on finite numbers *)

Section FiniteArithmetic.

Lemma sgn_pos (x : R) : 0 < x -> Num.sgn x = Gt.
Proof.
  intros Hx. unfold Num.sgn.
  destruct (Rlt_dec x 0) as [Hn | _]; [lra |].
  destruct (Rlt_dec 0 x) as [_ | Hn]; [reflexivity | lra].
Qed.

Lemma sgn_neg (x : R) : x < 0 -> Num.sgn x = Lt.
Proof.
  intros Hx. unfold Num.sgn.
  destruct (Rlt_dec x 0) as [_ | Hn]; [reflexivity | lra].
Qed.

Lemma sgn_zero : Num.sgn 0 = Eq.
Proof.
  unfold Num.sgn.
  destruct (Rlt_dec 0 0) as [Hn | _]; [lra | reflexivity].
Qed.

Lemma div_Fin (x y : R) : y <> 0 -> (Fin x / Fin y)%num = Fin (x / y).
Proof.
  intros Hy. unfold Num.div.
  destruct (Rtotal_order y 0) as [Hlt | [Heq | Hgt]].
  - now rewrite (sgn_neg y Hlt).
  - contradiction.
  - now rewrite (sgn_pos y Hgt).
Qed.

Example div_one_by_zero : (Fin 1 / Fin 0)%num = PInf.
Proof.
  unfold Num.div. rewrite sgn_zero, (sgn_pos 1) by lra. reflexivity.
Qed.

Example div_zero_by_zero : (Fin 0 / Fin 0)%num = NaN.
Proof. unfold Num.div. rewrite sgn_zero. reflexivity. Qed.

Lemma div_Fin_2 (x : R) : (Fin x / Fin 2)%num = Fin (x / 2).
Proof. apply div_Fin. lra. Qed.

Lemma add_Fin (x y : R) : (Fin x + Fin y)%num = Fin (x + y).
Proof. reflexivity. Qed.

Lemma sub_Fin (x y : R) : (Fin x - Fin y)%num = Fin (x - y).
Proof. reflexivity. Qed.

Lemma mul_Fin (x y : R) : (Fin x * Fin y)%num = Fin (x * y).
Proof. reflexivity. Qed.

Lemma min_Fin (x y : R) : Num.Math_min (Fin x) (Fin y) = Fin (Rmin x y).
Proof. reflexivity. Qed.

Lemma max_Fin (x y : R) : Num.Math_max (Fin x) (Fin y) = Fin (Rmax x y).
Proof. reflexivity. Qed.

End FiniteArithmetic.

Create Rewrite HintDb fin.
#[export] Hint Rewrite add_Fin sub_Fin mul_Fin min_Fin max_Fin div_Fin_2 : fin.

(** Unfolds the records and list functions, then computes on finite
    numbers with the equations above. *)
Ltac fin_compute :=
  cbn [map flat_map app fold_left length fst snd
       rx ry rw rh px py minX minY maxX maxY bw bh
       pad_left pad_right pad_top pad_bottom
       plaques slant skewK shadowOff motifPad scale offsetX offsetY
       Num.Math_cos Num.Math_sin];
  autorewrite with fin.

(** ** The corners of a plaque *)

Lemma plaqueCorners_finite (x y w h ang k : R) :
  plaqueCorners (rectR x y w h) (Fin ang) (Fin k)
  = map pointR (Spec.corners x y w h ang k).
Proof.
  unfold plaqueCorners, rectR, Spec.corners, Spec.skewed, Spec.rotateAbout, pointR.
  fin_compute. reflexivity.
Qed.

Lemma pointR_eq (a b c d : R) :
  a = c -> b = d -> mkPoint (Fin a) (Fin b) = mkPoint (Fin c) (Fin d).
Proof. intros -> ->. reflexivity. Qed.

(** C2. On a finite rectangle, angle and skew factor, [plaqueCorners]
    returns exactly four points: the corners of the rectangle with its top
    edge shifted by [+skew] and its bottom edge by [-skew], where
    [skew = h * skewK], each rotated about [(x + w/2, y + h/2)] by
    [x' = cx + dx cos ang - dy sin ang], [y' = cy + dx sin ang + dy cos ang],
    in the order top-left, top-right, bottom-right, bottom-left.  The
    positivity of [w] and [h] plays no role. *)
Theorem plaqueCorners_is_rotated_parallelogram (x y w h ang k : R) :
  let skew := h * k in
  let cx := x + w / 2 in
  let cy := y + h / 2 in
  let rot := fun p : R * R =>
    (cx + (fst p - cx) * cos ang - (snd p - cy) * sin ang,
     cy + (fst p - cx) * sin ang + (snd p - cy) * cos ang) in
  length (plaqueCorners (rectR x y w h) (Fin ang) (Fin k)) = 4%nat /\
  plaqueCorners (rectR x y w h) (Fin ang) (Fin k)
  = [ pointR (rot (x + skew, y));
      pointR (rot (x + w + skew, y));
      pointR (rot (x + w - skew, y + h));
      pointR (rot (x - skew, y + h)) ] /\
  plaqueCorners (rectR x y w h) (Fin ang) (Fin k)
  = map pointR (Spec.corners x y w h ang k).
Proof.
  intros skew cx cy rot.
  rewrite plaqueCorners_finite.
  split; [reflexivity | split; reflexivity].
Qed.

(** ** The bounding box of a list of points *)

Section Folds.

(** Running minimum: below the seed, below every element, and equal to
    the seed or to an element. *)
Lemma fold_Rmin_spec (xs : list R) (a : R) :
  let m := fold_left Rmin xs a in
  m <= a /\ (forall x, In x xs -> m <= x) /\ (m = a \/ In m xs).
Proof.
  revert a. induction xs as [| x xs IH]; intros a; cbn [fold_left].
  - repeat split; [lra | intros x [] | now left].
  - destruct (IH (Rmin a x)) as (Hle & Hall & Hatt).
    pose proof (Rmin_l a x) as Hl. pose proof (Rmin_r a x) as Hr.
    repeat split.
    + lra.
    + intros z [<- | Hz]; [lra | now apply Hall].
    + destruct Hatt as [Heq | Hin]; [| right; now right].
      rewrite Heq. unfold Rmin. destruct (Rle_dec a x).
      * now left.
      * right. now left.
Qed.

Lemma fold_Rmax_spec (xs : list R) (a : R) :
  let m := fold_left Rmax xs a in
  a <= m /\ (forall x, In x xs -> x <= m) /\ (m = a \/ In m xs).
Proof.
  revert a. induction xs as [| x xs IH]; intros a; cbn [fold_left].
  - repeat split; [lra | intros x [] | now left].
  - destruct (IH (Rmax a x)) as (Hle & Hall & Hatt).
    pose proof (Rmax_l a x) as Hl. pose proof (Rmax_r a x) as Hr.
    repeat split.
    + lra.
    + intros z [<- | Hz]; [lra | now apply Hall].
    + destruct Hatt as [Heq | Hin]; [| right; now right].
      rewrite Heq. unfold Rmax. destruct (Rle_dec a x).
      * right. now left.
      * now left.
Qed.

End Folds.

(** On finite points and finite running bounds the loop is four
    independent folds. *)
Lemma aabbLoop_finite (ps : list (R * R)) (a b c d : R) :
  aabbLoop (map pointR ps) (Fin a) (Fin b) (Fin c) (Fin d)
  = (Fin (fold_left Rmin (map fst ps) a), Fin (fold_left Rmin (map snd ps) b),
     Fin (fold_left Rmax (map fst ps) c), Fin (fold_left Rmax (map snd ps) d)).
Proof.
  revert a b c d. induction ps as [| p ps IH]; intros a b c d.
  - reflexivity.
  - cbn [map aabbLoop fold_left pointR px py]. rewrite !min_Fin, !max_Fin.
    apply IH.
Qed.

(** The first point replaces the infinite seeds. *)
Lemma aabbFromPoints_cons (p : R * R) (ps : list (R * R)) :
  aabbFromPoints (map pointR (p :: ps))
  = aabbR (fold_left Rmin (map fst ps) (fst p))
          (fold_left Rmin (map snd ps) (snd p))
          (fold_left Rmax (map fst ps) (fst p))
          (fold_left Rmax (map snd ps) (snd p)).
Proof.
  unfold aabbFromPoints.
  cbn [map aabbLoop pointR px py Num.Math_min Num.Math_max].
  rewrite aabbLoop_finite. reflexivity.
Qed.

(** C6. On a non-empty list of finite points, [aabbFromPoints] returns
    finite bounds with [minX <= p.x <= maxX] and [minY <= p.y <= maxY] for
    every point [p] of the list, and each of the four bounds is the
    coordinate of some point of the list. *)
Theorem aabbFromPoints_bounds (ps : list (R * R)) :
  ps <> [] ->
  exists x0 y0 x1 y1 : R,
    aabbFromPoints (map pointR ps) = aabbR x0 y0 x1 y1 /\
    (forall p, In p ps -> x0 <= fst p <= x1 /\ y0 <= snd p <= y1) /\
    (exists p, In p ps /\ fst p = x0) /\
    (exists p, In p ps /\ fst p = x1) /\
    (exists p, In p ps /\ snd p = y0) /\
    (exists p, In p ps /\ snd p = y1).
Proof.
  destruct ps as [| p ps]; [congruence | intros _].
  destruct (fold_Rmin_spec (map fst ps) (fst p)) as (Hx0 & Ax0 & Ex0).
  destruct (fold_Rmin_spec (map snd ps) (snd p)) as (Hy0 & Ay0 & Ey0).
  destruct (fold_Rmax_spec (map fst ps) (fst p)) as (Hx1 & Ax1 & Ex1).
  destruct (fold_Rmax_spec (map snd ps) (snd p)) as (Hy1 & Ay1 & Ey1).
  do 4 eexists. split; [apply aabbFromPoints_cons |].
  assert (Hatt : forall (f : R * R -> R) (m : R),
             m = f p \/ In m (map f ps) ->
             exists q, In q (p :: ps) /\ f q = m).
  { intros f m [-> | Hin].
    - exists p. split; [now left | reflexivity].
    - apply in_map_iff in Hin. destruct Hin as (q & Hq & Hin).
      exists q. split; [now right | exact Hq]. }
  split; [| repeat split; apply Hatt; assumption].
  intros q [<- | Hq].
  - lra.
  - pose proof (Ax0 _ (in_map fst _ _ Hq)). pose proof (Ax1 _ (in_map fst _ _ Hq)).
    pose proof (Ay0 _ (in_map snd _ _ Hq)). pose proof (Ay1 _ (in_map snd _ _ Hq)).
    lra.
Qed.

Lemma aabbFromPoints_bounds_witness :
  exists x0 y0 x1 y1 : R,
    aabbFromPoints (map pointR [(3, 5); (-1, 7)]) = aabbR x0 y0 x1 y1 /\
    (forall p, In p [(3, 5); (-1, 7)] -> x0 <= fst p <= x1 /\ y0 <= snd p <= y1) /\
    (exists p, In p [(3, 5); (-1, 7)] /\ fst p = x0) /\
    (exists p, In p [(3, 5); (-1, 7)] /\ fst p = x1) /\
    (exists p, In p [(3, 5); (-1, 7)] /\ snd p = y0) /\
    (exists p, In p [(3, 5); (-1, 7)] /\ snd p = y1).
Proof.
  apply (aabbFromPoints_bounds [(3, 5); (-1, 7)]). discriminate.
Defined.

(** C7. On the empty list [aabbFromPoints] returns, without failing, the
    untouched seeds: [minX = minY = Infinity], [maxX = maxY = -Infinity]
    (and [w = h = -Infinity - Infinity = -Infinity]). *)
Theorem aabbFromPoints_empty :
  aabbFromPoints [] = mkAABB PInf PInf NInf NInf NInf NInf.
Proof. reflexivity. Qed.

(** ** The fit transform *)

Lemma fitTransform_finite (mnX mnY w h W H : R) (mxX mxY : num) :
  w <> 0 -> h <> 0 ->
  fitTransform (mkAABB (Fin mnX) (Fin mnY) mxX mxY (Fin w) (Fin h)) (Fin W) (Fin H)
  = fitR (scaleR w h W H)
         ((W - w * scaleR w h W H) / 2 - mnX * scaleR w h W H)
         ((H - h * scaleR w h W H) / 2 - mnY * scaleR w h W H).
Proof.
  intros Hw Hh. unfold fitTransform, padPx, fitR, scaleR. fin_compute.
  rewrite !div_Fin by assumption. fin_compute. reflexivity.
Qed.

(** With positive box sizes and a viewport wider and higher than twice the
    margin, the scale is positive, the scaled box fits between the
    margins, and it is tight on one axis. *)
Lemma scaleR_fits (w h W H : R) :
  w > 0 -> h > 0 -> W > 2 * 18 -> H > 2 * 18 ->
  let s := scaleR w h W H in
  0 < s /\ w * s <= W - 2 * 18 /\ h * s <= H - 2 * 18 /\
  (w * s = W - 2 * 18 \/ h * s = H - 2 * 18).
Proof.
  intros Hw Hh HW HH s.
  assert (Ha : w * ((W - 2 * 18) / w) = W - 2 * 18) by (field; lra).
  assert (Hb : h * ((H - 2 * 18) / h) = H - 2 * 18) by (field; lra).
  assert (Hpa : 0 < (W - 2 * 18) / w) by (apply Rdiv_lt_0_compat; lra).
  assert (Hpb : 0 < (H - 2 * 18) / h) by (apply Rdiv_lt_0_compat; lra).
  subst s. unfold scaleR, Rmin.
  destruct (Rle_dec ((W - 2 * 18) / w) ((H - 2 * 18) / h)) as [Hle | Hgt].
  - repeat split; [assumption | lra | | now left].
    rewrite <- Hb. apply Rmult_le_compat_l; lra.
  - repeat split; [assumption | | lra | now right].
    rewrite <- Ha. apply Rmult_le_compat_l; lra.
Qed.

(** C3. For a box with finite [minX], [minY] and positive [w], [h], and a
    finite viewport, the fit computes
    [s = min ((width - 2 padPx) / w, (height - 2 padPx) / h)],
    [offsetX = (width - w s) / 2 - minX s] and
    [offsetY = (height - h s) / 2 - minY s], with [padPx = 18]; so does
    the auto-fit of any layout whose inflated bounding box is that box. *)
Theorem fitTransform_formulas
    (mnX mnY w h W H : R) (mxX mxY : num) :
  w > 0 -> h > 0 ->
  let bb := mkAABB (Fin mnX) (Fin mnY) mxX mxY (Fin w) (Fin h) in
  let s := Rmin ((W - 2 * 18) / w) ((H - 2 * 18) / h) in
  let t := mkFit (Fin s)
                 (Fin ((W - w * s) / 2 - mnX * s))
                 (Fin ((H - h * s) / 2 - mnY * s)) in
  fitTransform bb (Fin W) (Fin H) = t /\
  forall L : Layout, inflatedBBox L = bb -> autoFit L (Fin W) (Fin H) = t.
Proof.
  intros Hw Hh bb s t.
  assert (Ht : fitTransform bb (Fin W) (Fin H) = t).
  { subst bb t s. rewrite fitTransform_finite by lra. reflexivity. }
  split; [exact Ht |].
  intros L HL. unfold autoFit. rewrite HL. exact Ht.
Qed.

Lemma fitTransform_formulas_witness :
  let bb := mkAABB (Fin (-99)) (Fin 0) (Fin 999) (Fin 220) (Fin 1098) (Fin 220) in
  let s := Rmin ((1000 - 2 * 18) / 1098) ((1000 - 2 * 18) / 220) in
  let t := mkFit (Fin s)
                 (Fin ((1000 - 1098 * s) / 2 - (-99) * s))
                 (Fin ((1000 - 220 * s) / 2 - 0 * s)) in
  fitTransform bb (Fin 1000) (Fin 1000) = t /\
  forall L : Layout, inflatedBBox L = bb -> autoFit L (Fin 1000) (Fin 1000) = t.
Proof.
  apply (fitTransform_formulas (-99) 0 1098 220 1000 1000 (Fin 999) (Fin 220)); lra.
Defined.

(** ** The single-plaque scenario *)

Section FoldValues.

Lemma fold_Rmin_eq (xs : list R) (a m : R) :
  In m (a :: xs) -> (forall x, In x (a :: xs) -> m <= x) ->
  fold_left Rmin xs a = m.
Proof.
  intros Hin Hall.
  destruct (fold_Rmin_spec xs a) as (Hle & Hbelow & Hatt).
  apply Rle_antisym.
  - destruct Hin as [<- | Hin]; [exact Hle | now apply Hbelow].
  - apply Hall. destruct Hatt as [-> | Hatt]; [now left | now right].
Qed.

Lemma fold_Rmax_eq (xs : list R) (a m : R) :
  In m (a :: xs) -> (forall x, In x (a :: xs) -> x <= m) ->
  fold_left Rmax xs a = m.
Proof.
  intros Hin Hall.
  destruct (fold_Rmax_spec xs a) as (Hle & Habove & Hatt).
  apply Rle_antisym.
  - apply Hall. destruct Hatt as [-> | Hatt]; [now left | now right].
  - destruct Hin as [<- | Hin]; [exact Hle | now apply Habove].
Qed.

End FoldValues.

(** Settles [fold_left Rmin xs a = m] and [fold_left Rmax xs a = m] for
    explicit lists of numerals. *)
Ltac fold_value :=
  first [apply fold_Rmin_eq | apply fold_Rmax_eq];
  [ cbn [In]; repeat first [left; lra | right]
  | let x := fresh "x" in
    let Hx := fresh "Hx" in
    intros x Hx; cbn [In] in Hx;
    repeat (destruct Hx as [<- | Hx]; [lra |]); contradiction ].

Ltac list_of_pairs :=
  repeat match goal with
         | |- _ :: _ = _ :: _ => f_equal
         | |- (_, _) = (_, _) => f_equal
         end;
  try lra.

Lemma scenario_corners :
  Spec.corners 0 0 900 220 0 (45 / 100)
  = [(99, 0); (999, 0); (801, 220); (-99, 220)].
Proof.
  unfold Spec.corners, Spec.skewed, Spec.rotateAbout.
  rewrite cos_0, sin_0. cbn [map fst snd]. list_of_pairs.
Qed.

Lemma scenario_shadow_corners :
  Spec.corners (0 + 0) (0 + 0) 900 220 0 (45 / 100)
  = [(99, 0); (999, 0); (801, 220); (-99, 220)].
Proof.
  unfold Spec.corners, Spec.skewed, Spec.rotateAbout.
  rewrite cos_0, sin_0. cbn [map fst snd]. list_of_pairs.
Qed.

Lemma scenario_bbox :
  aabbFromPoints (plaqueCorners scenarioPlaque (Fin 0) (Fin (45 / 100)))
  = aabbR (-99) 0 999 220.
Proof.
  unfold scenarioPlaque.
  rewrite plaqueCorners_finite, scenario_corners, aabbFromPoints_cons.
  cbn [map fst snd].
  replace (fold_left Rmin [999; 801; -99] 99) with (-99) by (symmetry; fold_value).
  replace (fold_left Rmin [0; 220; 220] 0) with 0 by (symmetry; fold_value).
  replace (fold_left Rmax [999; 801; -99] 99) with 999 by (symmetry; fold_value).
  replace (fold_left Rmax [0; 220; 220] 0) with 220 by (symmetry; fold_value).
  reflexivity.
Qed.

Lemma scenario_inflated_bbox :
  inflatedBBox scenarioLayout = aabbR (-99) 0 999 220.
Proof.
  unfold inflatedBBox, fitPoints, scenarioLayout, scenarioPlaque, offsetRect, rectR.
  fin_compute.
  change (mkRect (Fin 0) (Fin 0) (Fin 900) (Fin 220)) with (rectR 0 0 900 220).
  change (mkRect (Fin (0 + 0)) (Fin (0 + 0)) (Fin 900) (Fin 220))
    with (rectR (0 + 0) (0 + 0) 900 220).
  rewrite !plaqueCorners_finite, scenario_corners, scenario_shadow_corners.
  rewrite !app_nil_r, <- map_app. cbn [app].
  rewrite aabbFromPoints_cons. cbn [map fst snd].
  replace (fold_left Rmin [999; 801; -99; 99; 999; 801; -99] 99) with (-99)
    by (symmetry; fold_value).
  replace (fold_left Rmin [0; 220; 220; 0; 0; 220; 220] 0) with 0
    by (symmetry; fold_value).
  replace (fold_left Rmax [999; 801; -99; 99; 999; 801; -99] 99) with 999
    by (symmetry; fold_value).
  replace (fold_left Rmax [0; 220; 220; 0; 0; 220; 220] 0) with 220
    by (symmetry; fold_value).
  unfold inflate, aabbR. fin_compute.
  f_equal; f_equal; lra.
Qed.

(** C4, as stated, fails: the skew widens the box of the single plaque, so
    the bounding box is not [{0, 0, 900, 220}] and the scale is not
    [min ((1000 - 36) / 900, (1000 - 36) / 220)]. *)
Lemma scenario_claimed_values_fail :
  aabbFromPoints (plaqueCorners scenarioPlaque (Fin 0) (Fin (45 / 100)))
  <> aabbR 0 0 900 220 /\
  scale (autoFit scenarioLayout (Fin 1000) (Fin 1000))
  <> Fin (Rmin ((1000 - 36) / 900) ((1000 - 36) / 220)).
Proof.
  split.
  - rewrite scenario_bbox. unfold aabbR. intros Heq.
    injection Heq as Hx0 _. lra.
  - unfold autoFit. rewrite scenario_inflated_bbox. unfold aabbR.
    rewrite fitTransform_finite by lra.
    cbn [scale fitR]. unfold scaleR, Rmin.
    intros Heq. injection Heq as Heq. revert Heq.
    repeat destruct (Rle_dec _ _); lra.
Qed.

(** C4, amended.  For the single plaque [{0, 0, 900, 220}] with angle [0],
    skew factor [0.45], shadow offset [{0, 0}], zero pads, viewport
    [1000 x 1000] and [padPx = 18], [plaqueCorners] followed by
    [aabbFromPoints] yields the box [{-99, 0, 999, 220}] of width [1098];
    the scale is [min ((1000 - 36) / 1098, (1000 - 36) / 220) = 964 / 1098],
    which is [0.8780] to four decimal places, and the offsets are those of
    the centring formulas. *)
Theorem scenario_fit :
  aabbFromPoints (plaqueCorners scenarioPlaque (Fin 0) (Fin (45 / 100)))
  = aabbR (-99) 0 999 220 /\
  inflatedBBox scenarioLayout = aabbR (-99) 0 999 220 /\
  let s := Rmin ((1000 - 36) / 1098) ((1000 - 36) / 220) in
  autoFit scenarioLayout (Fin 1000) (Fin 1000)
  = fitR s ((1000 - 1098 * s) / 2 - (-99) * s) ((1000 - 220 * s) / 2 - 0 * s) /\
  s = 964 / 1098 /\
  87795 / 100000 <= s < 87805 / 100000.
Proof.
  split; [apply scenario_bbox |].
  split; [apply scenario_inflated_bbox |].
  intros s. split.
  - unfold autoFit. rewrite scenario_inflated_bbox. unfold aabbR.
    rewrite fitTransform_finite by lra.
    subst s. unfold scaleR.
    replace (999 - -99) with 1098 by lra.
    replace (220 - 0) with 220 by lra.
    replace (2 * 18) with 36 by lra.
    reflexivity.
  - assert (Hs : s = 964 / 1098).
    { subst s. rewrite Rmin_left by lra. lra. }
    split; [exact Hs | lra].
Qed.

(** ** The layout of [draw] *)

(** The inflated bounding box of the literals of [draw] is finite and at
    least as wide and as high as the sums of the motif pads. *)
Lemma draw_bbox :
  exists x0 y0 x1 y1 : R,
    inflatedBBox drawLayout = aabbR x0 y0 x1 y1 /\
    x1 - x0 >= 340 /\ y1 - y0 >= 310.
Proof.
  unfold inflatedBBox, fitPoints, drawLayout, steep, fast, offsetRect.
  fin_compute.
  repeat match goal with
         | |- context [mkRect (Fin ?x) (Fin ?y) (Fin ?w) (Fin ?h)] =>
             change (mkRect (Fin x) (Fin y) (Fin w) (Fin h)) with (rectR x y w h)
         end.
  rewrite !plaqueCorners_finite, !app_nil_r, <- !map_app.
  unfold Spec.corners at 1. unfold Spec.skewed at 1.
  rewrite (map_cons (Spec.rotateAbout _ _ _)). cbn [app].
  rewrite aabbFromPoints_cons.
  match goal with
  | |- context [aabbR (fold_left Rmin ?xs ?a) (fold_left Rmin ?ys ?b)
                      (fold_left Rmax ?xs ?a) (fold_left Rmax ?ys ?b)] =>
      destruct (fold_Rmin_spec xs a) as (Hx0 & _);
      destruct (fold_Rmax_spec xs a) as (Hx1 & _);
      destruct (fold_Rmin_spec ys b) as (Hy0 & _);
      destruct (fold_Rmax_spec ys b) as (Hy1 & _);
      exists (fold_left Rmin xs a - 220), (fold_left Rmin ys b - 170),
             (fold_left Rmax xs a + 120), (fold_left Rmax ys b + 140)
  end.
  split; [reflexivity | lra].
Qed.

(** In its intended range, a viewport wider and higher than twice the
    margin, [draw] computes a finite, positive scale. *)
Lemma draw_scale_positive (W H : R) :
  W > 2 * 18 -> H > 2 * 18 ->
  exists s : R, scale (draw (Fin W) (Fin H)) = Fin s /\ 0 < s.
Proof.
  intros HW HH.
  destruct draw_bbox as (x0 & y0 & x1 & y1 & Hbb & Hw & Hh).
  unfold draw, autoFit. rewrite Hbb. unfold aabbR.
  rewrite fitTransform_finite by lra.
  eexists. split; [reflexivity |].
  apply scaleR_fits; lra.
Qed.

(** C5, failing input.  For the positive viewport [20 x 20], [draw]
    computes a finite but negative scale; for [36 x 1000] the scale is
    zero. *)
Theorem draw_small_viewport_scale :
  (exists s : R, scale (draw (Fin 20) (Fin 20)) = Fin s /\ s < 0) /\
  scale (draw (Fin 36) (Fin 1000)) = Fin 0.
Proof.
  destruct draw_bbox as (x0 & y0 & x1 & y1 & Hbb & Hw & Hh).
  unfold draw, autoFit. rewrite Hbb. unfold aabbR.
  rewrite !fitTransform_finite by lra.
  cbn [scale fitR]. unfold scaleR.
  assert (Hiw : 0 < / (x1 - x0)) by (apply Rinv_0_lt_compat; lra).
  assert (Hih : 0 < / (y1 - y0)) by (apply Rinv_0_lt_compat; lra).
  split.
  - eexists. split; [reflexivity |].
    apply Rle_lt_trans with ((20 - 2 * 18) / (x1 - x0)); [apply Rmin_l |].
    unfold Rdiv. nra.
  - f_equal. rewrite Rmin_left; unfold Rdiv; nra.
Qed.

(** ** Further properties of the geometry helpers *)

Section MinMaxAlgebra.

Lemma Math_min_assoc (a b c : num) :
  Num.Math_min (Num.Math_min a b) c = Num.Math_min a (Num.Math_min b c).
Proof.
  destruct a, b, c; cbn; try reflexivity.
  f_equal. symmetry. apply Rmin_assoc.
Qed.

Lemma Math_max_assoc (a b c : num) :
  Num.Math_max (Num.Math_max a b) c = Num.Math_max a (Num.Math_max b c).
Proof.
  destruct a, b, c; cbn; try reflexivity.
  f_equal. symmetry. apply Rmax_assoc.
Qed.

Lemma Math_min_comm (a b : num) : Num.Math_min a b = Num.Math_min b a.
Proof.
  destruct a, b; cbn; try reflexivity.
  f_equal. apply Rmin_comm.
Qed.

Lemma Math_max_comm (a b : num) : Num.Math_max a b = Num.Math_max b a.
Proof.
  destruct a, b; cbn; try reflexivity.
  f_equal. apply Rmax_comm.
Qed.

Lemma Math_min_PInf (a : num) : Num.Math_min PInf a = a.
Proof. now destruct a. Qed.

Lemma Math_max_NInf (a : num) : Num.Math_max NInf a = a.
Proof. now destruct a. Qed.

End MinMaxAlgebra.

(** The running bounds fold the seeds into the bounds of the list taken
    alone. *)
Lemma aabbLoop_seeds (ps : list Point) (a b c d : num) :
  aabbLoop ps a b c d
  = let '(a', b', c', d') := aabbLoop ps PInf PInf NInf NInf in
    (Num.Math_min a a', Num.Math_min b b', Num.Math_max c c', Num.Math_max d d').
Proof.
  revert a b c d. induction ps as [| p ps IH]; intros a b c d.
  - cbn. now rewrite !(Math_min_comm _ PInf), !(Math_max_comm _ NInf),
      !Math_min_PInf, !Math_max_NInf.
  - cbn [aabbLoop]. rewrite IH. rewrite (IH (Num.Math_min PInf (px p))).
    destruct (aabbLoop ps PInf PInf NInf NInf) as [[[a' b'] c'] d'].
    rewrite !Math_min_PInf, !Math_max_NInf, !Math_min_assoc, !Math_max_assoc.
    reflexivity.
Qed.

(** X1. The box of a concatenation is the union of the two boxes: each
    bound is the [Math.min] or [Math.max] of the bounds of the parts.  It
    holds for all numbers, [NaN] and the infinities included, and for
    empty parts. *)
Theorem aabbFromPoints_app (ps qs : list Point) :
  let A := aabbFromPoints ps in
  let B := aabbFromPoints qs in
  let C := aabbFromPoints (ps ++ qs) in
  minX C = Num.Math_min (minX A) (minX B) /\
  minY C = Num.Math_min (minY A) (minY B) /\
  maxX C = Num.Math_max (maxX A) (maxX B) /\
  maxY C = Num.Math_max (maxY A) (maxY B) /\
  bw C = (maxX C - minX C)%num /\ bh C = (maxY C - minY C)%num.
Proof.
  assert (Happ : forall l1 l2 a b c d,
    aabbLoop (l1 ++ l2) a b c d
    = let '(a', b', c', d') := aabbLoop l1 a b c d in aabbLoop l2 a' b' c' d').
  { induction l1 as [| p l1 IH]; intros l2 a b c d; [reflexivity |].
    cbn [app aabbLoop]. apply IH. }
  unfold aabbFromPoints. rewrite Happ.
  destruct (aabbLoop ps PInf PInf NInf NInf) as [[[a b] c] d].
  rewrite aabbLoop_seeds.
  destruct (aabbLoop qs PInf PInf NInf NInf) as [[[a' b'] c'] d'].
  cbn. repeat split; reflexivity.
Qed.

Lemma aabbLoop_Permutation (ps qs : list Point) :
  Permutation ps qs ->
  forall a b c d, aabbLoop ps a b c d = aabbLoop qs a b c d.
Proof.
  intros Hp.
  induction Hp as [| p l l' _ IH | p q l | l l' l'' _ IH1 _ IH2];
    intros a b c d.
  - reflexivity.
  - cbn [aabbLoop]. apply IH.
  - cbn [aabbLoop].
    rewrite !Math_min_assoc, !Math_max_assoc.
    rewrite (Math_min_comm (px q)), (Math_min_comm (py q)),
      (Math_max_comm (px q)), (Math_max_comm (py q)).
    reflexivity.
  - now rewrite IH1.
Qed.

(** X2. The box does not depend on the order of the points: permuting the
    list leaves every field unchanged, for all numbers. *)
Theorem aabbFromPoints_Permutation (ps qs : list Point) :
  Permutation ps qs -> aabbFromPoints ps = aabbFromPoints qs.
Proof.
  intros Hp. unfold aabbFromPoints.
  now rewrite (aabbLoop_Permutation ps qs Hp).
Qed.

Lemma aabbFromPoints_Permutation_witness :
  aabbFromPoints [mkPoint (Fin 1) NaN; mkPoint PInf (Fin 2)]
  = aabbFromPoints [mkPoint PInf (Fin 2); mkPoint (Fin 1) NaN].
Proof.
  apply (aabbFromPoints_Permutation
           [mkPoint (Fin 1) NaN; mkPoint PInf (Fin 2)]
           [mkPoint PInf (Fin 2); mkPoint (Fin 1) NaN]).
  apply perm_swap.
Defined.

(** X3. Nothing validates the points: one [NaN] abscissa anywhere in the
    list makes [minX], [maxX] and [w] all [NaN]. *)
Theorem aabbFromPoints_NaN (ps : list Point) (p : Point) :
  In p ps -> px p = NaN ->
  minX (aabbFromPoints ps) = NaN /\
  maxX (aabbFromPoints ps) = NaN /\
  bw (aabbFromPoints ps) = NaN.
Proof.
  intros Hin Hnan.
  destruct (in_split _ _ Hin) as (l1 & l2 & ->).
  pose proof (Permutation_middle l1 l2 p) as Hperm.
  unfold aabbFromPoints.
  rewrite <- (aabbLoop_Permutation _ _ Hperm). cbn [aabbLoop]. rewrite Hnan, aabbLoop_seeds.
  destruct (aabbLoop (l1 ++ l2) PInf PInf NInf NInf) as [[[a b] c] d].
  cbn. repeat split; reflexivity.
Qed.

Lemma aabbFromPoints_NaN_witness :
  minX (aabbFromPoints [mkPoint (Fin 1) (Fin 2); mkPoint NaN (Fin 3)]) = NaN /\
  maxX (aabbFromPoints [mkPoint (Fin 1) (Fin 2); mkPoint NaN (Fin 3)]) = NaN /\
  bw (aabbFromPoints [mkPoint (Fin 1) (Fin 2); mkPoint NaN (Fin 3)]) = NaN.
Proof.
  apply (aabbFromPoints_NaN [mkPoint (Fin 1) (Fin 2); mkPoint NaN (Fin 3)]
                            (mkPoint NaN (Fin 3))).
  - right. left. reflexivity.
  - reflexivity.
Defined.

(** ** Further properties of the fit *)

Lemma plaqueCorners_rectR4 (ang k : R) (b : R * R * R * R) :
  plaqueCorners (rectR4 b) (Fin ang) (Fin k) = map pointR (cornersR ang k 0 0 b).
Proof.
  destruct b as [[[x y] w] h]. cbn [rectR4 cornersR].
  rewrite plaqueCorners_finite. replace (x + 0) with x by ring.
  replace (y + 0) with y by ring. reflexivity.
Qed.

Lemma plaqueCorners_rectR4_offset (ang k dx dy : R) (b : R * R * R * R) :
  plaqueCorners (offsetRect (rectR4 b) (Fin dx) (Fin dy)) (Fin ang) (Fin k)
  = map pointR (cornersR ang k dx dy b).
Proof.
  destruct b as [[[x y] w] h]. cbn [rectR4 cornersR].
  unfold offsetRect, rectR. fin_compute.
  apply (plaqueCorners_finite (x + dx) (y + dy) w h ang k).
Qed.

(** The point set of a finite layout, as pairs of reals. *)
Lemma fitPoints_layoutR (rs : list (R * R * R * R)) (ang k sx sy l r t b : R) :
  fitPoints (layoutR rs ang k sx sy l r t b)
  = map pointR (flat_map (cornersR ang k 0 0) rs
                ++ flat_map (cornersR ang k sx sy) rs).
Proof.
  unfold fitPoints, layoutR. fin_compute. rewrite map_app. f_equal.
  - induction rs as [| c rs IH]; [reflexivity |].
    cbn [map flat_map]. now rewrite map_app, IH, plaqueCorners_rectR4.
  - induction rs as [| c rs IH]; [reflexivity |].
    cbn [map flat_map]. now rewrite map_app, IH, plaqueCorners_rectR4_offset.
Qed.

(** A design-space point inside a finite box of positive size is sent
    inside the margins by the fit of that box. *)
Lemma fit_sends_box_inside (x0 y0 x1 y1 W H u v : R) :
  x1 - x0 > 0 -> y1 - y0 > 0 -> W > 2 * 18 -> H > 2 * 18 ->
  x0 <= u <= x1 -> y0 <= v <= y1 ->
  let s := scaleR (x1 - x0) (y1 - y0) W H in
  18 <= u * s + ((W - (x1 - x0) * s) / 2 - x0 * s) <= W - 18 /\
  18 <= v * s + ((H - (y1 - y0) * s) / 2 - y0 * s) <= H - 18.
Proof.
  intros Hw Hh HW HH Hu Hv s.
  destruct (scaleR_fits (x1 - x0) (y1 - y0) W H Hw Hh HW HH)
    as (Hs & Hfw & Hfh & _).
  fold s in Hs, Hfw, Hfh.
  assert (0 <= (u - x0) * s) by (apply Rmult_le_pos; lra).
  assert (0 <= (x1 - u) * s) by (apply Rmult_le_pos; lra).
  assert (0 <= (v - y0) * s) by (apply Rmult_le_pos; lra).
  assert (0 <= (y1 - v) * s) by (apply Rmult_le_pos; lra).
  lra.
Qed.

(** X10. The scale grows with the viewport: for a box of positive width
    and height, a viewport at least as wide and as high gives a scale at
    least as large. *)
Theorem fitTransform_scale_monotone (x0 y0 x1 y1 W H W' H' : R) :
  x1 - x0 > 0 -> y1 - y0 > 0 -> W <= W' -> H <= H' ->
  exists s s' : R,
    scale (fitTransform (aabbR x0 y0 x1 y1) (Fin W) (Fin H)) = Fin s /\
    scale (fitTransform (aabbR x0 y0 x1 y1) (Fin W') (Fin H')) = Fin s' /\
    s <= s'.
Proof.
  intros Hw Hh HW HH. unfold aabbR.
  rewrite !fitTransform_finite by lra.
  do 2 eexists. split; [reflexivity |]. split; [reflexivity |].
  unfold scaleR.
  assert (Hiw : 0 < / (x1 - x0)) by (apply Rinv_0_lt_compat; lra).
  assert (Hih : 0 < / (y1 - y0)) by (apply Rinv_0_lt_compat; lra).
  apply Rmin_glb.
  - apply Rle_trans with ((W - 2 * 18) / (x1 - x0)); [apply Rmin_l |].
    unfold Rdiv. apply Rmult_le_compat_r; lra.
  - apply Rle_trans with ((H - 2 * 18) / (y1 - y0)); [apply Rmin_r |].
    unfold Rdiv. apply Rmult_le_compat_r; lra.
Qed.

Lemma fitTransform_scale_monotone_witness :
  exists s s' : R,
    scale (fitTransform (aabbR (-99) 0 999 220) (Fin 10) (Fin 500)) = Fin s /\
    scale (fitTransform (aabbR (-99) 0 999 220) (Fin 1000) (Fin 500)) = Fin s' /\
    s <= s'.
Proof.
  apply (fitTransform_scale_monotone (-99) 0 999 220 10 500 1000 500); lra.
Defined.

(** X11. A box of zero width and zero height is not guarded against: for a
    viewport wider and higher than twice the margin both ratios divide by
    zero, the scale is [Infinity] and both offsets are [NaN]. *)
Theorem fitTransform_zero_box (x0 y0 W H : R) :
  W > 2 * 18 -> H > 2 * 18 ->
  fitTransform (aabbR x0 y0 x0 y0) (Fin W) (Fin H) = mkFit PInf NaN NaN.
Proof.
  intros HW HH. unfold fitTransform, aabbR, padPx. fin_compute.
  replace (x0 - x0) with 0 by ring. replace (y0 - y0) with 0 by ring.
  assert (Hdw : (Fin (W - 2 * 18) / Fin 0)%num = PInf).
  { unfold Num.div. rewrite sgn_zero, sgn_pos by lra. reflexivity. }
  assert (Hdh : (Fin (H - 2 * 18) / Fin 0)%num = PInf).
  { unfold Num.div. rewrite sgn_zero, sgn_pos by lra. reflexivity. }
  rewrite Hdw, Hdh. cbn [Num.Math_min].
  assert (Hz : (Fin 0 * PInf)%num = NaN).
  { unfold Num.mul. rewrite sgn_zero. reflexivity. }
  rewrite Hz. reflexivity.
Qed.

Lemma fitTransform_zero_box_witness :
  fitTransform (aabbR 5 7 5 7) (Fin 1000) (Fin 800) = mkFit PInf NaN NaN.
Proof.
  apply (fitTransform_zero_box 5 7 1000 800); lra.
Defined.

(** X12. For every viewport wider and higher than twice the margin,
    [draw] computes a finite scale and finite offsets, and the scale is
    positive. *)
Theorem draw_fit_finite (W H : R) :
  W > 2 * 18 -> H > 2 * 18 ->
  exists s ox oy : R, draw (Fin W) (Fin H) = fitR s ox oy /\ 0 < s.
Proof.
  intros HW HH.
  destruct draw_bbox as (x0 & y0 & x1 & y1 & Hbb & Hw & Hh).
  unfold draw, autoFit. rewrite Hbb. unfold aabbR.
  rewrite fitTransform_finite by lra.
  do 3 eexists. split; [reflexivity |].
  apply scaleR_fits; lra.
Qed.

Lemma draw_fit_finite_witness :
  exists s ox oy : R, draw (Fin 1000) (Fin 800) = fitR s ox oy /\ 0 < s.
Proof.
  apply (draw_fit_finite 1000 800); lra.
Defined.

(** ** The canvas *)

Section MatrixAlgebra.

Lemma matrix_eq (a b c d e f a' b' c' d' e' f' : R) :
  a = a' -> b = b' -> c = c' -> d = d' -> e = e' -> f = f' ->
  mkMatrix a b c d e f = mkMatrix a' b' c' d' e' f'.
Proof. now intros -> -> -> -> -> ->. Qed.

Lemma mmul_assoc (M N P : Matrix) : mmul (mmul M N) P = mmul M (mmul N P).
Proof. destruct M, N, P. unfold mmul. cbn. apply matrix_eq; ring. Qed.

Lemma mmul_id_l (M : Matrix) : mmul midentity M = M.
Proof. destruct M. unfold mmul, midentity. cbn. apply matrix_eq; ring. Qed.

Lemma mmul_id_r (M : Matrix) : mmul M midentity = M.
Proof. destruct M. unfold mmul, midentity. cbn. apply matrix_eq; ring. Qed.

Lemma mapply_mmul (M N : Matrix) (p : R * R) :
  mapply (mmul M N) p = mapply M (mapply N p).
Proof.
  destruct M, N, p. unfold mapply, mmul. cbn. f_equal; ring.
Qed.

Lemma mapply_id (p : R * R) : mapply midentity p = p.
Proof. destruct p. unfold mapply, midentity. cbn. f_equal; ring. Qed.

Lemma map_mapply_mmul (M N : Matrix) (ps : list (R * R)) :
  map (mapply (mmul M N)) ps = map (mapply M) (map (mapply N) ps).
Proof.
  rewrite map_map. apply map_ext. intros p. apply mapply_mmul.
Qed.

Lemma prim_map_id (p : Prim) : prim_map midentity p = p.
Proof.
  destruct p; cbn; rewrite ?mapply_id, ?mmul_id_l; try reflexivity.
  f_equal. rewrite <- (map_id pts) at 2. apply map_ext, mapply_id.
Qed.

Lemma map_prim_map_id (ps : list Prim) : map (prim_map midentity) ps = ps.
Proof.
  rewrite <- (map_id ps) at 2. apply map_ext, prim_map_id.
Qed.

End MatrixAlgebra.

(** ** Calls that draw relative to the current matrix *)

Section NaturalCalls.

Lemma Natural_skip : Natural skip.
Proof. intros M sv o cv. reflexivity. Qed.

Lemma Natural_seq (a b : cmd) : Natural a -> Natural b -> Natural (a ;; b)%cmd.
Proof. intros Ha Hb M sv o cv. unfold seq. now rewrite Ha, Hb. Qed.

Lemma Natural_read (g : Style -> cmd) :
  (forall st, Natural (g st)) -> Natural (fun cv => g (style cv) cv).
Proof. intros Hg M sv o cv. apply (Hg (style cv)). Qed.

Lemma Natural_foreach {A : Type} (l : list A) (body : A -> cmd) :
  (forall x, Natural (body x)) -> Natural (foreach l body).
Proof.
  intros Hb. induction l as [| x l IH]; cbn [foreach].
  - apply Natural_skip.
  - apply Natural_seq; [apply Hb | exact IH].
Qed.

Lemma Natural_transform (N : Matrix) : Natural (P5.transform N).
Proof.
  intros M sv o cv. unfold P5.transform, embed. cbn.
  now rewrite mmul_assoc.
Qed.

Lemma Natural_setStyle (f : Style -> Style) : Natural (P5.setStyle f).
Proof. intros M sv o cv. reflexivity. Qed.

Lemma Natural_translate (x y : num) : Natural (P5.translate x y).
Proof.
  destruct x, y; cbn; first [apply Natural_transform | apply Natural_skip].
Qed.

Lemma Natural_rotate (a : num) : Natural (P5.rotate a).
Proof.
  destruct a; cbn; first [apply Natural_transform | apply Natural_skip].
Qed.

Lemma Natural_scale (a : num) : Natural (P5.scale a).
Proof.
  destruct a; cbn; first [apply Natural_transform | apply Natural_skip].
Qed.

Lemma Natural_shearX (a : num) : Natural (P5.shearX a).
Proof.
  destruct a; cbn; first [apply Natural_transform | apply Natural_skip].
Qed.

Lemma Natural_beginShape : Natural P5.beginShape.
Proof. intros M sv o cv. reflexivity. Qed.

Lemma Natural_vertex (x y : num) : Natural (P5.vertex x y).
Proof.
  destruct x, y; cbn; try apply Natural_skip.
  intros M sv o cv. reflexivity.
Qed.

Lemma Natural_endShape (mode : P5Const) : Natural (P5.endShape mode).
Proof.
  intros M sv o cv. unfold P5.endShape, P5.emit, embed. cbn.
  rewrite map_app, <- app_assoc. cbn. now rewrite map_mapply_mmul.
Qed.

Lemma Natural_line (x1 y1 x2 y2 : num) : Natural (P5.line x1 y1 x2 y2).
Proof.
  destruct x1, y1, x2, y2; cbn; try apply Natural_skip.
  intros M sv o cv. unfold P5.emit, embed. cbn.
  rewrite map_app, <- app_assoc. cbn. now rewrite !mapply_mmul.
Qed.

Lemma Natural_text (s : string) (x y : num) : Natural (P5.text s x y).
Proof.
  destruct x, y; cbn; try apply Natural_skip.
  intros M sv o cv. unfold P5.emit, embed. cbn.
  now rewrite map_app, <- app_assoc.
Qed.

End NaturalCalls.

(** ** Balanced routines *)

Section BalancedCalls.

Lemma embed_local (cv : Canvas) (sv : list (Matrix * Style)) :
  embed (ctm cv) sv (out cv) (local cv)
  = mkCanvas (ctm cv) (style cv) sv (verts cv) (out cv).
Proof.
  unfold embed, local. cbn. now rewrite mmul_id_r, app_nil_r.
Qed.

Lemma Balanced_skip : Balanced skip.
Proof. intros cv. destruct cv. unfold skip. cbn. now rewrite app_nil_r. Qed.

Lemma Balanced_seq (a b : cmd) : Balanced a -> Balanced b -> Balanced (a ;; b)%cmd.
Proof.
  intros Ha Hb cv. unfold seq.
  rewrite (Ha (local cv)), (Ha cv), Hb.
  rewrite (Hb (mkCanvas _ _ _ _ (_ ++ map _ (out (a (local (local cv))))))).
  cbn. rewrite map_prim_map_id, map_app, map_prim_map_id, app_assoc.
  reflexivity.
Qed.

Lemma Block_pop (rest : cmd) : Balanced rest -> Block (P5.pop ;; rest)%cmd.
Proof.
  intros Hr. exists skip, rest. repeat split; auto using Natural_skip.
Qed.

Lemma Block_pop_last : Block P5.pop.
Proof.
  exists skip, skip. repeat split; auto using Natural_skip, Balanced_skip.
Qed.

Lemma Block_step (x r : cmd) : Natural x -> Block r -> Block (x ;; r)%cmd.
Proof.
  intros Hx (f & rest & Hr & Hf & Hrest).
  exists (x ;; f)%cmd, rest. repeat split; auto using Natural_seq.
  intros cv. unfold seq. apply Hr.
Qed.

Lemma Balanced_push (r : cmd) : Block r -> Balanced (P5.push ;; r)%cmd.
Proof.
  intros (f & rest & Hr & Hf & Hrest) cv. unfold seq. rewrite !Hr.
  assert (Hpush : forall c,
            P5.pop (f (P5.push c))
            = mkCanvas (ctm c) (style c) (saved c) (verts (f (local c)))
                       (out c ++ map (prim_map (ctm c)) (out (f (local c))))).
  { intros c.
    replace (P5.push c)
      with (embed (ctm c) ((ctm c, style c) :: saved c) (out c) (local c)).
    - rewrite Hf. reflexivity.
    - apply embed_local. }
  rewrite !Hpush. rewrite Hrest.
  rewrite (Hrest (mkCanvas _ _ _ _ (_ ++ map _ (out (f (local (local cv))))))).
  cbn. rewrite map_prim_map_id, map_app, map_prim_map_id, app_assoc.
  reflexivity.
Qed.

End BalancedCalls.


(** ** The routines of the sketch *)

(** One canvas call that draws relative to the current matrix. *)
Ltac natural_call :=
  lazymatch goal with
  | |- Natural skip => apply Natural_skip
  | |- Natural (P5.translate _ _) => apply Natural_translate
  | |- Natural (P5.rotate _) => apply Natural_rotate
  | |- Natural (P5.scale _) => apply Natural_scale
  | |- Natural (P5.shearX _) => apply Natural_shearX
  | |- Natural (P5.fill _) => apply Natural_setStyle
  | |- Natural P5.noFill => apply Natural_setStyle
  | |- Natural (P5.stroke _) => apply Natural_setStyle
  | |- Natural P5.noStroke => apply Natural_setStyle
  | |- Natural (P5.strokeWeight _) => apply Natural_setStyle
  | |- Natural (P5.strokeJoin _) => apply Natural_setStyle
  | |- Natural (P5.strokeCap _) => apply Natural_setStyle
  | |- Natural (P5.textAlign _ _) => apply Natural_setStyle
  | |- Natural (P5.textSize _) => apply Natural_setStyle
  | |- Natural P5.beginShape => apply Natural_beginShape
  | |- Natural (P5.vertex _ _) => apply Natural_vertex
  | |- Natural (P5.endShape _) => apply Natural_endShape
  | |- Natural (P5.line _ _ _ _) => apply Natural_line
  | |- Natural (P5.text _ _ _) => apply Natural_text
  end.

Ltac natural :=
  repeat (cbv beta zeta;
          lazymatch goal with
          | |- Natural (seq _ _) => apply Natural_seq
          | |- Natural (foreach _ _) => apply Natural_foreach; intros ?
          | |- Natural (match ?o with Some _ => _ | None => _ end) => destruct o
          | |- Natural (if ?b then _ else _) => destruct b
          | |- _ => natural_call
          end).

Section SketchRoutines.

Variable textWidth : Style -> string -> num.

Lemma Natural_rotateAroundCenter (w h ang : num) :
  Natural (Sketch.rotateAroundCenter w h ang).
Proof. unfold Sketch.rotateAroundCenter. natural. Qed.

Lemma Natural_drawParallelogram (x y w h skew : num) :
  Natural (Sketch.drawParallelogram x y w h skew).
Proof. unfold Sketch.drawParallelogram. natural. Qed.

Lemma Natural_drawParallelogramOutline (x y w h skew : num) :
  Natural (Sketch.drawParallelogramOutline x y w h skew).
Proof. unfold Sketch.drawParallelogramOutline. natural. Qed.

Lemma Natural_trackedGlyphs (str : string) (x cy tracking : num) :
  Natural (Sketch.trackedGlyphs textWidth str x cy tracking).
Proof.
  revert x. induction str as [| c rest IH]; intros x; cbn [Sketch.trackedGlyphs].
  - apply Natural_skip.
  - natural.
    apply (Natural_read
             (fun st => Sketch.trackedGlyphs textWidth rest
                          (x + (textWidth st (String c EmptyString) + tracking))%num
                          cy tracking)).
    intros st. apply IH.
Qed.

Lemma Natural_drawTrackedText (str : string) (cx cy tracking : num) :
  Natural (Sketch.drawTrackedText textWidth str cx cy tracking).
Proof.
  unfold Sketch.drawTrackedText. apply Natural_seq; [natural |].
  apply (Natural_read
           (fun st => Sketch.trackedGlyphs textWidth str
                        (cx - Sketch.trackedTotal (textWidth st) str tracking (Fin 0)
                              / Fin 2)%num
                        cy tracking)).
  intros st. apply Natural_trackedGlyphs.
Qed.

(** A routine made of [push] ... [pop] blocks. *)
Ltac natural_routine :=
  repeat (natural;
          lazymatch goal with
          | |- Natural (Sketch.rotateAroundCenter _ _ _) =>
              apply Natural_rotateAroundCenter
          | |- Natural (Sketch.drawParallelogram _ _ _ _ _) =>
              apply Natural_drawParallelogram
          | |- Natural (Sketch.drawParallelogramOutline _ _ _ _ _) =>
              apply Natural_drawParallelogramOutline
          | |- Natural (Sketch.drawTrackedText _ _ _ _ _) =>
              apply Natural_drawTrackedText
          end).

Ltac balanced :=
  repeat (cbv beta zeta;
          lazymatch goal with
          | |- Balanced (seq P5.push _) => apply Balanced_push
          | |- Balanced skip => apply Balanced_skip
          | |- Block (seq P5.pop _) => apply Block_pop
          | |- Block P5.pop => apply Block_pop_last
          | |- Block (seq _ _) => apply Block_step; [solve [natural_routine] |]
          end).

Lemma Balanced_drawPlaque (box : Rect) (ang : num) (theme : Sketch.Theme)
    (opt : Sketch.PlaqueOpt) :
  Balanced (Sketch.drawPlaque box ang theme opt).
Proof. unfold Sketch.drawPlaque. balanced. Qed.

Lemma Balanced_drawWordInPlaque (word : string) (box : Rect) (ang : num)
    (theme : Sketch.Theme) (opt : Sketch.WordOpt) :
  Balanced (Sketch.drawWordInPlaque textWidth word box ang theme opt).
Proof. unfold Sketch.drawWordInPlaque. balanced. Qed.

Lemma Balanced_drawAmpBadgeBetween (steepBox fastBox : Rect) (ang : num)
    (theme : Sketch.Theme) (opt : Sketch.BadgeOpt) :
  Balanced (Sketch.drawAmpBadgeBetween steepBox fastBox ang theme opt).
Proof. unfold Sketch.drawAmpBadgeBetween. balanced. Qed.

Lemma Balanced_drawMountainHint (steepBox : Rect) (ang : num)
    (theme : Sketch.Theme) :
  Balanced (Sketch.drawMountainHint steepBox ang theme).
Proof. unfold Sketch.drawMountainHint. balanced. Qed.

Lemma Balanced_drawSpeedLines (fastBox : Rect) (ang : num)
    (theme : Sketch.Theme) :
  Balanced (Sketch.drawSpeedLines fastBox ang theme).
Proof. unfold Sketch.drawSpeedLines. balanced. Qed.

Lemma Balanced_drawBody : Balanced (Sketch.drawBody textWidth).
Proof.
  unfold Sketch.drawBody. cbv zeta.
  repeat lazymatch goal with
         | |- Balanced (seq _ _) => apply Balanced_seq
         | |- Balanced (Sketch.drawPlaque _ _ _ _) => apply Balanced_drawPlaque
         | |- Balanced (Sketch.drawWordInPlaque _ _ _ _ _ _) =>
             apply Balanced_drawWordInPlaque
         | |- Balanced (Sketch.drawAmpBadgeBetween _ _ _ _ _) =>
             apply Balanced_drawAmpBadgeBetween
         | |- Balanced (Sketch.drawMountainHint _ _ _) =>
             apply Balanced_drawMountainHint
         | |- Balanced (Sketch.drawSpeedLines _ _ _) =>
             apply Balanced_drawSpeedLines
         end.
Qed.

End SketchRoutines.

(** Turns the arguments of the canvas calls of a routine on finite
    numbers into finite numbers. *)
Ltac finite_args :=
  cbn [negate rx ry rw rh px py
       plaques slant skewK shadowOff motifPad
       Sketch.po_borderColor Sketch.po_borderWeight Sketch.po_shadowOff
       Sketch.po_stripes Sketch.po_skewK Sketch.st_c Sketch.st_y Sketch.st_h
       Sketch.wo_size Sketch.wo_tracking Sketch.wo_underline
       Sketch.wo_textShearX Sketch.bo_shadowOff Sketch.bo_borderWeight
       Sketch.bo_skewK Sketch.ln_y Sketch.ln_w Sketch.ln_sw Sketch.ln_c];
  autorewrite with fin.

(** Runs canvas calls whose arguments are finite. *)
Ltac run_canvas :=
  lazy beta iota zeta delta
    [seq skip foreach
     P5.transform P5.setStyle P5.emit P5.push P5.pop P5.translate
     P5.rotate P5.scale P5.shearX P5.fill P5.noFill P5.stroke P5.noStroke
     P5.strokeWeight P5.strokeJoin P5.strokeCap P5.textAlign P5.textSize
     P5.background P5.beginShape P5.vertex P5.endShape P5.line P5.text
     ctm style saved verts out app map local
     fillColor strokeColor weight join cap hAlign vAlign fontSize].

(** X14. [rotateAroundCenter(w, h, ang)] turns the current coordinate
    system about the point [(w/2, h/2)]: a point drawn afterwards lands
    where its rotation about [(w/2, h/2)] by [ang] would have landed
    before, the centre stays where it was, and nothing but the matrix
    changes. *)
Theorem rotateAroundCenter_rotates (w h ang : R) (cv : Canvas) (p : R * R) :
  let cv' := Sketch.rotateAroundCenter (Fin w) (Fin h) (Fin ang) cv in
  mapply (ctm cv') p = mapply (ctm cv) (Spec.rotateAbout (w / 2) (h / 2) ang p) /\
  mapply (ctm cv') (w / 2, h / 2) = mapply (ctm cv) (w / 2, h / 2) /\
  style cv' = style cv /\ saved cv' = saved cv /\ verts cv' = verts cv /\
  out cv' = out cv.
Proof.
  unfold Sketch.rotateAroundCenter. finite_args.
  destruct cv as [[a b c d e f] st sv vs o], p as [u v].
  run_canvas.
  unfold mapply, mmul, Spec.rotateAbout.
  cbn [ma mb mc md me mf fst snd].
  repeat split; f_equal; field.
Qed.
(** X16. Every drawing routine gives the canvas back as it found it: the
    transformation matrix, the style and the [push]/[pop] stack after the
    call are those before it, for all arguments; and what it draws under a
    current matrix [M] is the [M]-image of what it draws under the
    identity. *)
Theorem routines_restore_canvas
    (textWidth : Style -> string -> num) (box box' : Rect) (ang : num)
    (theme : Sketch.Theme) (popt : Sketch.PlaqueOpt) (wopt : Sketch.WordOpt)
    (bopt : Sketch.BadgeOpt) (word : string) (cv : Canvas) :
  Forall (fun r : cmd =>
            ctm (r cv) = ctm cv /\ style (r cv) = style cv /\
            saved (r cv) = saved cv /\
            out (r cv) = out cv ++ map (prim_map (ctm cv)) (out (r (local cv))))
         [ Sketch.drawPlaque box ang theme popt;
           Sketch.drawWordInPlaque textWidth word box ang theme wopt;
           Sketch.drawAmpBadgeBetween box box' ang theme bopt;
           Sketch.drawMountainHint box ang theme;
           Sketch.drawSpeedLines box ang theme;
           Sketch.drawBody textWidth ].
Proof.
  assert (Hbal : forall r : cmd, Balanced r ->
            ctm (r cv) = ctm cv /\ style (r cv) = style cv /\
            saved (r cv) = saved cv /\
            out (r cv) = out cv ++ map (prim_map (ctm cv)) (out (r (local cv)))).
  { intros r Hr. rewrite (Hr cv) at 1 2 3 4. repeat split. }
  repeat lazymatch goal with
         | |- Forall _ (_ :: _) => apply Forall_cons; [apply Hbal |]
         | |- Forall _ [] => apply Forall_nil
         end.
  - apply Balanced_drawPlaque.
  - apply Balanced_drawWordInPlaque.
  - apply Balanced_drawAmpBadgeBetween.
  - apply Balanced_drawMountainHint.
  - apply Balanced_drawSpeedLines.
  - apply Balanced_drawBody.
Qed.

(** A text touches nothing but the drawing, and draws at most a text. *)
Lemma text_frame_text (s : string) (x y : num) (cv : Canvas) :
  exists texts,
    P5.text s x y cv
    = mkCanvas (ctm cv) (style cv) (saved cv) (verts cv) (out cv ++ texts) /\
    Forall is_text texts.
Proof.
  destruct cv as [m st sv vs o].
  destruct x, y; cbn [P5.text P5.emit skip ctm style saved verts out];
    first [ exists []; rewrite app_nil_r; split; [reflexivity | constructor]
          | eexists; split; [reflexivity | repeat constructor] ].
Qed.

Lemma is_text_no_points (p : Prim) : is_text p -> prim_points p = [].
Proof. destruct p; cbn; intros H; try contradiction; reflexivity. Qed.

Lemma shearMatrix_mul (M : Matrix) (a b : R) :
  mmul (mmul M (shearMatrix a)) (shearMatrix b) = mmul M (shearMatrix (a + b)).
Proof.
  destruct M. unfold mmul, shearMatrix. cbn [ma mb mc md me mf].
  apply matrix_eq; ring.
Qed.

(** The second loop of [drawTrackedText] shears the matrix once per
    character and draws nothing but texts. *)
Lemma trackedGlyphs_frame_text (textWidth : Style -> string -> num) (str : string)
    (x cy tracking : num) (cv : Canvas) :
  exists texts,
    Sketch.trackedGlyphs textWidth str x cy tracking cv
    = mkCanvas (mmul (ctm cv)
                     (shearMatrix (INR (String.length str) * tan (- (1 / 10)))))
               (style cv) (saved cv) (verts cv) (out cv ++ texts) /\
    Forall is_text texts.
Proof.
  revert x cv. induction str as [| c rest IH]; intros x cv.
  - destruct cv as [[a b c d e f] st sv vs o]. exists [].
    cbn [Sketch.trackedGlyphs String.length INR ctm style saved verts out].
    unfold skip. rewrite app_nil_r. split; [| constructor].
    f_equal. unfold mmul, shearMatrix. cbn [ma mb mc md me mf].
    apply matrix_eq; ring.
  - cbn [Sketch.trackedGlyphs]. unfold seq at 1 2.
    destruct cv as [m st sv vs o].
    lazy beta iota delta [P5.shearX P5.transform ctm style saved verts out].
    match goal with
    | |- context [P5.text ?s ?a ?b ?X] =>
        destruct (text_frame_text s a b X) as (t1 & Ht1 & Hall1); rewrite Ht1
    end.
    cbn [ctm style saved verts out].
    match goal with
    | |- context [Sketch.trackedGlyphs textWidth rest ?a cy tracking ?X] =>
        destruct (IH a X) as (t2 & Ht2 & Hall2); rewrite Ht2
    end.
    cbn [ctm style saved verts out].
    exists (t1 ++ t2). split; [| now apply Forall_app].
    rewrite <- app_assoc. f_equal.
    fold (shearMatrix (tan (- (1 / 10)))). rewrite shearMatrix_mul. f_equal. f_equal.
    change (String.length (String c rest)) with (S (String.length rest)).
    rewrite S_INR. ring.
Qed.

Lemma trackedGlyphs_frame (textWidth : Style -> string -> num) (str : string)
    (x cy tracking : num) (cv : Canvas) :
  exists texts,
    Sketch.trackedGlyphs textWidth str x cy tracking cv
    = mkCanvas (mmul (ctm cv)
                     (shearMatrix (INR (String.length str) * tan (- (1 / 10)))))
               (style cv) (saved cv) (verts cv) (out cv ++ texts) /\
    Forall (fun p => prim_points p = []) texts.
Proof.
  destruct (trackedGlyphs_frame_text textWidth str x cy tracking cv)
    as (texts & H & Hall).
  exists texts. split; [exact H |].
  eapply Forall_impl; [| exact Hall]. exact is_text_no_points.
Qed.

(** X17. [drawTrackedText] does not restore the matrix: each character
    shears the canvas by another [tan(-0.1)], so after a string of [n]
    characters the current matrix is the one before the call followed by
    a horizontal shear of [n tan(-0.1)], whatever the widths of the
    characters; every primitive it draws is a text; it sets the text
    alignment to [(LEFT, CENTER)] and leaves the rest of the style and
    the stack alone. *)
Theorem drawTrackedText_shears (textWidth : Style -> string -> num)
    (str : string) (cx cy tracking : num) (cv : Canvas) :
  let cv' := Sketch.drawTrackedText textWidth str cx cy tracking cv in
  ctm cv'
  = mmul (ctm cv) (shearMatrix (INR (String.length str) * tan (- (1 / 10)))) /\
  saved cv' = saved cv /\
  hAlign (style cv') = LEFT /\ vAlign (style cv') = CENTER /\
  fillColor (style cv') = fillColor (style cv) /\
  strokeColor (style cv') = strokeColor (style cv) /\
  fontSize (style cv') = fontSize (style cv) /\
  exists texts, out cv' = out cv ++ texts /\ Forall is_text texts.
Proof.
  unfold Sketch.drawTrackedText, seq.
  destruct cv as [m [f0 s0 w0 j0 c0 ha0 va0 z0] sv vs o].
  cbn [P5.textAlign P5.setStyle ctm style saved verts out].
  match goal with
  | |- context [Sketch.trackedGlyphs textWidth str ?a cy tracking ?X] =>
      destruct (trackedGlyphs_frame_text textWidth str a cy tracking X)
        as (texts & Ht & Hall); rewrite Ht
  end.
  cbn [ctm style saved verts out hAlign vAlign fillColor strokeColor fontSize].
  repeat split. exists texts. split; [reflexivity | exact Hall].
Qed.

(** ** The characters of tracked text *)

Section TrackedText.

Variable wd : Style -> string -> R.

Lemma trackedTotal_finite (st : Style) (str : string) (tr t0 : R) :
  exists t, Sketch.trackedTotal (fun s => Fin (wd st s)) str (Fin tr) (Fin t0)
            = Fin t.
Proof.
  revert t0. induction str as [| c rest IH]; intros t0.
  - now exists t0.
  - cbn [Sketch.trackedTotal]. cbv zeta. rewrite add_Fin.
    destruct rest as [| c' rest']; [apply IH |].
    rewrite add_Fin. apply IH.
Qed.

Lemma trackedGlyphs_glyphs (str : string) (x cy tr : R) (cv : Canvas) :
  exists texts,
    out (Sketch.trackedGlyphs (fun st s => Fin (wd st s)) str
           (Fin x) (Fin cy) (Fin tr) cv)
    = out cv ++ texts /\
    map text_glyph texts = map (fun ch => Some (ch, cy)) (chars str).
Proof.
  revert x cv. induction str as [| c rest IH]; intros x cv.
  - exists []. cbn [Sketch.trackedGlyphs chars map]. unfold skip.
    now rewrite app_nil_r.
  - cbn [Sketch.trackedGlyphs chars]. cbv zeta. unfold seq at 1 2.
    destruct cv as [m st sv vs o].
    unfold P5.shearX, P5.transform, P5.text, P5.emit.
    cbn [ctm style saved verts out]. rewrite !add_Fin.
    match goal with
    | |- context [Sketch.trackedGlyphs _ rest (Fin ?a) _ _ ?X] =>
        destruct (IH a X) as (texts & Hout & Hg)
    end.
    rewrite Hout. cbn [out]. rewrite <- app_assoc.
    eexists. split; [reflexivity |].
    cbn [app map text_glyph snd]. now rewrite Hg.
Qed.

End TrackedText.

(** X20. With finite character widths, position and tracking,
    [drawTrackedText] draws exactly one text per character of the string,
    in order, each holding that character and anchored at height [cy];
    the empty string draws nothing. *)
Theorem drawTrackedText_glyphs
    (wd : Style -> string -> R) (str : string) (cx cy tr : R) (cv : Canvas) :
  exists texts,
    out (Sketch.drawTrackedText (fun st s => Fin (wd st s)) str
           (Fin cx) (Fin cy) (Fin tr) cv)
    = out cv ++ texts /\
    length texts = String.length str /\
    map text_glyph texts = map (fun ch => Some (ch, cy)) (chars str).
Proof.
  unfold Sketch.drawTrackedText, seq.
  destruct cv as [m st sv vs o].
  unfold P5.textAlign, P5.setStyle. cbn [ctm style saved verts out].
  cbv beta.
  match goal with
  | |- context [Sketch.trackedTotal (fun s => Fin (wd ?st' s)) str _ _] =>
      destruct (trackedTotal_finite wd st' str tr 0) as (t & Ht)
  end.
  rewrite Ht. autorewrite with fin.
  match goal with
  | |- context [Sketch.trackedGlyphs _ str (Fin ?a) _ _ ?X] =>
      destruct (trackedGlyphs_glyphs wd str a cy tr X) as (texts & Hout & Hg)
  end.
  exists texts. split; [exact Hout |]. split; [| exact Hg].
  assert (Hl : length (map text_glyph texts)
               = length (map (fun ch => Some (ch, cy)) (chars str)))
    by now rewrite Hg.
  rewrite !length_map in Hl. rewrite Hl.
  clear. induction str as [| c rest IH]; [reflexivity |].
  cbn [chars length String.length]. now rewrite IH.
Qed.

(** ** Everything [draw] draws stays inside the margins *)

Section SmallAngles.

Lemma PI_gt_3 : 3 < PI.
Proof. pose proof PI2_3_2. lra. Qed.

(** For [0 <= a <= 1/2]: [0 <= sin a <= a], [cos a] is positive, at most
    [1], and its square is at least [1 - a^2]. *)
Lemma small_angle (a : R) :
  0 <= a <= 1 / 2 ->
  0 <= sin a <= a /\ 0 < cos a <= 1 /\ 1 - a * a <= cos a * cos a.
Proof.
  intros [Ha0 Ha1]. pose proof PI_gt_3 as Hpi.
  assert (Hs0 : 0 <= sin a) by (apply sin_ge_0; lra).
  assert (Hs1 : sin a <= a).
  { destruct Ha0 as [Hpos | <-]; [left; now apply sin_lt_x | rewrite sin_0; lra]. }
  assert (Hc0 : 0 < cos a) by (apply cos_gt_0; lra).
  pose proof (COS_bound a) as [_ Hc1].
  pose proof (sin2_cos2 a) as Hsc. unfold Rsqr in Hsc.
  repeat split; try assumption. nra.
Qed.

(** A lower bound [lo] on [cos a] from [lo^2 <= 1 - a^2], and the bound
    [tan a <= a / lo] that follows. *)
Lemma small_angle_tan (a lo : R) :
  0 <= a <= 1 / 2 -> 0 < lo -> lo * lo <= 1 - a * a ->
  lo <= cos a /\ 0 <= tan a /\ tan a * lo <= a.
Proof.
  intros Ha Hlo Hsq.
  destruct (small_angle a Ha) as ([Hs0 Hs1] & [Hc0 Hc1] & Hcc).
  assert (Hlc : lo <= cos a) by nra.
  assert (Ht : tan a * cos a = sin a).
  { unfold tan. field. lra. }
  assert (Ht0 : 0 <= tan a).
  { unfold tan. apply Rmult_le_pos; [assumption |].
    left. now apply Rinv_0_lt_compat. }
  repeat split; try assumption. nra.
Qed.

End SmallAngles.

Section DesignSpace.

(** The angle of the composition and the shears of the texts. *)
Lemma slant_bounds :
  99 / 100 <= cos (14 / 100) <= 1 /\ 0 <= sin (14 / 100) <= 14 / 100.
Proof.
  destruct (small_angle (14 / 100)) as (Hs & Hc & _); [lra |].
  destruct (small_angle_tan (14 / 100) (99 / 100)) as (Hlo & _); lra.
Qed.

Lemma prims_within_app (P : R * R -> Prop) (ps qs : list Prim) :
  prims_within P ps -> prims_within P qs -> prims_within P (ps ++ qs).
Proof. intros Hp Hq. apply Forall_app. now split. Qed.

(** Reduces a statement on explicit shapes and lines to inequalities on
    their coordinates. *)
Ltac explicit_points :=
  lazy beta iota zeta delta
    [prims_within prim_points designBox mapply mmul midentity shearMatrix
     map fst snd ma mb mc md me mf];
  repeat lazymatch goal with
         | |- Forall _ [] => apply Forall_nil
         | |- Forall _ (_ :: _) => apply Forall_cons
         end.

(** Runs a routine of [draw] on its literals and checks every point
    against the design box. *)
Ltac design_inside cv :=
  destruct cv as [? [? ? ? ? ? ? ? ?] ? ? ?];
  finite_args; cbn [foreach]; cbv beta zeta; finite_args;
  run_canvas;
  rewrite ?cos_neg, ?sin_neg;
  let Hc0 := fresh "Hc0" in
  let Hc1 := fresh "Hc1" in
  let Hs0 := fresh "Hs0" in
  let Hs1 := fresh "Hs1" in
  pose proof slant_bounds as [[Hc0 Hc1] [Hs0 Hs1]];
  explicit_points; lra.

Lemma mountain_in_designBox (cv : Canvas) :
  prims_within designBox
    (out (Sketch.drawMountainHint steep (slant drawLayout) Sketch.theme (local cv))).
Proof.
  unfold Sketch.drawMountainHint, steep, drawLayout. design_inside cv.
Qed.

Lemma speedLines_in_designBox (cv : Canvas) :
  prims_within designBox
    (out (Sketch.drawSpeedLines fast (slant drawLayout) Sketch.theme (local cv))).
Proof.
  unfold Sketch.drawSpeedLines, fast, drawLayout. design_inside cv.
Qed.

Lemma steep_plaque_in_designBox (cv : Canvas) :
  prims_within designBox
    (out (Sketch.drawPlaque steep (slant drawLayout) Sketch.theme
            (Sketch.mkPlaqueOpt (Sketch.cool Sketch.theme) Sketch.borderW
               (shadowOff drawLayout)
               (Some [Sketch.mkStripe (Sketch.stripeCool Sketch.theme)
                                      (Fin (52 / 100)) (Fin (18 / 100))])
               (skewK drawLayout))
            (local cv))).
Proof.
  unfold Sketch.drawPlaque, Sketch.rotateAroundCenter, Sketch.drawParallelogram,
    Sketch.drawParallelogramOutline, Sketch.borderW, steep, drawLayout.
  design_inside cv.
Qed.

Lemma fast_plaque_in_designBox (cv : Canvas) :
  prims_within designBox
    (out (Sketch.drawPlaque fast (slant drawLayout) Sketch.theme
            (Sketch.mkPlaqueOpt (Sketch.warm Sketch.theme) Sketch.borderW
               (shadowOff drawLayout)
               (Some [Sketch.mkStripe (Sketch.stripeWarm Sketch.theme)
                                      (Fin (55 / 100)) (Fin (18 / 100))])
               (skewK drawLayout))
            (local cv))).
Proof.
  unfold Sketch.drawPlaque, Sketch.rotateAroundCenter, Sketch.drawParallelogram,
    Sketch.drawParallelogramOutline, Sketch.borderW, fast, drawLayout.
  design_inside cv.
Qed.

Lemma shear_bounds :
  (0 <= tan (1 / 10) <= 11 / 100) /\
  (0 <= tan (25 / 100) <= 27 / 100) /\
  (0 <= tan (20 / 100) <= 21 / 100) /\
  (0 <= tan (5 / 10) <= 6 / 10).
Proof.
  destruct (small_angle_tan (1 / 10) (99 / 100)) as (_ & ? & ?); [lra .. |].
  destruct (small_angle_tan (25 / 100) (96 / 100)) as (_ & ? & ?); [lra .. |].
  destruct (small_angle_tan (20 / 100) (97 / 100)) as (_ & ? & ?); [lra .. |].
  destruct (small_angle_tan (5 / 10) (86 / 100)) as (_ & ? & ?); [lra .. |].
  repeat split; lra.
Qed.

Lemma badge_in_designBox (cv : Canvas) :
  prims_within designBox
    (out (Sketch.drawAmpBadgeBetween steep fast (slant drawLayout) Sketch.theme
            (Sketch.mkBadgeOpt (shadowOff drawLayout)
               (Sketch.borderW * Fin (85 / 100))%num (skewK drawLayout))
            (local cv))).
Proof.
  unfold Sketch.drawAmpBadgeBetween, Sketch.rotateAroundCenter,
    Sketch.drawParallelogram, Sketch.drawParallelogramOutline, Sketch.borderW,
    P5.lerp, steep, fast, drawLayout.
  destruct cv as [? [? ? ? ? ? ? ? ?] ? ? ?].
  finite_args. run_canvas.
  rewrite ?cos_neg, ?sin_neg, ?tan_neg.
  pose proof slant_bounds as [[Hc0 Hc1] [Hs0 Hs1]].
  pose proof shear_bounds as (_ & _ & _ & [Ht0 Ht1]).
  assert (Hct : 0 <= cos (14 / 100) * tan (5 / 10) <= 6 / 10) by nra.
  assert (Hst : 0 <= sin (14 / 100) * tan (5 / 10) <= 84 / 1000) by nra.
  explicit_points; lra.
Qed.

(** [drawTrackedText] as one step: the matrix sheared once per
    character, the alignment set, texts drawn. *)
Lemma drawTrackedText_frame (textWidth : Style -> string -> num) (str : string)
    (cx cy tracking : num) (cv : Canvas) :
  exists texts,
    Sketch.drawTrackedText textWidth str cx cy tracking cv
    = mkCanvas (mmul (ctm cv)
                     (shearMatrix (INR (String.length str) * tan (- (1 / 10)))))
               (style (P5.textAlign LEFT CENTER cv)) (saved cv) (verts cv)
               (out cv ++ texts) /\
    Forall (fun p => prim_points p = []) texts.
Proof.
  unfold Sketch.drawTrackedText, seq.
  destruct cv as [m st sv vs o].
  match goal with
  | |- context [Sketch.trackedGlyphs textWidth str ?a cy tracking ?X] =>
      destruct (trackedGlyphs_frame textWidth str a cy tracking X)
        as (texts & Ht & Hall); rewrite Ht
  end.
  exists texts. split; [reflexivity | exact Hall].
Qed.

Lemma texts_within (P : R * R -> Prop) (texts : list Prim) :
  Forall (fun p => prim_points p = []) texts -> prims_within P texts.
Proof.
  intros Hall. unfold prims_within. eapply Forall_impl; [| exact Hall].
  intros p Hp. rewrite Hp. constructor.
Qed.

(** Runs canvas calls without touching the lists of what was drawn. *)
Ltac run_calls_keep_lists :=
  lazy beta iota zeta delta
    [seq skip
     P5.transform P5.setStyle P5.emit P5.push P5.pop P5.translate
     P5.rotate P5.scale P5.shearX P5.fill P5.noFill P5.stroke P5.noStroke
     P5.strokeWeight P5.strokeJoin P5.strokeCap P5.textAlign P5.textSize
     P5.line P5.text
     ctm style saved verts out local
     fillColor strokeColor weight join cap hAlign vAlign fontSize].

(** Replaces the next stuck call of [dtt] by what its frame says. *)
Ltac step_text dtt Hdtt :=
  lazymatch goal with
  | |- context [dtt ?s ?a ?b ?c ?X] =>
      let texts := fresh "texts" in
      let Ht := fresh "Ht" in
      let Hall := fresh "Hall" in
      let c0 := fresh "c" in
      destruct (Hdtt s a b c X) as (texts & Ht & Hall);
      revert Ht; generalize (dtt s a b c X); intros c0 Ht; subst c0;
      run_calls_keep_lists
  end.

Ltac within_lists :=
  repeat lazymatch goal with
         | |- prims_within _ (_ ++ _) => apply prims_within_app
         | |- prims_within _ [] => apply Forall_nil
         | H : Forall (fun p => prim_points p = []) ?t |- prims_within _ ?t =>
             apply texts_within; exact H
         end.

Lemma steep_word_in_designBox (textWidth : Style -> string -> num) (cv : Canvas) :
  prims_within designBox
    (out (Sketch.drawWordInPlaque textWidth "STEEP" steep (slant drawLayout)
            Sketch.theme
            (Sketch.mkWordOpt (Fin 170) (Fin 8) true (Fin (- (25 / 100))))
            (local cv))).
Proof.
  unfold Sketch.drawWordInPlaque, Sketch.rotateAroundCenter, steep, drawLayout.
  destruct cv as [? [? ? ? ? ? ? ? ?] ? ? ?].
  finite_args.
  pose proof (drawTrackedText_frame textWidth) as Hdtt.
  set (dtt := Sketch.drawTrackedText textWidth) in *. clearbody dtt.
  run_calls_keep_lists.
  step_text dtt Hdtt. step_text dtt Hdtt.
  within_lists.
  lazy beta iota zeta delta [String.length INR].
  rewrite ?cos_neg, ?sin_neg, ?tan_neg.
  pose proof slant_bounds as [[Hc0 Hc1] [Hs0 Hs1]].
  pose proof shear_bounds as ([Ha0 Ha1] & [Hb0 Hb1] & _).
  assert (0 <= cos (14 / 100) * tan (1 / 10) <= 11 / 100) by nra.
  assert (0 <= sin (14 / 100) * tan (1 / 10) <= 154 / 10000) by nra.
  assert (0 <= cos (14 / 100) * tan (25 / 100) <= 27 / 100) by nra.
  assert (0 <= sin (14 / 100) * tan (25 / 100) <= 378 / 10000) by nra.
  explicit_points; lra.
Qed.

Lemma fast_word_in_designBox (textWidth : Style -> string -> num) (cv : Canvas) :
  prims_within designBox
    (out (Sketch.drawWordInPlaque textWidth "FAST" fast (slant drawLayout)
            Sketch.theme
            (Sketch.mkWordOpt (Fin 170) (Fin 10) false (Fin (- (20 / 100))))
            (local cv))).
Proof.
  unfold Sketch.drawWordInPlaque, Sketch.rotateAroundCenter, fast, drawLayout.
  destruct cv as [? [? ? ? ? ? ? ? ?] ? ? ?].
  finite_args.
  pose proof (drawTrackedText_frame textWidth) as Hdtt.
  set (dtt := Sketch.drawTrackedText textWidth) in *. clearbody dtt.
  run_calls_keep_lists.
  step_text dtt Hdtt. step_text dtt Hdtt.
  within_lists.
Qed.

(** What two balanced routines draw under the identity, one after the
    other. *)
Lemma out_seq_local (a b : cmd) (cv : Canvas) :
  Balanced a -> Balanced b ->
  out ((a ;; b)%cmd (local cv))
  = out (a (local cv)) ++ out (b (local (a (local cv)))).
Proof.
  intros Ha Hb. unfold seq. rewrite (Hb (a (local cv))). cbn [out].
  rewrite (Ha (local cv)) at 1 2. cbn [out ctm local].
  now rewrite !map_prim_map_id.
Qed.

Ltac balanced_body :=
  repeat lazymatch goal with
         | |- Balanced (seq _ _) => apply Balanced_seq
         | |- Balanced (Sketch.drawPlaque _ _ _ _) => apply Balanced_drawPlaque
         | |- Balanced (Sketch.drawWordInPlaque _ _ _ _ _ _) =>
             apply Balanced_drawWordInPlaque
         | |- Balanced (Sketch.drawAmpBadgeBetween _ _ _ _ _) =>
             apply Balanced_drawAmpBadgeBetween
         | |- Balanced (Sketch.drawMountainHint _ _ _) =>
             apply Balanced_drawMountainHint
         | |- Balanced (Sketch.drawSpeedLines _ _ _) =>
             apply Balanced_drawSpeedLines
         end.

Ltac split_body :=
  lazymatch goal with
  | |- prims_within _ (out (seq ?a ?b (local ?cv))) =>
      rewrite (out_seq_local a b cv);
      [ apply prims_within_app; [| split_body]
      | solve [balanced_body] | solve [balanced_body] ]
  | |- _ => idtac
  end.

Lemma drawBody_in_designBox (textWidth : Style -> string -> num) (cv : Canvas) :
  prims_within designBox (out (Sketch.drawBody textWidth (local cv))).
Proof.
  unfold Sketch.drawBody. cbv zeta. split_body.
  - apply mountain_in_designBox.
  - apply speedLines_in_designBox.
  - apply steep_plaque_in_designBox.
  - apply fast_plaque_in_designBox.
  - apply badge_in_designBox.
  - apply steep_word_in_designBox.
  - apply fast_word_in_designBox.
Qed.

End DesignSpace.

(** The inflated bounding box of the literals of [draw] holds the design
    box. *)
Lemma draw_bbox_holds_designBox :
  exists x0 y0 x1 y1 : R,
    inflatedBBox drawLayout = aabbR x0 y0 x1 y1 /\
    x0 <= 0 /\ 1300 <= x1 /\ y0 <= 0 /\ 700 <= y1.
Proof.
  unfold inflatedBBox.
  change drawLayout
    with (layoutR [(120, 120, 900, 220); (260, 330, 920, 220)]
                  (- (14 / 100)) (45 / 100) 16 16 220 120 170 140).
  rewrite fitPoints_layoutR.
  match goal with
  | |- context [map pointR ?l] =>
      let l' := eval lazy beta iota zeta delta
                  [flat_map app map cornersR Spec.corners Spec.skewed] in l in
      change l with l'
  end.
  rewrite aabbFromPoints_cons.
  match goal with
  | |- context [aabbR (fold_left Rmin ?xs ?a) (fold_left Rmin ?ys ?b)
                      (fold_left Rmax ?xs ?a) (fold_left Rmax ?ys ?b)] =>
      destruct (fold_Rmin_spec xs a) as (_ & Hx0 & _);
      destruct (fold_Rmax_spec xs a) as (_ & Hx1 & _);
      destruct (fold_Rmin_spec ys b) as (_ & Hy0 & _);
      destruct (fold_Rmax_spec ys b) as (_ & Hy1 & _);
      assert (L2 : (2 < length xs)%nat) by (cbn [map length]; repeat constructor);
      assert (L12 : (12 < length xs)%nat) by (cbn [map length]; repeat constructor);
      assert (L0 : (0 < length ys)%nat) by (cbn [map length]; repeat constructor);
      assert (L14 : (14 < length ys)%nat) by (cbn [map length]; repeat constructor);
      pose proof (Hx0 (nth 2 xs 0) (nth_In xs 0 L2)) as Bx0;
      pose proof (Hx1 (nth 12 xs 0) (nth_In xs 0 L12)) as Bx1;
      pose proof (Hy0 (nth 0 ys 0) (nth_In ys 0 L0)) as By0;
      pose proof (Hy1 (nth 14 ys 0) (nth_In ys 0 L14)) as By1;
      clear L2 L12 L0 L14 Hx0 Hx1 Hy0 Hy1;
      exists (fold_left Rmin xs a - 220), (fold_left Rmin ys b - 170),
             (fold_left Rmax xs a + 120), (fold_left Rmax ys b + 140);
      split; [reflexivity |];
      generalize dependent (fold_left Rmin xs a);
      generalize dependent (fold_left Rmin ys b);
      generalize dependent (fold_left Rmax xs a);
      generalize dependent (fold_left Rmax ys b)
  end.
  intros My1 By1 My0 By0 Mx1 Bx1 Mx0 Bx0.
  lazy beta iota zeta delta [nth map fst snd Spec.rotateAbout] in Bx0, Bx1, By0, By1.
  rewrite ?cos_neg, ?sin_neg in Bx0, Bx1, By0, By1.
  pose proof slant_bounds as [[Hc0 Hc1] [Hs0 Hs1]].
  repeat split; lra.
Qed.

Lemma fitMatrix_calls (s ox oy : R) :
  mmul (mmul midentity (mkMatrix 1 0 0 1 ox oy)) (mkMatrix s 0 0 s 0 0)
  = fitMatrix s ox oy.
Proof.
  unfold mmul, midentity, fitMatrix. cbn [ma mb mc md me mf].
  apply matrix_eq; ring.
Qed.

(** [draw] on a fresh canvas, given the inflated bounding box. *)
Lemma draw_frame (textWidth : Style -> string -> num) (st : Style)
    (W H x0 y0 x1 y1 : R) :
  inflatedBBox drawLayout = aabbR x0 y0 x1 y1 ->
  x1 - x0 <> 0 -> y1 - y0 <> 0 ->
  let s := scaleR (x1 - x0) (y1 - y0) W H in
  let ox := (W - (x1 - x0) * s) / 2 - x0 * s in
  let oy := (H - (y1 - y0) * s) / 2 - y0 * s in
  let cv' := Sketch.draw textWidth (Fin W) (Fin H) (blank st) in
  draw (Fin W) (Fin H) = fitR s ox oy /\
  ctm cv' = midentity /\ style cv' = st /\ saved cv' = [] /\
  out cv'
  = Background (gray 255)
    :: map (prim_map (fitMatrix s ox oy))
           (out (Sketch.drawBody textWidth (blank st))).
Proof.
  intros Hbb Hw Hh s ox oy cv'.
  assert (Hfit : autoFit drawLayout (Fin W) (Fin H) = fitR s ox oy).
  { unfold autoFit. rewrite Hbb. unfold aabbR.
    now rewrite fitTransform_finite by assumption. }
  split; [exact Hfit |].
  subst cv'. unfold Sketch.draw. cbv zeta. rewrite Hfit.
  unfold fitR, blank, seq.
  lazy beta iota zeta delta
    [P5.background P5.emit P5.push P5.translate P5.scale P5.transform
     offsetX offsetY scale ctm style saved verts out].
  match goal with
  | |- context [Sketch.drawBody textWidth ?X] =>
      rewrite (Balanced_drawBody textWidth X)
  end.
  lazy beta iota zeta delta [P5.pop local ctm style saved verts out].
  rewrite fitMatrix_calls.
  repeat split.
Qed.

(** X18. Every frame is the same design-space picture seen through the
    fit.  For every finite viewport, [draw] on a fresh canvas draws the
    background and then exactly what its drawing part draws under the
    identity matrix, mapped through [translate(ox, oy); scale(s)] with the
    scale and offsets of the auto-fit; the viewport enters nowhere else,
    and the matrix, the style and the stack are given back as found. *)
Theorem draw_is_fit_of_design
    (textWidth : Style -> string -> num) (st : Style) (W H : R) :
  exists s ox oy : R,
    draw (Fin W) (Fin H) = fitR s ox oy /\
    let cv' := Sketch.draw textWidth (Fin W) (Fin H) (blank st) in
    ctm cv' = midentity /\ style cv' = st /\ saved cv' = [] /\
    out cv'
    = Background (gray 255)
      :: map (prim_map (fitMatrix s ox oy))
             (out (Sketch.drawBody textWidth (blank st))).
Proof.
  destruct draw_bbox as (x0 & y0 & x1 & y1 & Hbb & Hw & Hh).
  do 3 eexists.
  apply (draw_frame textWidth st W H x0 y0 x1 y1 Hbb); lra.
Qed.

Lemma prims_within_map (P Q : R * R -> Prop) (M : Matrix) (D : list Prim) :
  (forall q, P q -> Q (mapply M q)) ->
  prims_within P D -> prims_within Q (map (prim_map M) D).
Proof.
  intros HPQ HD. unfold prims_within in *. apply Forall_map.
  eapply Forall_impl; [| exact HD].
  intros [c | st pts | st p q | st m s pos] Hp; cbn [prim_map prim_points] in *.
  - constructor.
  - apply Forall_map. eapply Forall_impl; [| exact Hp]. exact HPQ.
  - inversion Hp as [| ? ? Hp1 Hp2]; subst.
    inversion Hp2 as [| ? ? Hq1 _]; subst.
    repeat constructor; now apply HPQ.
  - constructor.
Qed.

(** X19. The promise of the header, for what can be measured.  For every
    viewport wider and higher than twice the margin, every vertex of every
    shape and every end point of every line that [draw] draws (the
    mountain, the speed lines, both plaques with their shadows, stripes
    and outlines, the badge with its notch, the underline) lies in
    [[18, W - 18] x [18, H - 18]], whatever the widths of the characters.
    The extent of the glyphs and the thickness of the strokes are not
    part of the statement. *)
Theorem draw_keeps_drawing_inside
    (textWidth : Style -> string -> num) (st : Style) (W H : R) :
  W > 2 * 18 -> H > 2 * 18 ->
  prims_within (insideMargins W H)
    (out (Sketch.draw textWidth (Fin W) (Fin H) (blank st))).
Proof.
  intros HW HH.
  destruct draw_bbox_holds_designBox
    as (x0 & y0 & x1 & y1 & Hbb & Hx0 & Hx1 & Hy0 & Hy1).
  destruct (draw_frame textWidth st W H x0 y0 x1 y1 Hbb)
    as (_ & _ & _ & _ & Hout); [lra | lra |].
  rewrite Hout. apply Forall_cons; [constructor |].
  apply (prims_within_map designBox).
  - intros [u v] [Hu Hv]. cbn [fst snd] in Hu, Hv.
    destruct (fit_sends_box_inside x0 y0 x1 y1 W H u v) as [Bu Bv]; try lra.
    unfold insideMargins, mapply, fitMatrix. cbn [fst snd ma mb mc md me mf].
    lra.
  - apply (drawBody_in_designBox textWidth (blank st)).
Qed.

Lemma draw_keeps_drawing_inside_witness :
  prims_within (insideMargins 1000 800)
    (out (Sketch.draw (fun _ _ => Fin 90) (Fin 1000) (Fin 800)
            (blank (mkStyle (Some (gray 255)) (Some (gray 0)) (Fin 1)
                            MITER SQUARE LEFT CENTER (Fin 12))))).
Proof.
  apply (draw_keeps_drawing_inside (fun _ _ => Fin 90)); lra.
Defined.

(** * Rounded arithmetic: what rounding can change *)

Section RoundingFacts.

Variable F : Rounded.Rounding.

Local Abbreviation u := (Rounded.roundoff F).
Local Abbreviation eta := (Rounded.underflow F).
Local Abbreviation rnd := (Rounded.rnd F).

Lemma Rabs_bounds (x a : R) : Rabs x <= a -> - a <= x <= a.
Proof. unfold Rabs. destruct (Rcase_abs x); lra. Qed.

Lemma u_range : 0 <= u <= 1 / 16.
Proof. exact (Rounded.roundoff_range F). Qed.

Lemma eta_range : 0 <= eta.
Proof. exact (Rounded.underflow_range F). Qed.

Lemma rnd_error (x r : R) :
  rnd x = Fin r -> - (u * Rabs x + eta) <= r - x <= u * Rabs x + eta.
Proof.
  intros H. apply Rounded.rnd_accurate in H.
  apply Rabs_bounds in H. exact H.
Qed.

(** The error of a rounding whose exact argument is at most [T] in
    absolute value. *)
Lemma rnd_error_le (x r T : R) :
  rnd x = Fin r -> - T <= x <= T ->
  - (u * T + eta) <= r - x <= u * T + eta.
Proof.
  intros H HT. pose proof (rnd_error x r H) as He.
  pose proof u_range as Hu.
  assert (Rabs x <= T) by (apply Rabs_le; lra).
  assert (u * Rabs x <= u * T) by (apply Rmult_le_compat_l; lra).
  lra.
Qed.

Lemma rnd_zero : rnd 0 = Fin 0.
Proof. apply (Rounded.rnd_integer F 0). vm_compute. discriminate. Qed.

Lemma rnd_two : rnd 2 = Fin 2.
Proof. apply (Rounded.rnd_integer F 2). vm_compute. discriminate. Qed.

Lemma rnd_36 : rnd 36 = Fin 36.
Proof. apply (Rounded.rnd_integer F 36). vm_compute. discriminate. Qed.

Lemma rnd_le (x y a b : R) :
  x <= y -> rnd x = Fin a -> rnd y = Fin b -> a <= b.
Proof.
  intros Hxy Ha Hb. pose proof (Rounded.rnd_monotone F x y Hxy) as H.
  rewrite Ha, Hb in H. exact H.
Qed.

Lemma rnd_nonneg (x r : R) : 0 <= x -> rnd x = Fin r -> 0 <= r.
Proof. intros Hx Hr. exact (rnd_le 0 x 0 r Hx rnd_zero Hr). Qed.

(** A result that rounds to [Infinity] is above every number of the
    format. *)
Lemma rnd_PInf_above (x y : R) :
  rnd x = PInf -> Rounded.representable F y -> y <= x.
Proof.
  intros Hx Hy. destruct (Rle_dec y x) as [H | H]; [exact H |].
  assert (Hle : x <= y) by lra.
  pose proof (Rounded.rnd_monotone F x y Hle) as Hm.
  unfold Rounded.representable in Hy. rewrite Hx, Hy in Hm. destruct Hm.
Qed.

(** ** Finite results come from finite operands *)

Lemma add_Fin_inv (a b : num) (r : R) :
  Rounded.add F a b = Fin r ->
  exists x y, a = Fin x /\ b = Fin y /\ rnd (x + y) = Fin r.
Proof.
  unfold Rounded.add.
  destruct a as [x | | |], b as [y | | |]; cbn; try discriminate.
  intros H. now exists x, y.
Qed.

Lemma sub_Fin_inv (a b : num) (r : R) :
  Rounded.sub F a b = Fin r ->
  exists x y, a = Fin x /\ b = Fin y /\ rnd (x - y) = Fin r.
Proof.
  unfold Rounded.sub.
  destruct a as [x | | |], b as [y | | |]; cbn; try discriminate.
  intros H. now exists x, y.
Qed.

Lemma inf_of_sign_not_Fin (c : comparison) (r : R) :
  Num.inf_of_sign c <> Fin r.
Proof. destruct c; discriminate. Qed.

Lemma mul_Fin_inv (a b : num) (r : R) :
  Rounded.mul F a b = Fin r ->
  exists x y, a = Fin x /\ b = Fin y /\ rnd (x * y) = Fin r.
Proof.
  unfold Rounded.mul.
  destruct a as [x | | |], b as [y | | |]; cbn; try discriminate;
    try (intros H; now exists x, y);
    try (destruct (Num.sgn _); discriminate).
Qed.

(** A finite quotient by a finite non-zero number comes from a finite
    numerator. *)
Lemma div_Fin_inv (a : num) (y r : R) :
  y <> 0 ->
  Rounded.div F a (Fin y) = Fin r ->
  exists x, a = Fin x /\ rnd (x / y) = Fin r.
Proof.
  intros Hy. unfold Rounded.div.
  destruct a as [x | | |]; cbn; try discriminate.
  - assert (Hs : Num.sgn y <> Eq).
    { unfold Num.sgn. destruct (Rlt_dec y 0); [discriminate |].
      destruct (Rlt_dec 0 y); [discriminate | lra]. }
    destruct (Num.sgn y); [congruence | |]; cbn; intros H; now exists x.
  - destruct (Rlt_dec y 0); discriminate.
  - destruct (Rlt_dec y 0); discriminate.
Qed.

End RoundingFacts.

(** ** Error bounds *)

Section ErrorBounds.

Variable F : Rounded.Rounding.

Local Abbreviation u := (Rounded.roundoff F).
Local Abbreviation eta := (Rounded.underflow F).
Local Abbreviation rnd := (Rounded.rnd F).

(** [B] bounds the magnitudes, [u * B + eta] is the unit of error. *)
Variable B : R.
Hypothesis B_nonneg : 0 <= B.

Local Abbreviation E := (u * B + eta).

Lemma small_mul (X : R) : 0 <= X -> 0 <= u * X <= X / 16.
Proof.
  intros HX. pose proof (u_range F) as Hu.
  split; [apply Rmult_le_pos; lra |].
  replace (X / 16) with (1 / 16 * X) by field.
  apply Rmult_le_compat_r; lra.
Qed.

Lemma E_nonneg : 0 <= E.
Proof.
  pose proof (small_mul B B_nonneg). pose proof (eta_range F). lra.
Qed.

Lemma prod_bound (d g D : R) :
  - D <= d <= D -> - (D * Rabs g) <= d * g <= D * Rabs g.
Proof.
  intros Hd. apply Rabs_bounds. rewrite Rabs_mult.
  apply Rmult_le_compat_r; [apply Rabs_pos | apply Rabs_le; lra].
Qed.

(** The rounded sum or difference of two approximations. *)
Lemma sum_step (sg a a' b b' r ka kb cs : R) :
  sg = 1 \/ sg = -1 ->
  0 <= ka -> 0 <= kb -> 1 <= cs ->
  - (ka * E) <= a - a' <= ka * E ->
  - (kb * E) <= b - b' <= kb * E ->
  - (cs * B) <= a' + sg * b' <= cs * B ->
  rnd (a + sg * b) = Fin r ->
  - ((cs + 17 / 16 * (ka + kb)) * E) <= r - (a' + sg * b')
  <= (cs + 17 / 16 * (ka + kb)) * E.
Proof.
  intros Hsg Hka Hkb Hcs Ha Hb Hs Hr.
  pose proof E_nonneg as HE. pose proof (eta_range F) as Heta.
  pose proof (small_mul B B_nonneg) as HuB.
  pose proof (small_mul (u * B) (proj1 HuB)) as HuuB.
  pose proof (small_mul eta Heta) as Hue.
  assert (HkaE : 0 <= ka * E) by (apply Rmult_le_pos; lra).
  assert (HkbE : 0 <= kb * E) by (apply Rmult_le_pos; lra).
  assert (HT : - (cs * B + (ka + kb) * E) <= a + sg * b
               <= cs * B + (ka + kb) * E)
    by (destruct Hsg; subst sg; lra).
  pose proof (rnd_error_le F _ _ _ Hr HT) as He.
  assert (Hk : 0 <= ka + kb) by lra.
  pose proof (small_mul ((ka + kb) * (u * B))
                (Rmult_le_pos _ _ Hk (proj1 HuB))) as H1.
  pose proof (small_mul ((ka + kb) * eta)
                (Rmult_le_pos _ _ Hk Heta)) as H2.
  assert (H3 : 0 <= (cs - 1) * (u * B)) by (apply Rmult_le_pos; lra).
  assert (H4 : 0 <= (cs - 1) * eta) by (apply Rmult_le_pos; lra).
  destruct Hsg; subst sg; lra.
Qed.

Lemma add_step (a a' b b' r ka kb cs : R) :
  0 <= ka -> 0 <= kb -> 1 <= cs ->
  - (ka * E) <= a - a' <= ka * E ->
  - (kb * E) <= b - b' <= kb * E ->
  - (cs * B) <= a' + b' <= cs * B ->
  rnd (a + b) = Fin r ->
  - ((cs + 17 / 16 * (ka + kb)) * E) <= r - (a' + b')
  <= (cs + 17 / 16 * (ka + kb)) * E.
Proof.
  intros Hka Hkb Hcs Ha Hb Hs Hr.
  replace (a' + b') with (a' + 1 * b') by ring.
  apply (sum_step 1 a a' b b' r ka kb cs); auto.
  - now replace (a' + 1 * b') with (a' + b') by ring.
  - now replace (a + 1 * b) with (a + b) by ring.
Qed.

Lemma sub_step (a a' b b' r ka kb cs : R) :
  0 <= ka -> 0 <= kb -> 1 <= cs ->
  - (ka * E) <= a - a' <= ka * E ->
  - (kb * E) <= b - b' <= kb * E ->
  - (cs * B) <= a' - b' <= cs * B ->
  rnd (a - b) = Fin r ->
  - ((cs + 17 / 16 * (ka + kb)) * E) <= r - (a' - b')
  <= (cs + 17 / 16 * (ka + kb)) * E.
Proof.
  intros Hka Hkb Hcs Ha Hb Hs Hr.
  replace (a' - b') with (a' + -1 * b') by ring.
  apply (sum_step (-1) a a' b b' r ka kb cs); auto.
  - now replace (a' + -1 * b') with (a' - b') by ring.
  - now replace (a + -1 * b) with (a - b) by ring.
Qed.

(** The rounded half of an approximation. *)
Lemma half_step (a a' r ka : R) :
  0 <= ka ->
  - (ka * E) <= a - a' <= ka * E ->
  - B <= a' / 2 <= B ->
  rnd (a / 2) = Fin r ->
  - ((1 + 17 / 32 * ka) * E) <= r - a' / 2 <= (1 + 17 / 32 * ka) * E.
Proof.
  intros Hka Ha Hs Hr.
  pose proof E_nonneg as HE. pose proof (eta_range F) as Heta.
  pose proof (small_mul B B_nonneg) as HuB.
  assert (HkaE : 0 <= ka * E) by (apply Rmult_le_pos; lra).
  assert (HT : - (B + ka / 2 * E) <= a / 2 <= B + ka / 2 * E) by lra.
  pose proof (rnd_error_le F _ _ _ Hr HT) as He.
  pose proof (small_mul (ka * (u * B))
                (Rmult_le_pos _ _ Hka (proj1 HuB))) as H1.
  pose proof (small_mul (ka * eta) (Rmult_le_pos _ _ Hka Heta)) as H2.
  lra.
Qed.

(** One coordinate of a rotated corner,
    [p + d1 * g1 + sg * (d2 * g2)], from approximations of [p], [d1] and
    [d2] and the host's [g1] and [g2]. *)
Lemma rot_coord (sg p p' d1 d1' d2 d2' g1 g2 a b d X : R) :
  sg = 1 \/ sg = -1 ->
  - (3 * E) <= p - p' <= 3 * E ->
  - (7 * E) <= d1 - d1' <= 7 * E ->
  - (7 * E) <= d2 - d2' <= 7 * E ->
  - B <= p' <= B -> - B <= d1' <= B -> - B <= d2' <= B ->
  rnd (d1 * g1) = Fin a ->
  rnd (p + a) = Fin b ->
  rnd (d2 * g2) = Fin d ->
  rnd (b + sg * d) = Fin X ->
  Rabs (X - (p' + d1' * g1 + sg * (d2' * g2)))
  <= 12 * E * (1 + Rabs g1 + Rabs g2).
Proof.
  intros Hsg Hp Hd1 Hd2 Hp' Hd1' Hd2' Ha Hb Hd HX.
  pose proof E_nonneg as HE. pose proof (eta_range F) as Heta.
  pose proof (small_mul B B_nonneg) as HuB.
  set (G1 := Rabs g1). set (G2 := Rabs g2).
  assert (HG1 : 0 <= G1) by apply Rabs_pos.
  assert (HG2 : 0 <= G2) by apply Rabs_pos.
  (* the products *)
  assert (Ta : - ((B + 7 * E) * G1) <= d1 * g1 <= (B + 7 * E) * G1)
    by (apply prod_bound; lra).
  assert (Td : - ((B + 7 * E) * G2) <= d2 * g2 <= (B + 7 * E) * G2)
    by (apply prod_bound; lra).
  assert (Da : - (7 * E * G1) <= (d1 - d1') * g1 <= 7 * E * G1)
    by (apply prod_bound; lra).
  assert (Dd : - (7 * E * G2) <= (d2 - d2') * g2 <= 7 * E * G2)
    by (apply prod_bound; lra).
  assert (Ma : - (B * G1) <= d1' * g1 <= B * G1) by (apply prod_bound; lra).
  assert (Md : - (B * G2) <= d2' * g2 <= B * G2) by (apply prod_bound; lra).
  pose proof (rnd_error_le F _ _ _ Ha Ta) as Ea.
  pose proof (rnd_error_le F _ _ _ Hd Td) as Ed.
  (* monomials *)
  assert (P1 : 0 <= B * G1) by (apply Rmult_le_pos; lra).
  assert (P2 : 0 <= B * G2) by (apply Rmult_le_pos; lra).
  assert (P3 : 0 <= eta * G1) by (apply Rmult_le_pos; lra).
  assert (P4 : 0 <= eta * G2) by (apply Rmult_le_pos; lra).
  pose proof (small_mul (B * G1) P1) as Q1.
  pose proof (small_mul (B * G2) P2) as Q2.
  pose proof (small_mul (eta * G1) P3) as Q3.
  pose proof (small_mul (eta * G2) P4) as Q4.
  pose proof (small_mul (u * (B * G1)) (proj1 Q1)) as Q5.
  pose proof (small_mul (u * (B * G2)) (proj1 Q2)) as Q6.
  pose proof (small_mul (u * B) (proj1 HuB)) as Q7.
  pose proof (small_mul eta Heta) as Q8.
  (* a is near d1' * g1 *)
  assert (Na : - (9 * E * G1 + E) <= a - d1' * g1 <= 9 * E * G1 + E).
  { replace (a - d1' * g1) with ((a - d1 * g1) + (d1 - d1') * g1) by ring.
    lra. }
  assert (Nd : - (9 * E * G2 + E) <= d - d2' * g2 <= 9 * E * G2 + E).
  { replace (d - d2' * g2) with ((d - d2 * g2) + (d2 - d2') * g2) by ring.
    lra. }
  (* b is near p' + d1' * g1 *)
  assert (Tb : - (B + B * G1 + (4 * E + 9 * E * G1))
               <= p + a <= B + B * G1 + (4 * E + 9 * E * G1)) by lra.
  pose proof (rnd_error_le F _ _ _ Hb Tb) as Eb.
  assert (Nb : - (7 * E + 11 * E * G1) <= b - (p' + d1' * g1)
               <= 7 * E + 11 * E * G1).
  { replace (b - (p' + d1' * g1))
      with ((b - (p + a)) + (p - p') + (a - d1' * g1)) by ring.
    lra. }
  (* X *)
  assert (TX : - (B + B * G1 + B * G2 + (8 * E + 11 * E * G1 + 9 * E * G2))
               <= b + sg * d
               <= B + B * G1 + B * G2 + (8 * E + 11 * E * G1 + 9 * E * G2))
    by (destruct Hsg; subst sg; lra).
  pose proof (rnd_error_le F _ _ _ HX TX) as EX.
  apply Rabs_le.
  replace (X - (p' + d1' * g1 + sg * (d2' * g2)))
    with ((X - (b + sg * d)) + (b - (p' + d1' * g1)) + sg * (d - d2' * g2))
    by ring.
  fold G1 G2.
  destruct Hsg; subst sg; lra.
Qed.

End ErrorBounds.

(** ** The corners under rounding *)

Lemma Fin_inj (a b : R) : Fin a = Fin b -> a = b.
Proof. intros H. now injection H. Qed.

Lemma Math_cos_Fin_inv (cosH : R -> R) (a : num) (c : R) :
  Rounded.Math_cos cosH a = Fin c -> exists x, a = Fin x /\ cosH x = c.
Proof.
  destruct a as [x | | |]; cbn; try discriminate.
  intros H. exists x. split; [reflexivity | now apply Fin_inj].
Qed.

Lemma Math_sin_Fin_inv (sinH : R -> R) (a : num) (c : R) :
  Rounded.Math_sin sinH a = Fin c -> exists x, a = Fin x /\ sinH x = c.
Proof.
  destruct a as [x | | |]; cbn; try discriminate.
  intros H. exists x. split; [reflexivity | now apply Fin_inj].
Qed.

(** From a finite result to the finite operands and the roundings that
    gave it. *)
Ltac fin_invert :=
  repeat match goal with
  | H : Rounded.add _ _ _ = Fin _ |- _ =>
      apply add_Fin_inv in H; destruct H as (? & ? & ? & ? & H)
  | H : Rounded.sub _ _ _ = Fin _ |- _ =>
      apply sub_Fin_inv in H; destruct H as (? & ? & ? & ? & H)
  | H : Rounded.mul _ _ _ = Fin _ |- _ =>
      apply mul_Fin_inv in H; destruct H as (? & ? & ? & ? & H)
  | H : Rounded.div _ _ (Fin 2) = Fin _ |- _ =>
      apply div_Fin_inv in H; [destruct H as (? & ? & H) | lra]
  | H : Rounded.Math_cos _ _ = Fin _ |- _ =>
      apply Math_cos_Fin_inv in H; destruct H as (? & ? & H)
  | H : Rounded.Math_sin _ _ = Fin _ |- _ =>
      apply Math_sin_Fin_inv in H; destruct H as (? & ? & H)
  | H : Fin ?l = Fin ?r |- _ =>
      apply Fin_inj in H;
      first [ subst r | subst l | clear H ]
  | H : ?l = ?r :> R |- _ =>
      first [ is_var r; subst r | is_var l; subst l ]
  end.

(** One name for the result of each rounding. *)
Ltac same_roundings :=
  repeat match goal with
  | H1 : Rounded.rnd ?F ?t = Fin ?a, H2 : Rounded.rnd ?F ?t = Fin ?b |- _ =>
      first [ constr_eq a b; clear H2
            | assert (b = a) by congruence; subst b; clear H2
            | assert (a = b) by congruence; subst a; clear H2 ]
  end.

Lemma Rabs_self (x : R) : - Rabs x <= x <= Rabs x /\ 0 <= Rabs x.
Proof. unfold Rabs. destruct (Rcase_abs x); lra. Qed.

(** The rounding of an exact product or half of the inputs. *)
Ltac near_input B :=
  match goal with
  | H : Rounded.rnd ?F ?t = Fin ?r |- _ =>
      lazymatch goal with N : _ <= r - _ <= _ |- _ => fail | _ => idtac end;
      lazymatch t with
      | ?a * ?b => is_var a; is_var b
      | ?a / 2 => is_var a
      end;
      let N := fresh "N" in
      assert (N : - (1 * (Rounded.roundoff F * B + Rounded.underflow F))
                  <= r - t
                  <= 1 * (Rounded.roundoff F * B + Rounded.underflow F))
        by (pose proof (rnd_error_le F t r B H); lra)
  end.

(** The exact value an approximated operand stands for, with its error
    in units of [E]. *)
Ltac exact_of B v k :=
  match goal with
  | N : - (?k0 * _) <= v - ?v' <= _ |- _ => k k0 v'
  | H : Rounded.rnd _ _ = Fin v |- _ => fail 1
  | _ => k 0 v
  end.

Ltac near_fact B v :=
  match goal with
  | N : - (_ * _) <= v - _ <= _ |- _ => exact N
  | _ => lra
  end.

(** One rounded sum or difference whose operands are known. *)
Ltac near_sum B :=
  match goal with
  | H : Rounded.rnd ?F (?a + ?b) = Fin ?r |- _ =>
      lazymatch goal with N : _ <= r - _ <= _ |- _ => fail | _ => idtac end;
      exact_of B a ltac:(fun ka a' =>
      exact_of B b ltac:(fun kb b' =>
        let N := fresh "N" in
        pose proof (add_step F B ltac:(assumption) a a' b b' r ka kb 1
                      ltac:(lra) ltac:(lra) ltac:(lra)
                      ltac:(near_fact B a) ltac:(near_fact B b)
                      ltac:(lra) H) as N))
  | H : Rounded.rnd ?F (?a - ?b) = Fin ?r |- _ =>
      lazymatch goal with N : _ <= r - _ <= _ |- _ => fail | _ => idtac end;
      exact_of B a ltac:(fun ka a' =>
      exact_of B b ltac:(fun kb b' =>
        let N := fresh "N" in
        pose proof (sub_step F B ltac:(assumption) a a' b b' r ka kb 1
                      ltac:(lra) ltac:(lra) ltac:(lra)
                      ltac:(near_fact B a) ltac:(near_fact B b)
                      ltac:(lra) H) as N))
  end.

(** One rounded half whose operand is known. *)
Ltac near_half B :=
  match goal with
  | H : Rounded.rnd ?F (?a / 2) = Fin ?r |- _ =>
      lazymatch goal with N : _ <= r - _ <= _ |- _ => fail | _ => idtac end;
      match goal with
      | Na : - (?ka * _) <= a - ?a' <= _ |- _ =>
          let N := fresh "N" in
          pose proof (half_step F B ltac:(assumption) a a' r ka
                        ltac:(lra) Na ltac:(lra) H) as N
      end
  end.

(** One coordinate of a rotated corner: the goal bounds the distance of
    [X] from its ideal value. *)
Ltac rot_goal B HB :=
  lazymatch goal with
  | |- Rabs (?X - _) <= _ =>
      match goal with
      | HX : Rounded.rnd ?F (?b - ?d) = Fin X,
        Hb : Rounded.rnd ?F (?p + ?a) = Fin ?b,
        Ha : Rounded.rnd ?F (?d1 * ?g1) = Fin ?a,
        Hd : Rounded.rnd ?F (?d2 * ?g2) = Fin ?d,
        Np : _ <= ?p - ?p' <= _,
        Nd1 : _ <= ?d1 - ?d1' <= _,
        Nd2 : _ <= ?d2 - ?d2' <= _ |- _ =>
          let HX' := fresh in
          assert (HX' : Rounded.rnd F (b + -1 * d) = Fin X)
            by (replace (b + -1 * d) with (b - d) by ring; exact HX);
          let Hr := fresh in
          pose proof (rot_coord F B HB (-1) p p' d1 d1' d2 d2' g1 g2 a b d X
                        (or_intror eq_refl)
                        ltac:(lra) ltac:(lra) ltac:(lra)
                        ltac:(lra) ltac:(lra) ltac:(lra)
                        Ha Hb Hd HX') as Hr;
          eapply Rle_trans;
            [| eapply Rle_trans; [exact Hr | right; ring]];
          right; f_equal; ring
      | HX : Rounded.rnd ?F (?b + ?d) = Fin X,
        Hb : Rounded.rnd ?F (?p + ?a) = Fin ?b,
        Ha : Rounded.rnd ?F (?d1 * ?g1) = Fin ?a,
        Hd : Rounded.rnd ?F (?d2 * ?g2) = Fin ?d,
        Np : _ <= ?p - ?p' <= _,
        Nd1 : _ <= ?d1 - ?d1' <= _,
        Nd2 : _ <= ?d2 - ?d2' <= _ |- _ =>
          let HX' := fresh in
          assert (HX' : Rounded.rnd F (b + 1 * d) = Fin X)
            by (replace (b + 1 * d) with (b + d) by ring; exact HX);
          let Hr := fresh in
          pose proof (rot_coord F B HB 1 p p' d1 d1' d2 d2' g1 g2 a b d X
                        (or_introl eq_refl)
                        ltac:(lra) ltac:(lra) ltac:(lra)
                        ltac:(lra) ltac:(lra) ltac:(lra)
                        Ha Hb Hd HX') as Hr;
          eapply Rle_trans;
            [| eapply Rle_trans; [exact Hr | right; ring]];
          right; f_equal; ring
      end
  end.

Section Corners.

Variable F : Rounded.Rounding.
Variables cosH sinH : R -> R.

Local Abbreviation u := (Rounded.roundoff F).
Local Abbreviation eta := (Rounded.underflow F).
Local Abbreviation rnd := (Rounded.rnd F).

Lemma plaqueCorners_near (x y w h ang k : R) (ps : list (R * R)) :
  Rounded.plaqueCorners F cosH sinH (rectR x y w h) (Fin ang) (Fin k)
  = map pointR ps ->
  let E := u * (Rabs x + Rabs y + Rabs w + Rabs h + Rabs (h * k)) + eta in
  Forall2 (near (12 * E * (1 + Rabs (cosH ang) + Rabs (sinH ang))))
          ps (idealCorners (cosH ang) (sinH ang) x y w h k).
Proof.
  intros Hps E.
  destruct ps as [| [X1 Y1] [| [X2 Y2] [| [X3 Y3] [| [X4 Y4] [| ? ?]]]]];
    try discriminate.
  unfold Rounded.plaqueCorners, rectR, pointR in Hps.
  cbn [map rx ry rw rh px py fst snd Rounded.Math_cos Rounded.Math_sin] in Hps.
  injection Hps as HX1 HY1 HX2 HY2 HX3 HY3 HX4 HY4.
  fin_invert. same_roundings.
  (* the inputs *)
  set (B := Rabs x + Rabs y + Rabs w + Rabs h + Rabs (h * k)) in *.
  pose proof (Rabs_self x) as Ix. pose proof (Rabs_self y) as Iy.
  pose proof (Rabs_self w) as Iw. pose proof (Rabs_self h) as Ih.
  pose proof (Rabs_self (h * k)) as Ihk.
  assert (HB : 0 <= B) by (subst B; lra).
  assert (HBdef : B = Rabs x + Rabs y + Rabs w + Rabs h + Rabs (h * k))
    by reflexivity.
  pose proof (E_nonneg F B HB) as HE.
  (* the unrotated corners, the centre and the offsets from it *)
  subst E.
  repeat near_input B. repeat near_sum B.
  (* the rotated corners *)
  unfold idealCorners, Spec.skewed. cbn [map fst snd].
  repeat (apply Forall2_cons; [split; cbn [fst snd] |]); [.. | apply Forall2_nil].
  all: rot_goal B HB.
Qed.

End Corners.

Lemma near_triangle (e1 e2 e : R) (p q r : R * R) :
  near e1 p q -> near e2 q r -> e1 + e2 <= e -> near e p r.
Proof.
  intros [H1 H2] [H3 H4] He.
  apply Rabs_bounds in H1, H2, H3, H4.
  split; apply Rabs_le; lra.
Qed.

Lemma idealCorners_centre (c s x y w h k : R) :
  exists q1 q2 q3 q4,
    idealCorners c s x y w h k = [q1; q2; q3; q4] /\
    average4 q1 q2 q3 q4 = (x + w / 2, y + h / 2).
Proof.
  unfold idealCorners, Spec.skewed. cbn [map fst snd].
  do 4 eexists. split; [reflexivity |].
  unfold average4. cbn [fst snd]. f_equal; field.
Qed.

Lemma idealCorners_shift (c s x y w h k dx dy : R) :
  idealCorners c s (x + dx) (y + dy) w h k
  = map (fun p => (fst p + dx, snd p + dy)) (idealCorners c s x y w h k).
Proof.
  unfold idealCorners, Spec.skewed. cbn [map fst snd].
  repeat (f_equal; try ring).
Qed.

(** C9, amended.  In rounded arithmetic, whenever [plaqueCorners] returns
    four finite points, their average is within
    [12 (u B + eta) (1 + |c| + |s|)] of the centre [(x + w/2, y + h/2)] of
    the rectangle on both axes, where
    [B = |x| + |y| + |w| + |h| + |h skewK|], [c] and [s] are the cosine
    and the sine the host returns, [u] is the unit roundoff and [eta] the
    underflow unit.  Without rounding ([u = eta = 0]) the average is the
    centre. *)
Theorem plaqueCorners_centroid_near
    (F : Rounded.Rounding) (cosH sinH : R -> R)
    (x y w h ang k : R) (p1 p2 p3 p4 : R * R) :
  Rounded.plaqueCorners F cosH sinH (rectR x y w h) (Fin ang) (Fin k)
  = map pointR [p1; p2; p3; p4] ->
  let B := Rabs x + Rabs y + Rabs w + Rabs h + Rabs (h * k) in
  let e := 12 * (Rounded.roundoff F * B + Rounded.underflow F)
           * (1 + Rabs (cosH ang) + Rabs (sinH ang)) in
  near e (average4 p1 p2 p3 p4) (x + w / 2, y + h / 2).
Proof.
  intros Hps B e.
  pose proof (plaqueCorners_near F cosH sinH x y w h ang k _ Hps) as Hn.
  cbv zeta in Hn. fold B in Hn. fold e in Hn.
  destruct (idealCorners_centre (cosH ang) (sinH ang) x y w h k)
    as (q1 & q2 & q3 & q4 & Hq & Havg).
  rewrite Hq in Hn. rewrite <- Havg.
  inversion Hn as [| ? ? ? ? [A1 B1] Hn1]; subst.
  inversion Hn1 as [| ? ? ? ? [A2 B2] Hn2]; subst.
  inversion Hn2 as [| ? ? ? ? [A3 B3] Hn3]; subst.
  inversion Hn3 as [| ? ? ? ? [A4 B4] Hn4]; subst.
  apply Rabs_bounds in A1, A2, A3, A4, B1, B2, B3, B4.
  unfold average4. split; cbn [fst snd]; apply Rabs_le; lra.
Qed.

(** The exact rounding computes what the exact model computes. *)
Lemma exact_corners (x y w h k : R) :
  Rounded.plaqueCorners Rounded.exact cos sin (rectR x y w h) (Fin 0) (Fin k)
  = map pointR (Spec.skewed x y w h (h * k)).
Proof.
  unfold Rounded.plaqueCorners, rectR, Spec.skewed, pointR.
  cbn [map rx ry rw rh px py fst snd Rounded.Math_cos Rounded.Math_sin].
  rewrite cos_0, sin_0.
  unfold Rounded.add, Rounded.sub, Rounded.mul, Rounded.div.
  cbn [Num.add Num.sub Num.mul Rounded.round Rounded.rnd Rounded.exact].
  rewrite !div_Fin_2.
  cbn [Num.add Num.sub Num.mul Rounded.round Rounded.rnd Rounded.exact].
  repeat (f_equal; try (apply pointR_eq; field)).
Qed.

Lemma plaqueCorners_centroid_near_witness :
  near (12 * (0 * (Rabs 0 + Rabs 0 + Rabs 900 + Rabs 220
                   + Rabs (220 * (45 / 100))) + 0)
        * (1 + Rabs (cos 0) + Rabs (sin 0)))
       (average4 (0 + 220 * (45 / 100), 0) (0 + 900 + 220 * (45 / 100), 0)
                 (0 + 900 - 220 * (45 / 100), 0 + 220)
                 (0 - 220 * (45 / 100), 0 + 220))
       (0 + 900 / 2, 0 + 220 / 2).
Proof.
  apply (plaqueCorners_centroid_near Rounded.exact cos sin 0 0 900 220 0
           (45 / 100)).
  apply exact_corners.
Defined.

(** Finite corners come from a rectangle with a finite origin. *)
Lemma plaqueCorners_finite_origin
    (F : Rounded.Rounding) (cosH sinH : R -> R)
    (X Y : num) (w h ang k : R) (qs : list (R * R)) :
  Rounded.plaqueCorners F cosH sinH (mkRect X Y (Fin w) (Fin h))
    (Fin ang) (Fin k)
  = map pointR qs ->
  exists x y, X = Fin x /\ Y = Fin y.
Proof.
  intros Hqs.
  destruct qs as [| [X1 Y1] qs]; [discriminate |].
  unfold Rounded.plaqueCorners, pointR in Hqs.
  cbn [map rx ry rw rh px py fst snd Rounded.Math_cos Rounded.Math_sin] in Hqs.
  injection Hqs as HX1 HY1 _.
  apply sub_Fin_inv in HX1. destruct HX1 as (a & b & HX1 & _).
  apply add_Fin_inv in HX1. destruct HX1 as (cx & m & HX1 & _).
  apply add_Fin_inv in HX1. destruct HX1 as (x & hw & HX1 & _).
  apply add_Fin_inv in HY1. destruct HY1 as (a' & b' & HY1 & _).
  apply add_Fin_inv in HY1. destruct HY1 as (cy & m' & HY1 & _).
  apply add_Fin_inv in HY1. destruct HY1 as (y & hh & HY1 & _).
  now exists x, y.
Qed.

Lemma near_weaken (e e' : R) (p q : R * R) : near e p q -> e <= e' -> near e' p q.
Proof. intros [H1 H2] He. split; lra. Qed.

Lemma Forall2_near_weaken (e e' : R) (ps qs : list (R * R)) :
  Forall2 (near e) ps qs -> e <= e' -> Forall2 (near e') ps qs.
Proof.
  intros H He. induction H; constructor; [eapply near_weaken; eauto | assumption].
Qed.

Lemma near_sym (e : R) (p q : R * R) : near e p q -> near e q p.
Proof.
  intros [H1 H2]. split; rewrite Rabs_minus_sym; assumption.
Qed.

(** Corners near ideal corners, and moved corners near the ideal corners
    moved a little differently. *)
Lemma Forall2_near_moved (ea eb d e dx dy tx ty : R) (ps ids qs : list (R * R)) :
  Forall2 (near ea) ps ids ->
  Forall2 (near eb) qs (map (fun p => (fst p + tx, snd p + ty)) ids) ->
  - d <= tx - dx <= d -> - d <= ty - dy <= d ->
  ea + eb + d <= e ->
  Forall2 (near e) qs (map (fun p => (fst p + dx, snd p + dy)) ps).
Proof.
  intros Np. revert qs.
  induction Np as [| p i ps ids Hpi Np IH]; intros qs Nq Hx Hy He.
  - inversion Nq. constructor.
  - inversion Nq as [| q j qs' js Hqj Nq' ]; subst. cbn [map].
    constructor; [| now apply IH].
    destruct Hpi as [A1 A2], Hqj as [B1 B2]. cbn [fst snd] in *.
    apply Rabs_bounds in A1, A2, B1, B2.
    split; cbn [fst snd]; apply Rabs_le; lra.
Qed.

(** C10, amended.  In rounded arithmetic, whenever the corners of a
    rectangle and the corners of the rectangle moved by [(dx, dy)] are
    finite, each corner of the moved rectangle is within
    [28 (u B + eta) (1 + |c| + |s|)] of the corresponding corner moved by
    [(dx, dy)], on both axes, where
    [B = |x| + |y| + |w| + |h| + |h skewK| + |dx| + |dy|]; without
    rounding it is the moved corner.  The point set of the fit is the
    corners of the plaques followed by the corners of the plaques moved
    by the shadow offset. *)
Theorem plaqueCorners_offsetRect_near
    (F : Rounded.Rounding) (cosH sinH : R -> R)
    (x y w h dx dy ang k : R) (ps qs : list (R * R)) :
  Rounded.plaqueCorners F cosH sinH (rectR x y w h) (Fin ang) (Fin k)
  = map pointR ps ->
  Rounded.plaqueCorners F cosH sinH
    (Rounded.offsetRect F (rectR x y w h) (Fin dx) (Fin dy)) (Fin ang) (Fin k)
  = map pointR qs ->
  let B := Rabs x + Rabs y + Rabs w + Rabs h + Rabs (h * k)
           + Rabs dx + Rabs dy in
  let e := 28 * (Rounded.roundoff F * B + Rounded.underflow F)
           * (1 + Rabs (cosH ang) + Rabs (sinH ang)) in
  Forall2 (near e) qs (map (fun p => (fst p + dx, snd p + dy)) ps) /\
  forall L : Layout,
    Rounded.fitPoints F cosH sinH L
    = flat_map (fun b => Rounded.plaqueCorners F cosH sinH b (slant L) (skewK L))
               (plaques L)
      ++ flat_map
           (fun b =>
              Rounded.plaqueCorners F cosH sinH
                (Rounded.offsetRect F b (px (shadowOff L)) (py (shadowOff L)))
                (slant L) (skewK L))
           (plaques L).
Proof.
  intros Hps Hqs B e. split; [| reflexivity].
  unfold Rounded.offsetRect, rectR in Hqs. cbn [rx ry rw rh] in Hqs.
  destruct (plaqueCorners_finite_origin F cosH sinH _ _ w h ang k qs Hqs)
    as (xt & yt & Hxt & Hyt).
  rewrite Hxt, Hyt in Hqs.
  unfold Rounded.add in Hxt, Hyt.
  cbn [Num.add Rounded.round] in Hxt, Hyt.
  pose proof (plaqueCorners_near F cosH sinH x y w h ang k ps Hps) as Np.
  pose proof (plaqueCorners_near F cosH sinH xt yt w h ang k qs Hqs) as Nq.
  cbv zeta in Np, Nq.
  pose proof (u_range F) as Hu. pose proof (eta_range F) as Heta.
  pose proof (Rabs_self x) as Ix. pose proof (Rabs_self y) as Iy.
  pose proof (Rabs_self dx) as Idx. pose proof (Rabs_self dy) as Idy.
  pose proof (Rabs_self w) as Iw. pose proof (Rabs_self h) as Ih.
  pose proof (Rabs_self (h * k)) as Ihk.
  pose proof (Rabs_self xt) as Ixt. pose proof (Rabs_self yt) as Iyt.
  set (C := 1 + Rabs (cosH ang) + Rabs (sinH ang)) in *.
  assert (HC : 1 <= C)
    by (subst C; pose proof (Rabs_pos (cosH ang));
        pose proof (Rabs_pos (sinH ang)); lra).
  assert (HB : 0 <= B) by (subst B; lra).
  set (E := Rounded.roundoff F * B + Rounded.underflow F) in *.
  pose proof (E_nonneg F B HB) as HE. fold E in HE.
  (* the moved origin *)
  assert (Tx : - B <= x + dx <= B) by (subst B; lra).
  assert (Ty : - B <= y + dy <= B) by (subst B; lra).
  pose proof (rnd_error_le F _ _ _ Hxt Tx) as Ext. fold E in Ext.
  pose proof (rnd_error_le F _ _ _ Hyt Ty) as Eyt. fold E in Eyt.
  (* the two units of error *)
  set (E0 := Rounded.roundoff F
             * (Rabs x + Rabs y + Rabs w + Rabs h + Rabs (h * k))
             + Rounded.underflow F) in *.
  set (Et := Rounded.roundoff F
             * (Rabs xt + Rabs yt + Rabs w + Rabs h + Rabs (h * k))
             + Rounded.underflow F) in *.
  assert (HE0 : 0 <= E0 <= E).
  { subst E0 E B. split.
    - apply E_nonneg. lra.
    - apply Rplus_le_compat_r. apply Rmult_le_compat_l; lra. }
  assert (HEt : 0 <= Et <= 9 / 8 * E).
  { subst Et. split; [apply E_nonneg; lra |].
    assert (Hm : Rabs xt + Rabs yt + Rabs w + Rabs h + Rabs (h * k)
                 <= B + 2 * E).
    { assert (Rabs xt <= Rabs x + Rabs dx + E) by (apply Rabs_le; lra).
      assert (Rabs yt <= Rabs y + Rabs dy + E) by (apply Rabs_le; lra).
      subst B. lra. }
    pose proof (Rmult_le_compat_l _ _ _ (proj1 Hu) Hm) as Hm'.
    pose proof (small_mul F E HE) as HuE.
    subst E. lra. }
  assert (HEC : E <= E * C).
  { replace E with (E * 1) at 1 by ring. apply Rmult_le_compat_l; lra. }
  assert (HE0C : 12 * E0 * C <= 12 * E * C).
  { apply Rmult_le_compat_r; lra. }
  assert (HEtC : 12 * Et * C <= 12 * (9 / 8 * E) * C).
  { apply Rmult_le_compat_r; lra. }
  (* corner by corner *)
  assert (Hsh : idealCorners (cosH ang) (sinH ang) xt yt w h k
                = map (fun p => (fst p + (xt - x), snd p + (yt - y)))
                      (idealCorners (cosH ang) (sinH ang) x y w h k)).
  { rewrite <- idealCorners_shift. f_equal; ring. }
  rewrite Hsh in Nq.
  apply (Forall2_near_moved (12 * E0 * C) (12 * Et * C) E e dx dy
           (xt - x) (yt - y) ps _ qs Np Nq); [lra | lra |].
  subst e. fold E. lra.
Qed.

(** ** The fit under rounding *)

Section Fit.

Variable F : Rounded.Rounding.

Local Abbreviation u := (Rounded.roundoff F).
Local Abbreviation eta := (Rounded.underflow F).
Local Abbreviation rnd := (Rounded.rnd F).

(** A result between two results with finite roundings has a finite
    rounding between them. *)
Lemma rnd_between (x y z a c : R) :
  x <= y -> y <= z -> rnd x = Fin a -> rnd z = Fin c ->
  exists b, rnd y = Fin b /\ a <= b <= c.
Proof.
  intros Hxy Hyz Ha Hc.
  pose proof (Rounded.rnd_monotone F x y Hxy) as H1.
  pose proof (Rounded.rnd_monotone F y z Hyz) as H2.
  rewrite Ha in H1. rewrite Hc in H2.
  destruct (rnd y) as [b | | |]; cbn in H1, H2; try contradiction.
  now exists b.
Qed.

(** The offset of one axis: [ox] is within [5 E] of
    [(W - w s) / 2 - x0 s]. *)
Lemma axis_offset (W w x0 s t m hf q ox : R) :
  0 <= W -> 0 <= w * s ->
  rnd (w * s) = Fin t ->
  rnd (W - t) = Fin m ->
  rnd (m / 2) = Fin hf ->
  rnd (x0 * s) = Fin q ->
  rnd (hf - q) = Fin ox ->
  let E := u * (W + w * s + Rabs (x0 * s)) + eta in
  - (5 * E) <= ox - ((W - w * s) / 2 - x0 * s) <= 5 * E.
Proof.
  intros HW HP Ht Hm Hhf Hq Hox E.
  set (B := W + w * s + Rabs (x0 * s)) in *.
  pose proof (Rabs_self (x0 * s)) as IQ.
  assert (HBdef : B = W + w * s + Rabs (x0 * s)) by reflexivity.
  assert (HB : 0 <= B) by lra.
  pose proof (E_nonneg F B HB) as HE.
  subst E.
  repeat near_input B. repeat first [near_sum B | near_half B].
  match goal with
  | N : _ <= ox - _ <= _ |- _ => lra
  end.
Qed.

(** The scale never makes the box wider than the viewport without its
    margins, up to rounding. *)
Lemma scale_upper (W w a0 s : R) :
  W > 36 -> w > 0 -> 0 <= s ->
  rnd (W - 36) = Fin a0 ->
  Rounded.le (Fin s) (rnd (a0 / w)) ->
  Rounded.representable F s ->
  w * s <= W - 36 + 3 * (u * W) + eta * (2 + w).
Proof.
  intros HW Hw Hs Ha Hle Hrep.
  pose proof (u_range F) as Hu. pose proof (eta_range F) as Heta.
  assert (TW : - W <= W - 36 <= W) by lra.
  pose proof (rnd_error_le F _ _ _ Ha TW) as Ea.
  assert (Ha0 : 0 <= a0) by (apply (rnd_nonneg F (W - 36)); [lra | exact Ha]).
  assert (HuW : 0 <= W) by lra.
  pose proof (small_mul F W HuW) as H1.
  pose proof (small_mul F (u * W) (proj1 H1)) as H2.
  pose proof (small_mul F eta Heta) as H3.
  pose proof (small_mul F a0 Ha0) as H4.
  assert (Hua : u * a0 <= u * (W + (u * W + eta))).
  { apply Rmult_le_compat_l; lra. }
  assert (Hew : 0 <= eta * w) by (apply Rmult_le_pos; lra).
  assert (Hq : 0 <= a0 / w) by (apply Rmult_le_pos; [lra | left; now apply Rinv_0_lt_compat]).
  destruct (rnd (a0 / w)) as [sx | | |] eqn:Hsx; cbn in Hle; try contradiction.
  - assert (Tq : - (a0 / w) <= a0 / w <= a0 / w) by lra.
    pose proof (rnd_error_le F _ _ _ Hsx Tq) as Eq.
    assert (Hm : w * s <= w * (a0 / w + (u * (a0 / w) + eta))).
    { apply Rmult_le_compat_l; lra. }
    replace (w * (a0 / w + (u * (a0 / w) + eta)))
      with (a0 + u * a0 + eta * w) in Hm by (field; lra).
    lra.
  - pose proof (rnd_PInf_above F _ _ Hsx Hrep) as Hsa.
    assert (Hm : w * s <= w * (a0 / w)) by (apply Rmult_le_compat_l; lra).
    replace (w * (a0 / w)) with a0 in Hm by (field; lra).
    lra.
Qed.

(** On the binding axis the scaled box is as wide as the viewport without
    its margins, up to rounding. *)
Lemma scale_lower (W w a0 s : R) :
  W > 36 -> w > 0 ->
  rnd (W - 36) = Fin a0 ->
  rnd (a0 / w) = Fin s ->
  W - 36 - 3 * (u * W) - eta * (2 + w) <= w * s.
Proof.
  intros HW Hw Ha Hsx.
  pose proof (u_range F) as Hu. pose proof (eta_range F) as Heta.
  assert (TW : - W <= W - 36 <= W) by lra.
  pose proof (rnd_error_le F _ _ _ Ha TW) as Ea.
  assert (Ha0 : 0 <= a0) by (apply (rnd_nonneg F (W - 36)); [lra | exact Ha]).
  assert (HuW : 0 <= W) by lra.
  pose proof (small_mul F W HuW) as H1.
  pose proof (small_mul F (u * W) (proj1 H1)) as H2.
  pose proof (small_mul F eta Heta) as H3.
  pose proof (small_mul F a0 Ha0) as H4.
  assert (Hua : u * a0 <= u * (W + (u * W + eta))).
  { apply Rmult_le_compat_l; lra. }
  assert (Hew : 0 <= eta * w) by (apply Rmult_le_pos; lra).
  assert (Hq : 0 <= a0 / w)
    by (apply Rmult_le_pos; [lra | left; now apply Rinv_0_lt_compat]).
  assert (Tq : - (a0 / w) <= a0 / w <= a0 / w) by lra.
  pose proof (rnd_error_le F _ _ _ Hsx Tq) as Eq.
  assert (Hm : w * (a0 / w - (u * (a0 / w) + eta)) <= w * s).
  { apply Rmult_le_compat_l; lra. }
  replace (w * (a0 / w - (u * (a0 / w) + eta)))
    with (a0 - u * a0 - eta * w) in Hm by (field; lra).
  lra.
Qed.

(** The computed width stands for the distance of the bounds, up to
    rounding. *)
Lemma width_spread (x0 x1 w s : R) :
  rnd (x1 - x0) = Fin w -> w > 0 -> 0 <= s ->
  0 < x1 - x0 /\
  - (16 / 15 * (u * (w * s) + eta * s)) <= s * (x1 - x0) - w * s
  <= 16 / 15 * (u * (w * s) + eta * s).
Proof.
  intros Hw Hpos Hs.
  pose proof (u_range F) as Hu. pose proof (eta_range F) as Heta.
  assert (HD : 0 < x1 - x0).
  { destruct (Rlt_dec 0 (x1 - x0)) as [H | H]; [exact H |].
    assert (H0 : x1 - x0 <= 0) by lra.
    pose proof (rnd_le F _ _ _ _ H0 Hw (rnd_zero F)). lra. }
  split; [exact HD |].
  set (D := x1 - x0) in *.
  assert (TD : - D <= D <= D) by lra.
  pose proof (rnd_error_le F _ _ _ Hw TD) as Ew.
  pose proof (small_mul F D (Rlt_le _ _ HD)) as H1.
  pose proof (small_mul F eta Heta) as H2.
  pose proof (small_mul F w (Rlt_le _ _ Hpos)) as H3.
  assert (HuD : u * D <= u * (16 / 15 * (w + eta))).
  { apply Rmult_le_compat_l; lra. }
  assert (Hd : - (16 / 15 * (u * w + eta)) <= D - w
               <= 16 / 15 * (u * w + eta)) by lra.
  assert (Hm1 : (D - w) * s <= 16 / 15 * (u * w + eta) * s)
    by (apply Rmult_le_compat_r; lra).
  assert (Hm2 : - (16 / 15 * (u * w + eta)) * s <= (D - w) * s)
    by (apply Rmult_le_compat_r; lra).
  lra.
Qed.

(** One axis of the fit: the two edges of the box land inside the
    margins, and on the binding axis on the margins, up to
    [e = 8 (u (W + w s + |x0 s|) + eta (1 + w + s))]. *)
Lemma axis_inside (W w x0 x1 a0 s t m hf q ox : R) :
  W > 36 -> w > 0 -> 0 <= s ->
  rnd (x1 - x0) = Fin w ->
  rnd (W - 36) = Fin a0 ->
  Rounded.le (Fin s) (rnd (a0 / w)) ->
  Rounded.representable F s ->
  rnd (w * s) = Fin t ->
  rnd (W - t) = Fin m ->
  rnd (m / 2) = Fin hf ->
  rnd (x0 * s) = Fin q ->
  rnd (hf - q) = Fin ox ->
  let e := 8 * (u * (W + w * s + Rabs (x0 * s)) + eta * (1 + w + s)) in
  (18 - e <= x0 * s + ox /\ x0 * s + ox <= x1 * s + ox
   /\ x1 * s + ox <= W - 18 + e) /\
  (rnd (a0 / w) = Fin s ->
   x0 * s + ox <= 18 + e /\ W - 18 - e <= x1 * s + ox).
Proof.
  intros HW Hw Hs Hwd Ha Hle Hrep Ht Hm Hhf Hq Hox e.
  pose proof (u_range F) as Hu. pose proof (eta_range F) as Heta.
  assert (HP : 0 <= w * s) by (apply Rmult_le_pos; lra).
  pose proof (axis_offset W w x0 s t m hf q ox ltac:(lra) HP Ht Hm Hhf Hq Hox)
    as Hoff.
  cbv zeta in Hoff.
  pose proof (scale_upper W w a0 s HW Hw Hs Ha Hle Hrep) as Hup.
  destruct (width_spread x0 x1 w s Hwd Hw Hs) as [HD Hsp].
  pose proof (Rabs_self (x0 * s)) as IQ.
  assert (HsD : 0 <= s * (x1 - x0)) by (apply Rmult_le_pos; lra).
  assert (HuW : 0 <= W) by lra.
  pose proof (small_mul F W HuW) as H1.
  pose proof (small_mul F (w * s) HP) as H2.
  pose proof (small_mul F (Rabs (x0 * s)) (proj2 IQ)) as H3.
  assert (H4 : 0 <= eta * w) by (apply Rmult_le_pos; lra).
  assert (H5 : 0 <= eta * s) by (apply Rmult_le_pos; lra).
  subst e.
  split; [split; [| split] |].
  - lra.
  - lra.
  - lra.
  - intros Hbind.
    pose proof (scale_lower W w a0 s HW Hw Ha Hbind) as Hlo.
    split; lra.
Qed.

End Fit.

Lemma Math_min_Fin (a b : num) (s : R) :
  Num.Math_min a b = Fin s ->
  Rounded.le (Fin s) a /\ Rounded.le (Fin s) b /\ (a = Fin s \/ b = Fin s).
Proof.
  destruct a as [x | | |], b as [y | | |]; cbn; try discriminate;
    intros H; apply Fin_inj in H; subst s.
  - unfold Rmin. destruct (Rle_dec x y); repeat split; try lra; auto.
  - repeat split; try lra; auto.
  - repeat split; try lra; auto.
Qed.

Section FitOfLayout.

Variable F : Rounded.Rounding.
Variables cosH sinH : R -> R.

Local Abbreviation u := (Rounded.roundoff F).
Local Abbreviation eta := (Rounded.underflow F).
Local Abbreviation rnd := (Rounded.rnd F).

(** The width and the height of the inflated box are the rounded
    distances of its bounds. *)
Lemma inflatedBBox_sizes (L : Layout) (x0 y0 x1 y1 w h : R) :
  Rounded.inflatedBBox F cosH sinH L
  = mkAABB (Fin x0) (Fin y0) (Fin x1) (Fin y1) (Fin w) (Fin h) ->
  rnd (x1 - x0) = Fin w /\ rnd (y1 - y0) = Fin h.
Proof.
  unfold Rounded.inflatedBBox, Rounded.inflate.
  intros H. injection H as H0 H1 H2 H3 H4 H5.
  rewrite H0, H2 in H4. rewrite H1, H3 in H5.
  split; assumption.
Qed.

Lemma margins_36 : Rounded.mul F (Fin 2) padPx = Fin 36.
Proof.
  unfold Rounded.mul, padPx. cbn [Num.mul Rounded.round].
  replace (2 * 18) with 36 by lra. apply rnd_36.
Qed.

(** The viewport without its margins has a finite rounding. *)
Lemma inner_size (W : R) :
  W > 36 -> Rounded.representable F W ->
  exists a, Rounded.sub F (Fin W) (Fin 36) = Fin a /\ rnd (W - 36) = Fin a.
Proof.
  intros HW HrW.
  destruct (rnd_between F 0 (W - 36) W 0 W) as (a & Ha & _);
    [lra | lra | apply rnd_zero | exact HrW |].
  exists a. split; [| exact Ha].
  unfold Rounded.sub. cbn [Num.sub Rounded.round]. exact Ha.
Qed.

Lemma div_Fin_pos (a w : R) :
  w > 0 -> Rounded.div F (Fin a) (Fin w) = rnd (a / w).
Proof.
  intros Hw. unfold Rounded.div. rewrite div_Fin by lra. reflexivity.
Qed.

(** What a finite fit consists of. *)
Lemma fitTransform_parts (x0 y0 w h W H s ox oy : R) (mxX mxY : num) :
  w > 0 -> h > 0 -> W > 36 -> H > 36 ->
  Rounded.representable F W -> Rounded.representable F H ->
  Rounded.fitTransform F (mkAABB (Fin x0) (Fin y0) mxX mxY (Fin w) (Fin h))
    (Fin W) (Fin H)
  = fitR s ox oy ->
  exists a0 b0,
    rnd (W - 36) = Fin a0 /\ rnd (H - 36) = Fin b0 /\
    Num.Math_min (rnd (a0 / w)) (rnd (b0 / h)) = Fin s /\
    (exists t m hf q,
       rnd (w * s) = Fin t /\ rnd (W - t) = Fin m /\ rnd (m / 2) = Fin hf /\
       rnd (x0 * s) = Fin q /\ rnd (hf - q) = Fin ox) /\
    (exists t m hf q,
       rnd (h * s) = Fin t /\ rnd (H - t) = Fin m /\ rnd (m / 2) = Fin hf /\
       rnd (y0 * s) = Fin q /\ rnd (hf - q) = Fin oy).
Proof.
  intros Hw Hh HW HH HrW HrH Hfit.
  unfold Rounded.fitTransform, fitR in Hfit. cbn [bw bh minX minY] in Hfit.
  rewrite margins_36 in Hfit.
  destruct (inner_size W HW HrW) as (a0 & Ea & Ha).
  destruct (inner_size H HH HrH) as (b0 & Eb & Hb).
  rewrite Ea, Eb in Hfit. rewrite !div_Fin_pos in Hfit by assumption.
  injection Hfit as Hs Hox Hoy.
  rewrite Hs in Hox, Hoy.
  exists a0, b0. repeat (split; [assumption |]).
  split.
  - fin_invert. do 4 eexists. repeat split; eassumption.
  - fin_invert. do 4 eexists. repeat split; eassumption.
Qed.

(** The scale is a non-negative number of the format. *)
Lemma scale_parts (W H w h a0 b0 s : R) :
  W > 36 -> H > 36 -> w > 0 -> h > 0 ->
  rnd (W - 36) = Fin a0 -> rnd (H - 36) = Fin b0 ->
  Num.Math_min (rnd (a0 / w)) (rnd (b0 / h)) = Fin s ->
  0 <= s /\ Rounded.representable F s.
Proof.
  intros HW HH Hw Hh Ha Hb Hs.
  assert (Ha0 : 0 <= a0) by (apply (rnd_nonneg F (W - 36)); [lra | exact Ha]).
  assert (Hb0 : 0 <= b0) by (apply (rnd_nonneg F (H - 36)); [lra | exact Hb]).
  assert (Hqa : 0 <= a0 / w)
    by (apply Rmult_le_pos; [lra | left; now apply Rinv_0_lt_compat]).
  assert (Hqb : 0 <= b0 / h)
    by (apply Rmult_le_pos; [lra | left; now apply Rinv_0_lt_compat]).
  destruct (Math_min_Fin _ _ _ Hs) as (_ & _ & [Hx | Hy]).
  - split; [exact (rnd_nonneg F _ _ Hqa Hx) |].
    exact (Rounded.rnd_idempotent F _ _ Hx).
  - split; [exact (rnd_nonneg F _ _ Hqb Hy) |].
    exact (Rounded.rnd_idempotent F _ _ Hy).
Qed.

End FitOfLayout.

(** C1, amended.  In rounded arithmetic, let the inflated bounding box of
    a layout be finite with positive width [w] and height [h], let the
    viewport sizes [W > 2 padPx] and [H > 2 padPx] be numbers of the
    format, and let the fit be finite.  Then [translate(ox, oy); scale(s)]
    sends each of the four corners of the box into
    [[padPx - ex, W - padPx + ex] x [padPx - ey, H - padPx + ey]], and on
    at least one axis the two edges of the box land within the tolerance
    of [padPx] and of the dimension minus [padPx], where
    [ex = 8 (u (W + w s + |minX s|) + eta (1 + w + s))] and
    [ey = 8 (u (H + h s + |minY s|) + eta (1 + h + s))]; without rounding
    both are zero. *)
Theorem autoFit_keeps_bbox_near
    (F : Rounded.Rounding) (cosH sinH : R -> R) (L : Layout)
    (x0 y0 x1 y1 w h W H s ox oy : R) :
  Rounded.inflatedBBox F cosH sinH L
  = mkAABB (Fin x0) (Fin y0) (Fin x1) (Fin y1) (Fin w) (Fin h) ->
  w > 0 -> h > 0 ->
  W > 2 * 18 -> H > 2 * 18 ->
  Rounded.representable F W -> Rounded.representable F H ->
  Rounded.autoFit F cosH sinH L (Fin W) (Fin H) = fitR s ox oy ->
  let ex := 8 * (Rounded.roundoff F * (W + w * s + Rabs (x0 * s))
                 + Rounded.underflow F * (1 + w + s)) in
  let ey := 8 * (Rounded.roundoff F * (H + h * s + Rabs (y0 * s))
                 + Rounded.underflow F * (1 + h + s)) in
  Forall (fun c : R * R =>
            18 - ex <= fst c * s + ox <= W - 18 + ex /\
            18 - ey <= snd c * s + oy <= H - 18 + ey)
         [(x0, y0); (x1, y0); (x1, y1); (x0, y1)] /\
  ((Rabs (x0 * s + ox - 18) <= ex /\ Rabs (x1 * s + ox - (W - 18)) <= ex) \/
   (Rabs (y0 * s + oy - 18) <= ey /\ Rabs (y1 * s + oy - (H - 18)) <= ey)).
Proof.
  intros Hbb Hw Hh HW HH HrW HrH Hfit ex ey.
  destruct (inflatedBBox_sizes F cosH sinH L _ _ _ _ _ _ Hbb) as [Hwd Hhd].
  unfold Rounded.autoFit in Hfit. rewrite Hbb in Hfit.
  destruct (fitTransform_parts F x0 y0 w h W H s ox oy _ _ Hw Hh
              ltac:(lra) ltac:(lra) HrW HrH Hfit)
    as (a0 & b0 & Ha & Hb & Hs & (t & m & hf & q & Ht & Hm & Hhf & Hq & Hox)
        & (t' & m' & hf' & q' & Ht' & Hm' & Hhf' & Hq' & Hoy)).
  destruct (scale_parts F W H w h a0 b0 s ltac:(lra) ltac:(lra) Hw Hh Ha Hb Hs)
    as [Hs0 Hrs].
  destruct (Math_min_Fin _ _ _ Hs) as (Hlx & Hly & Hbind).
  destruct (axis_inside F W w x0 x1 a0 s t m hf q ox ltac:(lra) Hw Hs0 Hwd Ha
              Hlx Hrs Ht Hm Hhf Hq Hox) as [(X1 & X2 & X3) Xt].
  destruct (axis_inside F H h y0 y1 b0 s t' m' hf' q' oy ltac:(lra) Hh Hs0 Hhd
              Hb Hly Hrs Ht' Hm' Hhf' Hq' Hoy) as [(Y1 & Y2 & Y3) Yt].
  fold ex in X1, X3, Xt. fold ey in Y1, Y3, Yt.
  split.
  - repeat (apply Forall_cons; [cbn [fst snd]; lra |]). apply Forall_nil.
  - destruct Hbind as [Hx | Hy]; [left | right].
    + destruct (Xt Hx). split; apply Rabs_le; lra.
    + destruct (Yt Hy). split; apply Rabs_le; lra.
Qed.

Lemma le_trans (a b c : num) :
  Rounded.le a b -> Rounded.le b c -> Rounded.le a c.
Proof.
  destruct a as [x | | |], b as [y | | |], c as [z | | |]; cbn;
    try contradiction; try trivial.
  lra.
Qed.

Lemma Math_min_right (a b : num) :
  Rounded.le b a -> Num.Math_min a b = b.
Proof.
  destruct a as [x | | |], b as [y | | |]; cbn; try contradiction;
    try reflexivity.
  intros H. now rewrite Rmin_right.
Qed.

(** C8, amended.  In rounded arithmetic, under the hypotheses of C1 for
    the viewports [(W, H)] and [(2 W, H)], if the computed height ratio is
    at most the computed width ratio, the fit for [(2 W, H)] has the same
    scale and the same [offsetY], an [offsetX] that is not smaller, and
    the increase of [offsetX] is within
    [15 (u (W + w s + |minX s|) + eta)] of [W / 2]; without rounding it
    is [W / 2]. *)
Theorem autoFit_double_width_near
    (F : Rounded.Rounding) (cosH sinH : R -> R) (L : Layout)
    (x0 y0 x1 y1 w h W H s ox oy s' ox' oy' : R) :
  Rounded.inflatedBBox F cosH sinH L
  = mkAABB (Fin x0) (Fin y0) (Fin x1) (Fin y1) (Fin w) (Fin h) ->
  w > 0 -> h > 0 ->
  W > 2 * 18 -> H > 2 * 18 ->
  Rounded.representable F W -> Rounded.representable F (2 * W) ->
  Rounded.representable F H ->
  Rounded.le
    (Rounded.div F (Rounded.sub F (Fin H) (Rounded.mul F (Fin 2) padPx)) (Fin h))
    (Rounded.div F (Rounded.sub F (Fin W) (Rounded.mul F (Fin 2) padPx)) (Fin w)) ->
  Rounded.autoFit F cosH sinH L (Fin W) (Fin H) = fitR s ox oy ->
  Rounded.autoFit F cosH sinH L (Fin (2 * W)) (Fin H) = fitR s' ox' oy' ->
  s' = s /\ oy' = oy /\ ox <= ox' /\
  Rabs (ox' - ox - W / 2)
  <= 15 * (Rounded.roundoff F * (W + w * s + Rabs (x0 * s))
           + Rounded.underflow F).
Proof.
  intros Hbb Hw Hh HW HH HrW HrW2 HrH Hbind Hfit Hfit'.
  unfold Rounded.autoFit in Hfit, Hfit'. rewrite Hbb in Hfit, Hfit'.
  destruct (fitTransform_parts F x0 y0 w h W H s ox oy _ _ Hw Hh
              ltac:(lra) ltac:(lra) HrW HrH Hfit)
    as (a0 & b0 & Ha & Hb & Hs & (t & m & hf & q & Ht & Hm & Hhf & Hq & Hox)
        & (t1 & m1 & hf1 & q1 & Ht1 & Hm1 & Hhf1 & Hq1 & Hoy)).
  destruct (fitTransform_parts F x0 y0 w h (2 * W) H s' ox' oy' _ _ Hw Hh
              ltac:(lra) ltac:(lra) HrW2 HrH Hfit')
    as (a0' & b0' & Ha' & Hb' & Hs' & (t' & m' & hf' & q' & Ht' & Hm' & Hhf'
                                       & Hq' & Hox')
        & (t1' & m1' & hf1' & q1' & Ht1' & Hm1' & Hhf1' & Hq1' & Hoy')).
  assert (b0' = b0) by congruence. subst b0'.
  (* the ratios *)
  rewrite margins_36 in Hbind.
  destruct (inner_size F W ltac:(lra) HrW) as (a & Ea & Ha2).
  destruct (inner_size F H ltac:(lra) HrH) as (b & Eb & Hb2).
  assert (a = a0) by congruence. assert (b = b0) by congruence. subst a b.
  rewrite Ea, Eb, !div_Fin_pos in Hbind by assumption.
  assert (Haa : a0 <= a0') by (apply (rnd_le F (W - 36) (2 * W - 36)); [lra | assumption ..]).
  assert (Hq0 : a0 / w <= a0' / w).
  { apply Rmult_le_compat_r; [left; now apply Rinv_0_lt_compat | exact Haa]. }
  pose proof (Rounded.rnd_monotone F _ _ Hq0) as Hmono.
  pose proof (le_trans _ _ _ Hbind Hmono) as Hbind'.
  rewrite (Math_min_right _ _ Hbind) in Hs.
  rewrite (Math_min_right _ _ Hbind') in Hs'.
  assert (Hss : s' = s) by congruence. subst s'.
  split; [reflexivity |].
  (* the ordinate offset is computed from the same numbers *)
  assert (t1' = t1) by congruence. subst t1'.
  assert (m1' = m1) by congruence. subst m1'.
  assert (hf1' = hf1) by congruence. subst hf1'.
  assert (q1' = q1) by congruence. subst q1'.
  split; [congruence |].
  (* the abscissa offset *)
  assert (t' = t) by congruence. subst t'.
  assert (q' = q) by congruence. subst q'.
  assert (Hmm : m <= m') by (apply (rnd_le F (W - t) (2 * W - t)); [lra | assumption ..]).
  assert (Hhh : hf <= hf') by (apply (rnd_le F (m / 2) (m' / 2)); [lra | assumption ..]).
  split; [apply (rnd_le F (hf - q) (hf' - q)); [lra | assumption ..] |].
  destruct (scale_parts F W H w h a0 b0 s ltac:(lra) ltac:(lra) Hw Hh Ha Hb)
    as [Hs0 _].
  { rewrite (Math_min_right _ _ Hbind). exact Hs. }
  assert (HP : 0 <= w * s) by (apply Rmult_le_pos; lra).
  pose proof (axis_offset F W w x0 s t m hf q ox ltac:(lra) HP Ht Hm Hhf Hq Hox)
    as Hoff.
  pose proof (axis_offset F (2 * W) w x0 s t m' hf' q ox' ltac:(lra) HP Ht Hm'
                Hhf' Hq Hox') as Hoff'.
  cbv zeta in Hoff, Hoff'.
  pose proof (u_range F) as Hu. pose proof (eta_range F) as Heta.
  pose proof (Rabs_self (x0 * s)) as IQ.
  assert (HuW : 0 <= W) by lra.
  pose proof (small_mul F W HuW) as H1.
  pose proof (small_mul F (w * s) HP) as H2.
  pose proof (small_mul F (Rabs (x0 * s)) (proj2 IQ)) as H3.
  apply Rabs_le. lra.
Qed.

(** ** Without rounding *)

(** With the rounding that changes nothing, the rounded reading is the
    exact model. *)
Section Exact.

Lemma round_exact (v : num) : Rounded.round Rounded.exact v = v.
Proof. destruct v; reflexivity. Qed.

Lemma exact_offsetRect (r : Rect) (dx dy : num) :
  Rounded.offsetRect Rounded.exact r dx dy = offsetRect r dx dy.
Proof.
  unfold Rounded.offsetRect, offsetRect, Rounded.add.
  now rewrite !round_exact.
Qed.

Lemma exact_plaqueCorners (box : Rect) (ang k : num) :
  Rounded.plaqueCorners Rounded.exact cos sin box ang k
  = plaqueCorners box ang k.
Proof.
  unfold Rounded.plaqueCorners, plaqueCorners.
  cbn [map px py].
  unfold Rounded.add, Rounded.sub, Rounded.mul, Rounded.div.
  rewrite !round_exact. reflexivity.
Qed.

Lemma exact_fitPoints (L : Layout) :
  Rounded.fitPoints Rounded.exact cos sin L = fitPoints L.
Proof.
  unfold Rounded.fitPoints, fitPoints.
  f_equal; apply flat_map_ext; intros b.
  - apply exact_plaqueCorners.
  - now rewrite exact_offsetRect, exact_plaqueCorners.
Qed.

Lemma exact_inflatedBBox (L : Layout) :
  Rounded.inflatedBBox Rounded.exact cos sin L = inflatedBBox L.
Proof.
  unfold Rounded.inflatedBBox, inflatedBBox. rewrite exact_fitPoints.
  unfold Rounded.aabbFromPoints, aabbFromPoints.
  destruct (aabbLoop (fitPoints L) PInf PInf NInf NInf) as [[[a b] c] d].
  unfold Rounded.inflate, inflate, Rounded.add, Rounded.sub.
  cbn [minX minY maxX maxY]. now rewrite !round_exact.
Qed.

Lemma exact_autoFit (L : Layout) (W H : num) :
  Rounded.autoFit Rounded.exact cos sin L W H = autoFit L W H.
Proof.
  unfold Rounded.autoFit, autoFit. rewrite exact_inflatedBBox.
  unfold Rounded.fitTransform, fitTransform,
    Rounded.add, Rounded.sub, Rounded.mul, Rounded.div.
  now rewrite !round_exact.
Qed.

Lemma exact_scenario_fit (W H : R) :
  Rounded.autoFit Rounded.exact cos sin scenarioLayout (Fin W) (Fin H)
  = fitR (scaleR (999 - -99) (220 - 0) W H)
         ((W - (999 - -99) * scaleR (999 - -99) (220 - 0) W H) / 2
          - -99 * scaleR (999 - -99) (220 - 0) W H)
         ((H - (220 - 0) * scaleR (999 - -99) (220 - 0) W H) / 2
          - 0 * scaleR (999 - -99) (220 - 0) W H).
Proof.
  rewrite exact_autoFit. unfold autoFit.
  rewrite scenario_inflated_bbox. unfold aabbR.
  apply fitTransform_finite; lra.
Qed.

Lemma exact_scenario_bbox :
  Rounded.inflatedBBox Rounded.exact cos sin scenarioLayout
  = mkAABB (Fin (-99)) (Fin 0) (Fin 999) (Fin 220)
           (Fin (999 - -99)) (Fin (220 - 0)).
Proof. rewrite exact_inflatedBBox. apply scenario_inflated_bbox. Qed.

End Exact.

Lemma autoFit_keeps_bbox_near_witness :
  let s := scaleR (999 - -99) (220 - 0) 1000 1000 in
  let ox := (1000 - (999 - -99) * s) / 2 - -99 * s in
  let oy := (1000 - (220 - 0) * s) / 2 - 0 * s in
  let ex := 8 * (Rounded.roundoff Rounded.exact
                 * (1000 + (999 - -99) * s + Rabs (-99 * s))
                 + Rounded.underflow Rounded.exact * (1 + (999 - -99) + s)) in
  let ey := 8 * (Rounded.roundoff Rounded.exact
                 * (1000 + (220 - 0) * s + Rabs (0 * s))
                 + Rounded.underflow Rounded.exact * (1 + (220 - 0) + s)) in
  Forall (fun c : R * R =>
            18 - ex <= fst c * s + ox <= 1000 - 18 + ex /\
            18 - ey <= snd c * s + oy <= 1000 - 18 + ey)
         [(-99, 0); (999, 0); (999, 220); (-99, 220)] /\
  ((Rabs (-99 * s + ox - 18) <= ex /\
    Rabs (999 * s + ox - (1000 - 18)) <= ex) \/
   (Rabs (0 * s + oy - 18) <= ey /\
    Rabs (220 * s + oy - (1000 - 18)) <= ey)).
Proof.
  intros s ox oy.
  apply (autoFit_keeps_bbox_near Rounded.exact cos sin scenarioLayout
           (-99) 0 999 220 (999 - -99) (220 - 0) 1000 1000 s ox oy);
    [apply exact_scenario_bbox | lra | lra | lra | lra
    | reflexivity | reflexivity | apply exact_scenario_fit].
Defined.

Lemma autoFit_double_width_near_witness :
  let s := scaleR (999 - -99) (220 - 0) 5000 1000 in
  let s' := scaleR (999 - -99) (220 - 0) (2 * 5000) 1000 in
  let ox := (5000 - (999 - -99) * s) / 2 - -99 * s in
  let ox' := (2 * 5000 - (999 - -99) * s') / 2 - -99 * s' in
  let oy := (1000 - (220 - 0) * s) / 2 - 0 * s in
  let oy' := (1000 - (220 - 0) * s') / 2 - 0 * s' in
  s' = s /\ oy' = oy /\ ox <= ox' /\
  Rabs (ox' - ox - 5000 / 2)
  <= 15 * (Rounded.roundoff Rounded.exact
           * (5000 + (999 - -99) * s + Rabs (-99 * s))
           + Rounded.underflow Rounded.exact).
Proof.
  intros s s' ox ox' oy oy'.
  apply (autoFit_double_width_near Rounded.exact cos sin scenarioLayout
           (-99) 0 999 220 (999 - -99) (220 - 0) 5000 1000 s ox oy s' ox' oy');
    [apply exact_scenario_bbox | lra | lra | lra | lra
    | reflexivity | reflexivity | reflexivity | | apply exact_scenario_fit
    | apply exact_scenario_fit].
  unfold Rounded.div, Rounded.sub, Rounded.mul, padPx.
  cbn [Num.sub Num.mul Rounded.round Rounded.rnd Rounded.exact].
  rewrite !div_Fin by lra.
  cbn [Rounded.round Rounded.rnd Rounded.exact Rounded.le].
  unfold Rdiv.
  apply Rmult_le_reg_r with ((999 - -99) * (220 - 0)); [lra |].
  field_simplify; lra.
Defined.

Lemma plaqueCorners_offsetRect_near_witness :
  let B := Rabs 0 + Rabs 0 + Rabs 900 + Rabs 220 + Rabs (220 * (45 / 100))
           + Rabs 16 + Rabs 16 in
  let e := 28 * (Rounded.roundoff Rounded.exact * B
                 + Rounded.underflow Rounded.exact)
           * (1 + Rabs (cos 0) + Rabs (sin 0)) in
  Forall2 (near e)
    (Spec.skewed (0 + 16) (0 + 16) 900 220 (220 * (45 / 100)))
    (map (fun p => (fst p + 16, snd p + 16))
         (Spec.skewed 0 0 900 220 (220 * (45 / 100)))) /\
  forall L : Layout,
    Rounded.fitPoints Rounded.exact cos sin L
    = flat_map (fun b => Rounded.plaqueCorners Rounded.exact cos sin b
                           (slant L) (skewK L))
               (plaques L)
      ++ flat_map
           (fun b =>
              Rounded.plaqueCorners Rounded.exact cos sin
                (Rounded.offsetRect Rounded.exact b (px (shadowOff L))
                   (py (shadowOff L)))
                (slant L) (skewK L))
           (plaques L).
Proof.
  apply (plaqueCorners_offsetRect_near Rounded.exact cos sin 0 0 900 220 16 16
           0 (45 / 100));
    [apply exact_corners | apply (exact_corners (0 + 16) (0 + 16))].
Defined.

(** * Runs in binary64 *)

Section Binary64Runs.

Import PrimFloat.

Section Host.

Import Binary64.

Variables Math_cos Math_sin : float -> float.
Hypothesis host : rightAtZero Math_cos Math_sin.

(** At angle zero every host that is right at zero gives the same
    corners, those with cosine [1] and sine [0]. *)
Lemma plaqueCorners_at_zero (box : Rect) (k : float) :
  plaqueCorners Math_cos Math_sin box 0 k
  = plaqueCorners (fun _ => 1%float) (fun _ => 0%float) box 0 k.
Proof.
  destruct host as [Hc Hs]. unfold plaqueCorners. rewrite Hc, Hs. reflexivity.
Qed.

Lemma fitPoints_at_zero (L : Layout) :
  slant L = 0%float ->
  fitPoints Math_cos Math_sin L
  = fitPoints (fun _ => 1%float) (fun _ => 0%float) L.
Proof.
  intros HL. unfold fitPoints. rewrite HL.
  f_equal; apply flat_map_ext; intros b; apply plaqueCorners_at_zero.
Qed.

Lemma inflatedBBox_at_zero (L : Layout) :
  slant L = 0%float ->
  inflatedBBox Math_cos Math_sin L
  = inflatedBBox (fun _ => 1%float) (fun _ => 0%float) L.
Proof. intros HL. unfold inflatedBBox. now rewrite fitPoints_at_zero. Qed.

Lemma autoFit_at_zero (L : Layout) (W H : float) :
  slant L = 0%float ->
  autoFit Math_cos Math_sin L W H
  = autoFit (fun _ => 1%float) (fun _ => 0%float) L W H.
Proof. intros HL. unfold autoFit. now rewrite inflatedBBox_at_zero. Qed.

End Host.

(** C1, as stated, fails in binary64.  One plaque [{0, 0, 900, 220}]
    with angle [0], skew factor [0.45], no shadow offset and no motif
    pads has the box [{-99, 0, 999, 220}] of width [1098] and height
    [220]; for the viewport [240 x 79] the code computes
    [s = 0.18579234972677597] and [ox = 36.39344262295082], and the right
    edge [999] of the box is sent beyond [240 - 18 = 222], to
    [222.00000000000003]: in exact arithmetic on the computed doubles as
    well as in binary64. *)
Lemma autoFit_overshoots_margin :
  (forall Math_cos Math_sin : PrimFloat.float -> PrimFloat.float,
     Binary64.rightAtZero Math_cos Math_sin ->
     Binary64.inflatedBBox Math_cos Math_sin
       (Binary64.onePlaque 0 0 900 220 0.45)
     = Binary64.mkAABB (-99) 0 999 220 1098 220 /\
     Binary64.autoFit Math_cos Math_sin
       (Binary64.onePlaque 0 0 900 220 0.45) 240 79
     = Binary64.mkFit 0.18579234972677597 36.39344262295082
                      19.062841530054644) /\
  (Binary64.toQ 240 - Binary64.toQ 18
   < Binary64.imageX
       (Binary64.mkFit 0.18579234972677597 36.39344262295082
                       19.062841530054644) 999)%Q /\
  PrimFloat.ltb (240 - 18) (999 * 0.18579234972677597 + 36.39344262295082)
  = true /\
  PrimFloat.eqb (999 * 0.18579234972677597 + 36.39344262295082)
                222.00000000000003
  = true.
Proof.
  split; [| split; [| split]].
  - intros Math_cos Math_sin host.
    rewrite (inflatedBBox_at_zero _ _ host), (autoFit_at_zero _ _ host)
      by reflexivity.
    split; vm_compute; reflexivity.
  - vm_compute. reflexivity.
  - vm_compute. reflexivity.
  - vm_compute. reflexivity.
Qed.

(** C8, as stated, fails in binary64.  For the plaque of C4 the height
    ratio binds at [5000 x 1000]; at [10000 x 1000] the scale is the same
    but [offsetX] goes from [528.1818181818182] to [3028.1818181818185],
    which is not [offsetX + 5000 / 2].  For the plaque
    [{-2^58, 0, 10, 64}] the box has width [32] and height [64], the
    height ratio binds at [100 x 100], and the viewport [200 x 100] has
    the same [offsetX = 2^58 + 64]: it is not larger. *)
Lemma autoFit_double_width_fails :
  (forall Math_cos Math_sin : PrimFloat.float -> PrimFloat.float,
     Binary64.rightAtZero Math_cos Math_sin ->
     let L := Binary64.onePlaque 0 0 900 220 0.45 in
     let M := Binary64.onePlaque (-288230376151711744) 0 10 64 0.45 in
     Binary64.inflatedBBox Math_cos Math_sin L
     = Binary64.mkAABB (-99) 0 999 220 1098 220 /\
     Binary64.autoFit Math_cos Math_sin L 5000 1000
     = Binary64.mkFit 4.381818181818182 528.1818181818182 18 /\
     Binary64.autoFit Math_cos Math_sin L (2 * 5000) 1000
     = Binary64.mkFit 4.381818181818182 3028.1818181818185 18 /\
     Binary64.inflatedBBox Math_cos Math_sin M
     = Binary64.mkAABB (-288230376151711744) 0 (-288230376151711712) 64
                       32 64 /\
     Binary64.autoFit Math_cos Math_sin M 100 100
     = Binary64.mkFit 1 288230376151711808 18 /\
     Binary64.autoFit Math_cos Math_sin M (2 * 100) 100
     = Binary64.mkFit 1 288230376151711808 18) /\
  PrimFloat.leb ((1000 - 2 * 18) / 220) ((5000 - 2 * 18) / 1098) = true /\
  PrimFloat.eqb (528.1818181818182 + 5000 / 2) 3028.1818181818185 = false /\
  ~ (Binary64.toQ 3028.1818181818185
     == Binary64.toQ 528.1818181818182 + Binary64.toQ 5000 / 2)%Q /\
  PrimFloat.leb ((100 - 2 * 18) / 64) ((100 - 2 * 18) / 32) = true /\
  PrimFloat.ltb 288230376151711808 288230376151711808 = false.
Proof.
  split; [| repeat split].
  - intros Math_cos Math_sin host L M.
    rewrite !(inflatedBBox_at_zero _ _ host), !(autoFit_at_zero _ _ host)
      by reflexivity.
    repeat split; vm_compute; reflexivity.
  - vm_compute. discriminate.
Qed.

(** C9, as stated, fails in binary64.  For the rectangle
    [{0.1, 0.2, 0.3, 0.7}], angle [0] and skew factor [0.45] the code
    returns corners with ordinates [0.2, 0.2, 0.8999999999999999,
    0.8999999999999999], whose exact average is below the exact centre
    [0.2 + 0.7 / 2] of the rectangle, and whose abscissas average above
    [0.1 + 0.3 / 2]. *)
Lemma plaqueCorners_centroid_fails :
  let box := Binary64.mkRect 0.1 0.2 0.3 0.7 in
  let corners :=
    [ Binary64.mkPoint 0.41500000000000004 0.2;
      Binary64.mkPoint 0.7150000000000001 0.2;
      Binary64.mkPoint 0.08500000000000002 0.8999999999999999;
      Binary64.mkPoint (-0.21499999999999997) 0.8999999999999999 ]%float in
  (forall Math_cos Math_sin : PrimFloat.float -> PrimFloat.float,
     Binary64.rightAtZero Math_cos Math_sin ->
     Binary64.plaqueCorners Math_cos Math_sin box 0 0.45 = corners) /\
  (snd (Binary64.centroid corners) < snd (Binary64.centre box))%Q /\
  (fst (Binary64.centre box) < fst (Binary64.centroid corners))%Q.
Proof.
  intros box corners. split; [| split].
  - intros Math_cos Math_sin host.
    rewrite (plaqueCorners_at_zero _ _ host). vm_compute. reflexivity.
  - vm_compute. reflexivity.
  - vm_compute. reflexivity.
Qed.

(** C10, as stated, fails in binary64.  The rectangle [{0, 0, 4, 2}]
    with angle [0] and skew factor [0.5] has the corners
    [(1, 0), (5, 0), (3, 2), (-1, 2)]; moved by [(0.1, 0.1)] it has the
    corners [(1.1, 0.10000000000000009), (5.1, 0.10000000000000009),
    (3.0999999999999996, 2.1), (-0.8999999999999999, 2.1)].  The first
    ordinate is not [0 + 0.1], and the third abscissa is not [3 + 0.1]. *)
Lemma plaqueCorners_offsetRect_fails :
  let box := Binary64.mkRect 0 0 4 2 in
  (forall Math_cos Math_sin : PrimFloat.float -> PrimFloat.float,
     Binary64.rightAtZero Math_cos Math_sin ->
     Binary64.plaqueCorners Math_cos Math_sin box 0 0.5
     = [ Binary64.mkPoint 1 0; Binary64.mkPoint 5 0;
         Binary64.mkPoint 3 2; Binary64.mkPoint (-1) 2 ]%float /\
     Binary64.plaqueCorners Math_cos Math_sin
       (Binary64.offsetRect box 0.1 0.1) 0 0.5
     = [ Binary64.mkPoint 1.1 0.10000000000000009;
         Binary64.mkPoint 5.1 0.10000000000000009;
         Binary64.mkPoint 3.0999999999999996 2.1;
         Binary64.mkPoint (-0.8999999999999999) 2.1 ]%float) /\
  PrimFloat.eqb (0 + 0.1) 0.10000000000000009 = false /\
  PrimFloat.eqb (3 + 0.1) 3.0999999999999996 = false /\
  (Binary64.toQ 0 + Binary64.toQ 0.1 < Binary64.toQ 0.10000000000000009)%Q /\
  (Binary64.toQ 3.0999999999999996 < Binary64.toQ 3 + Binary64.toQ 0.1)%Q.
Proof.
  intros box. split; [| repeat split].
  intros Math_cos Math_sin host.
  rewrite !(plaqueCorners_at_zero _ _ host).
  split; vm_compute; reflexivity.
Qed.

End Binary64Runs.
